(** * Intermittent Bleed Pneumatic Controller Simulator

    A shallow embedding of [PC_Emissions_Sim.py] (the population Markov
    simulator [simulate_emissions_optimized]), of the input check and the
    Monte Carlo loop of [pneumatics.py], and of the pages that
    [generate_pdf_report.py] writes, with the properties of the
    specification proved about them.

    The simulator is embedded twice.
    - In the first embedding a Python/numpy float is a rational number
      ([Q]) and arithmetic is exact: numbers are compared, selected and
      copied as in the code, and a sum, a mean, a product or a quotient is
      the exact value of what the code rounds.
    - In the second embedding (the definitions whose names end in [64]) a
      float is a binary64 number ([PrimFloat.float]) and every operation
      rounds to the nearest double, as in numpy and Python. It carries the
      statements about the computed doubles, and the evaluations that show
      where a double differs from the exact value.

    Common conventions:
    - a one-dimensional numpy array is a [list], a two-dimensional one a
      list of rows;
    - the process-wide generator behind [np.random] is an explicit state [G]
      threaded through every call; a raised exception ends the call and keeps
      the generator as it was when the exception was raised. *)

From Stdlib Require Import ZArith QArith Qabs Lia Lqa Floats.
From stdpp Require Import base list strings pretty.

Local Open Scope Q_scope.

(** Decimal literals of doubles stand for the nearest binary64 number, as
    they do in Python. *)
#[local] Set Warnings "-inexact-float".

(** ** Exceptions *)

(** The messages of the exceptions the modelled code can raise: the two of
    the simulator's own validation, and those of the numpy calls it makes. *)
Inductive message : Type :=
  | Invalid_S0 (S0 : Q)                  (* f"Invalid S0: {S0}" *)
  | Invalid_DTF (DTF : Q)                (* f"Invalid DTF: {DTF}" *)
  | Invalid_S0_64 (S0 : float)           (* the same two, the value a binary64 number *)
  | Invalid_DTF_64 (DTF : float)
  | a_cannot_be_empty                    (* choice: 'a' cannot be empty unless no samples are taken *)
  | a_and_p_must_have_same_size          (* choice: 'a' and 'p' must have same size *)
  | probabilities_contain_NaN            (* choice *)
  | probabilities_are_not_non_negative   (* choice *)
  | probabilities_do_not_sum_to_1        (* choice *)
  | low_ge_high                          (* randint: low >= high *)
  | could_not_broadcast                  (* row assignment of a wrong length *)
  | index_out_of_bounds
  | float_division_by_zero.

Inductive exn : Type :=
  | ValueError (m : message)
  | IndexError (m : message)
  | ZeroDivisionError (m : message).

(** The two failures the specification names. *)
Definition InvalidParameter (e : exn) : Prop :=
  (exists S0, e = ValueError (Invalid_S0 S0)) \/ (exists DTF, e = ValueError (Invalid_DTF DTF)).

Definition EmptyRatePool (e : exn) : Prop := e = ValueError a_cannot_be_empty.

(** ** The random source *)

(** What the code uses of numpy's generator: a double in [[0, 1)]
    ([random_sample]) and an integer below a positive bound (the bounded
    integers behind [randint]). Each draw returns the advanced generator. *)
Class RandomState (G : Type) : Type := {
  next_double : G -> Q * G;
  next_interval : Z -> G -> Z * G;
  next_double_range : forall g, 0 <= (next_double g).1 /\ (next_double g).1 < 1;
  next_interval_range : forall n g, (0 < n)%Z -> (0 <= (next_interval n g).1 < n)%Z
}.

(** A small linear congruential generator, for running the model. *)
Definition lcg_step (g : nat) : nat := (g * 5 + 3) mod 16.

Definition lcg_double (g : nat) : Q * nat :=
  (inject_Z (Z.of_nat (g mod 16)) / 16, lcg_step g).

Definition lcg_interval (n : Z) (g : nat) : Z * nat :=
  ((Z.of_nat g) mod n, lcg_step g)%Z.

#[export, refine] Instance lcg : RandomState nat :=
  {| next_double := lcg_double; next_interval := lcg_interval |}.
Proof.
  - intros g. unfold lcg_double; cbn [fst].
    assert (Hlt : (g mod 16 < 16)%nat) by (apply Nat.mod_upper_bound; lia).
    split.
    + apply Qle_shift_div_l; [reflexivity|].
      rewrite Qmult_0_l. change 0 with (inject_Z 0). rewrite <- Zle_Qle. lia.
    + apply Qlt_shift_div_r; [reflexivity|].
      rewrite Qmult_1_l. change 16 with (inject_Z 16). rewrite <- Zlt_Qlt. lia.
  - intros n g Hn. unfold lcg_interval; cbn [fst]. apply Z.mod_pos_bound, Hn.
Defined.

(** The same source for the binary64 embedding: the double in [[0, 1)] as a
    binary64 number. The bounded integers are those of [RandomState]. *)
Class RandomState64 (G : Type) : Type := {
  next_double64 : G -> float * G;
  next_double64_range :
    forall g, (0 <=? (next_double64 g).1)%float = true
              /\ ((next_double64 g).1 <? 1)%float = true
}.

(** A natural number as a double, as the conversion of a Python [int] or of
    an integer array gives it (exact below [2^53]; the lengths and counts of
    the code are far below). *)
Definition float_of_nat64 (n : nat) : float :=
  PrimFloat.of_uint63 (Uint63.of_Z (Z.of_nat n)).

Definition lcg_double64 (g : nat) : float * nat :=
  ((float_of_nat64 (g mod 16) / 16)%float, lcg_step g).

#[export, refine] Instance lcg64 : RandomState64 nat :=
  {| next_double64 := lcg_double64 |}.
Proof.
  intros g. unfold lcg_double64; cbn [fst].
  assert (Hlt : (g mod 16 < 16)%nat) by (apply Nat.mod_upper_bound; lia).
  revert Hlt. generalize (g mod 16)%nat. intros k Hk.
  do 16 (destruct k as [|k]; [split; vm_compute; reflexivity|]). lia.
Defined.

(** ** Numbers and arrays *)

Definition Qltb (x y : Q) : bool := negb (Qle_bool y x).

(** [np.maximum], [np.minimum] and [np.clip] on scalars. *)
Definition np_maximum (x y : Q) : Q := if Qltb y x then x else y.
Definition np_minimum (x y : Q) : Q := if Qltb x y then x else y.
Definition np_clip (x lo hi : Q) : Q := np_minimum (np_maximum x lo) hi.

(** [np.sum] of a one-dimensional array, in exact arithmetic ([np_sum64] is
    the sum numpy computes on doubles). *)
Definition np_sum (l : list Q) : Q := fold_left Qplus l 0.

(** [np.mean] of a one-dimensional array, in exact arithmetic: the sum over
    the length ([np_mean64] is the rounded quotient of the rounded sum). *)
Definition np_mean (l : list Q) : Q := np_sum l / inject_Z (Z.of_nat (length l)).

(** [np.cumsum] in exact arithmetic: the running sums, the first entry being
    the first element. *)
Fixpoint accumulate (acc : Q) (l : list Q) : list Q :=
  match l with
  | [] => []
  | x :: l' => (acc + x) :: accumulate (acc + x) l'
  end.

Definition np_cumsum (l : list Q) : list Q :=
  match l with
  | [] => []
  | x :: l' => x :: accumulate x l'
  end.

(** [np.zeros((rows, cols))]. *)
Definition np_zeros (rows cols : nat) : list (list Q) := replicate rows (replicate cols 0).

(** [np.bincount(x, minlength=m)]: the number of occurrences of each value
    from 0 to the largest one, over at least [m] bins. *)
Definition np_bincount (x : list nat) (minlength : nat) : list nat :=
  (fun v => length (filter (fun y => y = v) x))
    <$> seq 0 (Nat.max minlength (S (foldr Nat.max 0%nat x))).

(** [cdf.searchsorted(u, side='right')]: the first index whose entry is
    greater than [u], the length when there is none. *)
Fixpoint searchsorted_right (cdf : list Q) (u : Q) : nat :=
  match cdf with
  | [] => 0
  | c :: cdf' => if Qltb u c then 0 else S (searchsorted_right cdf' u)
  end.

(** [a[i]] for an integer index: a negative one counts from the end. *)
Definition getitem {A} (a : list A) (i : Z) : exn + A :=
  let j := (if i <? 0 then Z.of_nat (length a) + i else i)%Z in
  if (j <? 0)%Z then inl (IndexError index_out_of_bounds)
  else match a !! Z.to_nat j with
       | Some x => inr x
       | None => inl (IndexError index_out_of_bounds)
       end.

Fixpoint getitems {A} (a : list A) (idx : list Z) : exn + list A :=
  match idx with
  | [] => inr []
  | i :: idx' =>
      match getitem a i with
      | inl e => inl e
      | inr x => match getitems a idx' with
                 | inl e => inl e
                 | inr xs => inr (x :: xs)
                 end
      end
  end.

(** [arr[t] = v] on a two-dimensional array: [v] must have the row's length,
    or length one (it is then broadcast). *)
Definition setitem (arr : list (list Q)) (t : nat) (v : list Q) : exn + list (list Q) :=
  match arr !! t with
  | None => inl (IndexError index_out_of_bounds)
  | Some row =>
      if (length v =? length row)%nat then inr (<[t := v]> arr)
      else match v with
           | [x] => inr (<[t := replicate (length row) x]> arr)
           | _ => inl (ValueError could_not_broadcast)
           end
  end.

(** [arr[-1]] on a one-dimensional array. *)
Definition last_item (l : list Q) : exn + Q :=
  match last l with
  | Some x => inr x
  | None => inl (IndexError index_out_of_bounds)
  end.

(** The tolerance of [choice]'s check of [p]: the square root of the double
    precision epsilon [2^-52], that is [2^-26]. *)
Definition atol : Q := 1 # 67108864.

(** The integer states of a unit as the float arrays store them. *)
Definition float_of_nat (n : nat) : Q := inject_Z (Z.of_nat n).

(** ** Binary64 numbers and arrays *)

(** The operations of the section above on doubles, each rounding to the
    nearest binary64 number. *)

(** [np.maximum], [np.minimum] and [np.clip] on scalars: a NaN in the first
    place is returned as it is, and a comparison with a NaN in the second
    place fails and returns it. *)
Definition np_maximum64 (x y : float) : float :=
  if PrimFloat.is_nan x then x else if (y <? x)%float then x else y.
Definition np_minimum64 (x y : float) : float :=
  if PrimFloat.is_nan x then x else if (x <? y)%float then x else y.
Definition np_clip64 (x lo hi : float) : float := np_minimum64 (np_maximum64 x lo) hi.

(** The sum of a contiguous run of doubles as numpy's reduction computes it
    (pairwise summation): fewer than 8 numbers are added from left to right;
    up to 128 are added into 8 running sums, which are then added in pairs,
    and the numbers left over are added last; more are cut in two (the
    first half a multiple of 8) and the two sums are added. *)
Fixpoint unrolled_sums (r a : list float) (blocks : nat) : list float :=
  match blocks with
  | O => r
  | S b => unrolled_sums (zip_with PrimFloat.add r (take 8 a)) (drop 8 a) b
  end.

Definition sum_of_sums (r : list float) : float :=
  match r with
  | [r0; r1; r2; r3; r4; r5; r6; r7] =>
      (((r0 + r1) + (r2 + r3)) + ((r4 + r5) + (r6 + r7)))%float
  | _ => 0%float
  end.

Fixpoint pairwise_sum (fuel : nat) (a : list float) : float :=
  let n := length a in
  if (n <? 8)%nat then fold_left PrimFloat.add a 0%float
  else if (n <=? 128)%nat then
    let r := unrolled_sums (take 8 a) (drop 8 a) (n / 8 - 1) in
    fold_left PrimFloat.add (drop (n - n mod 8) a) (sum_of_sums r)
  else
    match fuel with
    | O => 0%float
    | S fuel' =>
        let n2 := (n / 2 - (n / 2) mod 8)%nat in
        (pairwise_sum fuel' (take n2 a) + pairwise_sum fuel' (drop n2 a))%float
    end.

(** [np.sum] of a one-dimensional array of doubles, and of one row of a
    two-dimensional one under [axis=1]: the pairwise sum added to the
    initial value 0. (Versions of numpy differ in the sign of the zero they
    start from, which shows only in the sign of a sum that is zero.) *)
Definition np_sum64 (l : list float) : float := (0 + pairwise_sum (length l) l)%float.

(** [np.mean]: the same sum divided by the number of elements. *)
Definition np_mean64 (l : list float) : float :=
  (np_sum64 l / float_of_nat64 (length l))%float.

(** [np.cumsum]: the running sums from left to right. *)
Fixpoint accumulate64 (acc : float) (l : list float) : list float :=
  match l with
  | [] => []
  | x :: l' => (acc + x)%float :: accumulate64 (acc + x)%float l'
  end.

Definition np_cumsum64 (l : list float) : list float :=
  match l with
  | [] => []
  | x :: l' => x :: accumulate64 x l'
  end.

Definition np_zeros64 (rows cols : nat) : list (list float) :=
  replicate rows (replicate cols 0%float).

Fixpoint searchsorted_right64 (cdf : list float) (u : float) : nat :=
  match cdf with
  | [] => 0
  | c :: cdf' => if (u <? c)%float then 0 else S (searchsorted_right64 cdf' u)
  end.

Definition setitem64 (arr : list (list float)) (t : nat) (v : list float)
  : exn + list (list float) :=
  match arr !! t with
  | None => inl (IndexError index_out_of_bounds)
  | Some row =>
      if (length v =? length row)%nat then inr (<[t := v]> arr)
      else match v with
           | [x] => inr (<[t := replicate (length row) x]> arr)
           | _ => inl (ValueError could_not_broadcast)
           end
  end.

Definition last_item64 (l : list float) : exn + float :=
  match last l with
  | Some x => inr x
  | None => inl (IndexError index_out_of_bounds)
  end.

(** The tolerance of [choice]: [2^-26]. *)
Definition atol64 : float := 0x1p-26%float.

(** The compensated sum [choice] checks [p] with: it starts from the first
    entry (the code gives [choice] a [p] of two entries). *)
Fixpoint kahan_loop (sum c : float) (darr : list float) : float :=
  match darr with
  | [] => sum
  | x :: darr' =>
      let y := (x - c)%float in
      let t := (sum + y)%float in
      kahan_loop t ((t - sum) - y)%float darr'
  end.

Definition kahan_sum (darr : list float) : float :=
  match darr with
  | [] => 0%float
  | x :: darr' => kahan_loop x 0%float darr'
  end.

(** ** The report: [generate_pdf_report.py] *)

(** [range] refuses a zero step. *)
Inductive range_error : Type := range_arg_3_must_not_be_zero.

(** [range(0, stop, step)] for a length [stop]. *)
Definition py_range (stop step : nat) : range_error + list nat :=
  if (step =? 0)%nat then inl range_arg_3_must_not_be_zero
  else inr ((fun k => (k * step)%nat) <$> seq 0 ((stop + step - 1) / step)).

(** [l[i:i + n]]. *)
Definition slice {A} (l : list A) (i n : nat) : list A := take n (drop i l).

(** One saved page: a figure, or text lines with the height each is drawn
    at (a double); and the page number its footer shows. *)
Inductive page_body (Figure : Type) : Type :=
  | figure_page (fig : Figure)
  | text_page (texts : list (float * string)).

Arguments figure_page {Figure} fig.
Arguments text_page {Figure} texts.

Record page (Figure : Type) : Type := {
  body : page_body Figure;
  page_num : nat
}.

Arguments body {Figure} _.
Arguments page_num {Figure} _.

(** The slices of [w] elements a loop over [range(0, len(l), w)] cuts [l]
    into. *)
Definition chunks_of {A} (l : list A) (w : nat) : list (list A) :=
  (fun i => slice l i w) <$> ((fun k => (k * w)%nat) <$> seq 0 ((length l + w - 1) / w)).

(** The pages that [bodies] make when saved one after the other, the first
    with the page number [c]. *)
Definition numbered {Figure} (c : nat) (bodies : list (page_body Figure)) : list (page Figure) :=
  imap (fun k b => {| body := b; page_num := c + k |}) bodies.

Section Report.

(** The formatting [f"{v:.4f}"] of a rate and the splitting
    [summary_text.strip().split('\n')] of the summary are left abstract, as
    is what a figure holds. *)
Context (format_4f : Q -> string) (split_lines : string -> list string) {Figure : Type}.

(** Lines 11 to 16. *)
Definition wrap_list (label : string) (values : list Q) (wrap : nat)
  : range_error + list string :=
  let header := label +:+ " (" +:+ pretty (length values) +:+ " values):" in
  match py_range (length values) wrap with
  | inl e => inl e
  | inr starts =>
      inr (header :: ((fun i => String.concat ", " (format_4f <$> slice values i wrap))
                        <$> starts))
  end.

(** The lines of a text page, line [j] drawn at the height
    [0.95 - j * spacing], computed in doubles. *)
Definition place (spacing : float) (lines : list string) : list (float * string) :=
  imap (fun j line => ((0.95 - float_of_nat64 j * spacing)%float, line)) lines.

(** [add_branded_elements(fig, page_counter)], [pdf.savefig(fig)] and
    [page_counter += 1] on the pages saved so far and the counter. The logo
    and the fixed footer text are not modelled. *)
Definition save_page (b : page_body Figure) (st : list (page Figure) * nat)
  : list (page Figure) * nat :=
  (st.1 ++ [{| body := b; page_num := st.2 |}], S st.2).

(** Lines 72 to 83: the pages of one list of rates. *)
Definition list_pages (label : string) (values : list Q) (st : list (page Figure) * nat)
  : range_error + list (page Figure) * nat :=
  match wrap_list label values 10 with
  | inl e => inl e
  | inr lines =>
      let lines_per_page := 80%nat in
      match py_range (length lines) lines_per_page with
      | inl e => inl e
      | inr starts =>
          inr (foldl (fun st i =>
                        save_page (text_page (place 0.025%float (slice lines i lines_per_page)))
                          st)
                 st starts)
      end
  end.

(** Lines 46 to 86: the pages written to the buffer, in order. *)
Definition generate_pdf_report (figs : list Figure) (summary_text : string)
    (prop_rates malf_rates : list Q) : range_error + list (page Figure) :=
  let st := foldl (fun st fig => save_page (figure_page fig) st) ([], 1%nat) figs in
  let st := save_page (text_page (place 0.03%float (split_lines summary_text))) st in
  match list_pages "Properly Operating Rates" prop_rates st with
  | inl e => inl e
  | inr st =>
      match list_pages "Malfunctioning Rates" malf_rates st with
      | inl e => inl e
      | inr st => inr st.1
      end
  end.

End Report.

(** ** The input check of [pneumatics.py] *)

#[local] Set Warnings "-register-all".

(** A value as [json.load] builds it. The members of an object are kept in
    the order of the document. *)
Inductive json : Type :=
  | json_null
  | json_bool (b : bool)
  | json_number (x : Q)
  | json_string (s : string)
  | json_array (items : list json)
  | json_object (members : list (string * json)).

(** [d.get(key, [])] on the dictionary made of [members]: a name that occurs
    more than once has the value of its last occurrence. *)
Definition dict_get (key : string) (members : list (string * json)) : json :=
  match last (filter (fun m => m.1 = key) members) with
  | Some m => m.2
  | None => json_array []
  end.

(** What [np.array] makes of a value: for a list, an array whose first
    dimension has the length of the list; for anything else (a number, a
    string, [None], a dictionary), an array without dimensions. *)
Inductive ndarray : Type :=
  | sized (items : list json)
  | unsized (v : json).

(** How lines 78 to 95 end for the JSON format: with the message of line 87
    and [st.stop()]; with the [TypeError] that [len] raises on an array
    without dimensions, which nothing catches; with the message of line 94
    and [st.stop()]; or with the two arrays the script goes on with. *)
Inductive outcome : Type :=
  | error_loading_input_files
  | len_of_unsized_object
  | missing_or_empty_input_data (message : string)
  | rates_loaded (prop_rates malf_rates : ndarray).

Section InputCheck.

(** Whether [np.array] refuses a list (a [ValueError], for lists of lists of
    unequal lengths) depends on the version of numpy and is left abstract. *)
Context (inhomogeneous : list json -> bool).

(** Lines 84 and 85: [np.array(v)], [None] when it raises. *)
Definition np_array (v : json) : option ndarray :=
  match v with
  | json_array items => if inhomogeneous items then None else Some (sized items)
  | _ => Some (unsized v)
  end.

(** [len(a)], [None] when it raises. *)
Definition py_len (a : ndarray) : option nat :=
  match a with
  | sized items => Some (length items)
  | unsized _ => None
  end.

(** Lines 90 to 95. The [or] of line 90 looks at the second length only
    when the first is not zero; line 93 looks at it in any case. *)
Definition check_rates (prop_rates malf_rates : ndarray) : outcome :=
  match py_len prop_rates with
  | None => len_of_unsized_object
  | Some n_prop =>
      match (if (n_prop =? 0)%nat then Some true
             else match py_len malf_rates with
                  | None => None
                  | Some n_malf => Some (n_malf =? 0)%nat
                  end) with
      | None => len_of_unsized_object
      | Some false => rates_loaded prop_rates malf_rates
      | Some true =>
          let missing := [] in
          let missing :=
            if (n_prop =? 0)%nat then missing ++ ["Properly Operating Rates"]
            else missing in
          match py_len malf_rates with
          | None => len_of_unsized_object
          | Some n_malf =>
              let missing :=
                if (n_malf =? 0)%nat then missing ++ ["Malfunctioning Rates"]
                else missing in
              missing_or_empty_input_data
                ("Missing or empty input data: " +:+ String.concat ", " missing
                 +:+ ". Please upload valid file(s).")
          end
      end
  end.

(** Lines 78 to 95 for the JSON format. [parsed] is what [json.load]
    returned, [None] when it raised; a value that is not an object has no
    [get]. Every exception of lines 79 to 85 ends at line 87. *)
Definition load_rates (parsed : option json) : outcome :=
  match parsed with
  | Some (json_object members) =>
      match np_array (dict_get "prop_rates" members) with
      | None => error_loading_input_files
      | Some prop_rates =>
          match np_array (dict_get "malf_rates" members) with
          | None => error_loading_input_files
          | Some malf_rates => check_rates prop_rates malf_rates
          end
      end
  | _ => error_loading_input_files
  end.

(** The two keys hold lists (a missing key counts as the empty list) that
    [np.array] accepts. *)
Definition accepted_lists (members : list (string * json)) (ps ms : list json) : Prop :=
  dict_get "prop_rates" members = json_array ps
  /\ dict_get "malf_rates" members = json_array ms
  /\ inhomogeneous ps = false /\ inhomogeneous ms = false.

(** [np.array] accepts the value; the value is not a list. *)
Definition not_refused (v : json) : Prop :=
  forall items, v = json_array items -> inhomogeneous items = false.

Definition no_list (v : json) : Prop := forall items, v <> json_array items.

End InputCheck.

(** ** Computations that draw random numbers and may raise *)

Section Simulator.

Context {G : Type} `{RandomState G}.

(** A computation takes the generator and returns an exception or a value,
    with the generator as the computation left it. *)
Definition M (A : Type) : Type := G -> (exn + A) * G.

Definition ret {A} (x : A) : M A := fun g => (inr x, g).

Definition raise {A} (e : exn) : M A := fun g => (inl e, g).

Definition bind {A B} (c : M A) (k : A -> M B) : M B :=
  fun g => match c g with
           | (inl e, g') => (inl e, g')
           | (inr x, g') => k x g'
           end.

(** A draw cannot raise. *)
Definition draw {A} (f : G -> A * G) : M A := fun g => (inr (f g).1, (f g).2).

(** The result of a pure operation that may raise. *)
Definition try {A} (r : exn + A) : M A := fun g => (r, g).

Notation "x <- c ; k" := (bind c (fun x => k))
  (at level 20, c at level 100, k at level 200).
Notation "' pat <- c ; k" := (bind c (fun x => match x with pat => k end))
  (at level 20, pat pattern, c at level 100, k at level 200).

Fixpoint foldM {A S} (body : A -> S -> M S) (l : list A) (s : S) : M S :=
  match l with
  | [] => ret s
  | x :: l' => s' <- body x s ; foldM body l' s'
  end.

(** *** numpy's random functions *)

(** [n] doubles in [[0, 1)], drawn one after the other. *)
Fixpoint doubles (n : nat) (g : G) : list Q * G :=
  match n with
  | O => ([], g)
  | S k => let (u, g1) := next_double g in
           let (us, g2) := doubles k g1 in
           (u :: us, g2)
  end.

(** [n] integers in [[0, bound)], drawn one after the other. *)
Fixpoint integers (n : nat) (bound : Z) (g : G) : list Z * G :=
  match n with
  | O => ([], g)
  | S k => let (i, g1) := next_interval bound g in
           let (ks, g2) := integers k bound g1 in
           (i :: ks, g2)
  end.

(** [np.random.rand(n)]. *)
Definition np_random_rand (n : nat) : M (list Q) := draw (doubles n).

(** [np.random.uniform(low, high)]. *)
Definition np_random_uniform (low high : Q) : M Q :=
  draw (fun g => let (u, g') := next_double g in (low + (high - low) * u, g')).

(** [np.random.randint(low, high)]: one integer in [[low, high)]. *)
Definition np_random_randint (low high : Z) : M Z :=
  if (high <=? low)%Z then raise (ValueError low_ge_high)
  else draw (fun g => let (i, g') := next_interval (high - low) g in ((low + i)%Z, g')).

(** [np.random.randint(low, high, size=n)]: an empty request returns before
    the bounds are looked at. *)
Definition np_random_randint_size (low high : Z) (n : nat) : M (list Z) :=
  if (n =? 0)%nat then ret []
  else if (high <=? low)%Z then raise (ValueError low_ge_high)
  else draw (fun g => let (ks, g1) := integers n (high - low) g in (Z.add low <$> ks, g1)).

(** [np.random.choice(a, size=n)]: [n] entries of [a], with replacement. *)
Definition np_random_choice {A} (a : list A) (n : nat) : M (list A) :=
  if (length a =? 0)%nat && negb (n =? 0)%nat then raise (ValueError a_cannot_be_empty)
  else
    idx <- np_random_randint_size 0 (Z.of_nat (length a)) n ;
    try (getitems a idx).

(** [np.random.choice(a, size=n, p=p)]: [p] is checked, then each entry is
    found by one uniform draw against the normalised cumulative sums. *)
Definition np_random_choice_p {A} (a : list A) (n : nat) (p : list Q) : M (list A) :=
  if (length a =? 0)%nat && negb (n =? 0)%nat then raise (ValueError a_cannot_be_empty)
  else if negb (length p =? length a)%nat then raise (ValueError a_and_p_must_have_same_size)
  else if existsb (fun x => Qltb x 0) p then raise (ValueError probabilities_are_not_non_negative)
  else if Qltb atol (Qabs (np_sum p - 1)) then raise (ValueError probabilities_do_not_sum_to_1)
  else
    let cdf := np_cumsum p in
    total <- try (last_item cdf) ;
    let cdf := (fun c => c / total) <$> cdf in
    uniform_samples <- np_random_rand n ;
    try (getitems a ((fun u => Z.of_nat (searchsorted_right cdf u)) <$> uniform_samples)).

(** *** [simulate_emissions_optimized] *)

(** The transition of one unit: [np.where((states == 0) & (rand_vals < p), 1,
    np.where((states == 1) & (rand_vals < r), 0, states))], elementwise. *)
Definition next_state (p r : Q) (state : nat) (rand_val : Q) : nat :=
  if (state =? 0)%nat && Qltb rand_val p then 1%nat
  else if (state =? 1)%nat && Qltb rand_val r then 0%nat
  else state.

Definition next_states (p r : Q) (states : list nat) (rand_vals : list Q) : list nat :=
  zip_with (next_state p r) states rand_vals.

(** [np.where(states == 0, prop_sample, malf_sample)], elementwise. *)
Definition emission_of (state : nat) (rates : Q * Q) : Q :=
  if (state =? 0)%nat then rates.1 else rates.2.

Definition emissions_of (states : list nat) (prop_sample malf_sample : list Q) : list Q :=
  zip_with emission_of states (zip prop_sample malf_sample).

(** The variables the loop reads and writes. *)
Record loop_vars : Type := {
  states : list nat;
  emission_rates_each : list (list Q);
  state_history : list (list Q);
  state_history_each : list (list Q)
}.

(** What the function returns, in the order of its tuple. *)
Record results : Type := {
  res_emission_rates_each : list (list Q);
  res_avg_emission_rate : list Q;
  res_all_avg_emission_rate : Q;
  res_sum_emission_rate : list Q;
  res_cumulative_emission : list Q;
  res_final_cumulative_emission : Q;
  res_state_history : list (list Q);
  res_state_history_each : list (list Q)
}.

(** Lines 9 to 13: the validation. *)
Definition validate (DTF S0 : Q) : M unit :=
  if negb (Qle_bool 0 S0 && Qle_bool S0 1) then raise (ValueError (Invalid_S0 S0))
  else if negb (Qltb 0 DTF) then raise (ValueError (Invalid_DTF DTF))
  else ret tt.

(** Lines 19 to 24: the rates of each unit and its initial state. *)
Definition initialise (PC_count : nat) (S0 S1 : Q) (prop_rates malf_rates : list Q)
  : M (list Q * list Q * list nat) :=
  prop_sample <- np_random_choice prop_rates PC_count ;
  malf_sample <- np_random_choice malf_rates PC_count ;
  states <- np_random_choice_p [0%nat; 1%nat] PC_count [S0; S1] ;
  ret (prop_sample, malf_sample, states).

(** Lines 36 to 51: the body of the loop at step [t]. *)
Definition loop_body (PC_count : nat) (p r : Q) (prop_sample malf_sample : list Q)
    (t : nat) (v : loop_vars) : M loop_vars :=
  state_history_each' <- try (setitem (state_history_each v) t (float_of_nat <$> states v)) ;
  let state_counts :=
    (fun c => float_of_nat c / float_of_nat PC_count) <$> np_bincount (states v) 2 in
  state_history' <- try (setitem (state_history v) t state_counts) ;
  let emissions := emissions_of (states v) prop_sample malf_sample in
  emission_rates_each' <- try (setitem (emission_rates_each v) t emissions) ;
  rand_vals <- np_random_rand PC_count ;
  ret {| states := next_states p r (states v) rand_vals;
         emission_rates_each := emission_rates_each';
         state_history := state_history';
         state_history_each := state_history_each' |}.

(** Lines 53 to 62: the summaries, in exact arithmetic ([summarise64]
    computes them on doubles). *)
Definition summarise (p_gas : Q) (v : loop_vars) : M results :=
  let scfh_to_metric_tons_per_day := 24 * p_gas in
  let avg_emission_rate := np_mean <$> emission_rates_each v in
  let all_avg_emission_rate := np_mean avg_emission_rate in
  let sum_emission_rate := np_sum <$> emission_rates_each v in
  let cumulative_emission :=
    (fun c => c * scfh_to_metric_tons_per_day) <$> np_cumsum sum_emission_rate in
  final_cumulative_emission <- try (last_item cumulative_emission) ;
  ret {| res_emission_rates_each := emission_rates_each v;
         res_avg_emission_rate := avg_emission_rate;
         res_all_avg_emission_rate := all_avg_emission_rate;
         res_sum_emission_rate := sum_emission_rate;
         res_cumulative_emission := cumulative_emission;
         res_final_cumulative_emission := final_cumulative_emission;
         res_state_history := state_history v;
         res_state_history_each := state_history_each v |}.

(** The whole function. The matrix [P] of lines 32 and 33 is built and never
    read. *)
Definition simulate_emissions_optimized (PC_count : nat) (DTF S0 : Q) (timesteps : nat)
    (p_gas S1 p r : Q) (prop_rates malf_rates : list Q) : M results :=
  _ <- validate DTF S0 ;
  let p := np_clip p 0 1 in
  let r := np_clip r 0 1 in
  '(prop_sample, malf_sample, states0) <- initialise PC_count S0 S1 prop_rates malf_rates ;
  v <- foldM (loop_body PC_count p r prop_sample malf_sample) (seq 0 timesteps)
         {| states := states0;
            emission_rates_each := np_zeros timesteps PC_count;
            state_history := np_zeros timesteps 2;
            state_history_each := np_zeros timesteps PC_count |} ;
  summarise p_gas v.

(** *** The Monte Carlo loop of [pneumatics.py] *)

(** Lines 102 to 107: the parameters of one trial. Python's float division
    raises on a zero divisor. *)
Definition trial_parameters (DTF_min DTF_max : Z) (S0_min S0_max : Q)
  : M (Z * Q * Q * Q * Q) :=
  DTF <- np_random_randint DTF_min (DTF_max + 1) ;
  let DTF := Z.max 1 DTF in
  S0 <- np_random_uniform S0_min S0_max ;
  let S1 := 1 - S0 in
  let p := S0 / inject_Z DTF in
  r <- (if Qeq_bool S1 0 then raise (ZeroDivisionError float_division_by_zero)
        else ret (p / S1 - p)) ;
  ret (DTF, S0, S1, p, r).

(** The lists the loop appends to. *)
Record ensemble : Type := {
  DTF_list : list Z;
  S0_list : list Q;
  MC_all_avg_emission_rate : list Q;
  MC_final_cumulative_emission : list Q
}.

(** Lines 102 to 117: one trial. *)
Definition trial (PC_count : nat) (DTF_min DTF_max : Z) (S0_min S0_max : Q)
    (timesteps : nat) (p_gas : Q) (prop_rates malf_rates : list Q)
    (_ : nat) (e : ensemble) : M ensemble :=
  '(DTF, S0, S1, p, r) <- trial_parameters DTF_min DTF_max S0_min S0_max ;
  let e := {| DTF_list := DTF_list e ++ [DTF];
              S0_list := S0_list e ++ [S0];
              MC_all_avg_emission_rate := MC_all_avg_emission_rate e;
              MC_final_cumulative_emission := MC_final_cumulative_emission e |} in
  out <- simulate_emissions_optimized PC_count (inject_Z DTF) S0 timesteps p_gas S1 p r
           prop_rates malf_rates ;
  ret {| DTF_list := DTF_list e;
         S0_list := S0_list e;
         MC_all_avg_emission_rate :=
           MC_all_avg_emission_rate e ++ [res_all_avg_emission_rate out];
         MC_final_cumulative_emission :=
           MC_final_cumulative_emission e ++ [res_final_cumulative_emission out] |}.

(** Lines 99 to 117: [MC_runs] trials. *)
Definition run_simulation (MC_runs PC_count : nat) (DTF_min DTF_max : Z) (S0_min S0_max : Q)
    (timesteps : nat) (p_gas : Q) (prop_rates malf_rates : list Q) : M ensemble :=
  foldM (trial PC_count DTF_min DTF_max S0_min S0_max timesteps p_gas prop_rates malf_rates)
    (seq 0 MC_runs)
    {| DTF_list := []; S0_list := []; MC_all_avg_emission_rate := [];
       MC_final_cumulative_emission := [] |}.

(** *** The unrolled loop *)

(** Lines 46 to 51 on the states and the generator: one pass of the loop. *)
Definition transition (PC_count : nat) (p r : Q) (sg : list nat * G) : list nat * G :=
  (next_states p r sg.1 (doubles PC_count sg.2).1, (doubles PC_count sg.2).2).

(** The states and the generator at the start of step [t]. *)
Definition trajectory (PC_count : nat) (p r : Q) (states0 : list nat) (g0 : G) (t : nat)
  : list nat * G :=
  Nat.iter t (transition PC_count p r) (states0, g0).

(** The generator after [t] batches of [PC_count] doubles, and the batch
    drawn from it. *)
Definition generator_at (PC_count : nat) (g0 : G) (t : nat) : G :=
  Nat.iter t (fun g => (doubles PC_count g).2) g0.

Definition rand_vals_at (PC_count : nat) (g0 : G) (t : nat) : list Q :=
  (doubles PC_count (generator_at PC_count g0 t)).1.

(** The rows the loop records at step [t]. *)
Definition state_counts_of (PC_count : nat) (states : list nat) : list Q :=
  (fun c => float_of_nat c / float_of_nat PC_count) <$> np_bincount states 2.

(** The variables when the loop has run [timesteps] times from the states
    [states0] and the generator [g0]. *)
Definition loop_result (PC_count : nat) (p r : Q) (prop_sample malf_sample : list Q)
    (states0 : list nat) (g0 : G) (timesteps : nat) : loop_vars :=
  let states_at t := (trajectory PC_count p r states0 g0 t).1 in
  {| states := states_at timesteps;
     emission_rates_each :=
       (fun t => emissions_of (states_at t) prop_sample malf_sample) <$> seq 0 timesteps;
     state_history := (fun t => state_counts_of PC_count (states_at t)) <$> seq 0 timesteps;
     state_history_each := (fun t => float_of_nat <$> states_at t) <$> seq 0 timesteps |}.

(** [arr[t][i]]. *)
Definition entry {A} (arr : list (list A)) (t i : nat) : option A :=
  match arr !! t with
  | Some row => row !! i
  | None => None
  end.

(** The inputs the specification calls valid, [S1] being [1 - S0]. *)
Definition valid_input (PC_count timesteps : nat) (DTF S0 S1 : Q)
    (prop_rates malf_rates : list Q) : Prop :=
  (1 <= PC_count)%nat /\ (1 <= timesteps)%nat /\ 0 <= S0 /\ S0 <= 1 /\ 0 < DTF
  /\ S1 == 1 - S0 /\ prop_rates <> [] /\ malf_rates <> [].

(** [out] holds the arrays of [v] and the summaries lines 53 to 58 compute
    from them. *)
Definition summarised (p_gas : Q) (v : loop_vars) (out : results) : Prop :=
  res_emission_rates_each out = emission_rates_each v
  /\ res_state_history out = state_history v
  /\ res_state_history_each out = state_history_each v
  /\ res_avg_emission_rate out = np_mean <$> emission_rates_each v
  /\ res_all_avg_emission_rate out = np_mean (res_avg_emission_rate out)
  /\ res_sum_emission_rate out = np_sum <$> emission_rates_each v
  /\ res_cumulative_emission out =
       (fun c => c * (24 * p_gas)) <$> np_cumsum (res_sum_emission_rate out)
  /\ last (res_cumulative_emission out) = Some (res_final_cumulative_emission out).

(** A state is one of the two the code uses. *)
Definition binary (s : nat) : Prop := s = 0%nat \/ s = 1%nat.

(** A two-dimensional array of [rows] rows of [cols] entries. *)
Definition shape (rows cols : nat) (arr : list (list Q)) : Prop :=
  length arr = rows /\ Forall (fun row => length row = cols) arr.

(** [arr'] is [arr] with the rows [a] to [a + k - 1] replaced by [f 0] to
    [f (k - 1)]. *)
Definition recorded (arr arr' : list (list Q)) (a k : nat) (f : nat -> list Q) : Prop :=
  forall j, arr' !! j = if decide (a <= j < a + k)%nat then Some (f (j - a)%nat) else arr !! j.

(** The generator when lines 19 to 24 have drawn the rates and the initial
    states of [PC_count] units: [PC_count] integers for each pool, then
    [PC_count] doubles. *)
Definition generator_after_rates (PC_count : nat) (prop_rates malf_rates : list Q) (g : G) : G :=
  (integers PC_count (Z.of_nat (length malf_rates))
     (integers PC_count (Z.of_nat (length prop_rates)) g).2).2.

Definition generator_after_initialise (PC_count : nat) (prop_rates malf_rates : list Q)
    (g : G) : G :=
  (doubles PC_count (generator_after_rates PC_count prop_rates malf_rates g)).2.

(** *** More of [pneumatics.py] *)

(** Python's [max(x, y)] and [min(x, y)] of two numbers: the first one,
    unless the second is strictly larger (smaller). *)
Definition py_max (x y : Q) : Q := if Qltb x y then y else x.
Definition py_min (x y : Q) : Q := if Qltb y x then y else x.

(** Lines 47 and 48: the range [S0] is drawn from. *)
Definition S0_range (S0_mean S0_variation : Q) : Q * Q :=
  (py_max 0 (S0_mean - S0_variation), py_min 1 (S0_mean + S0_variation)).

(** Python's [x / y] on floats, with the quotient exact. *)
Definition py_div (x y : Q) : exn + Q :=
  if Qeq_bool y 0 then inl (ZeroDivisionError float_division_by_zero) else inr (x / y).

(** Lines 126 and 127: the heights of the two steady-state lines of the
    first plot, [r / (p + r)] and [p / (p + r)]. *)
Definition steady_state_lines (p r : Q) : exn + Q * Q :=
  match py_div r (p + r) with
  | inl e => inl e
  | inr proper =>
      match py_div p (p + r) with
      | inl e => inl e
      | inr malfunctioning => inr (proper, malfunctioning)
      end
  end.

(** What a trial draws: its [DTF], its [S0], and the generator it then
    calls the simulator with. *)
Definition trial_DTF (DTF_min DTF_max : Z) (g : G) : Z :=
  Z.max 1 (DTF_min + (next_interval (DTF_max + 1 - DTF_min) g).1).

Definition trial_S0 (DTF_min DTF_max : Z) (S0_min S0_max : Q) (g : G) : Q :=
  S0_min + (S0_max - S0_min) * (next_double (next_interval (DTF_max + 1 - DTF_min) g).2).1.

Definition generator_after_parameters (DTF_min DTF_max : Z) (g : G) : G :=
  (next_double (next_interval (DTF_max + 1 - DTF_min) g).2).2.

(** *** The simulator on binary64 numbers *)

Context {binary64_source : RandomState64 G}.

(** [n] doubles in [[0, 1)], drawn one after the other. *)
Fixpoint doubles64 (n : nat) (g : G) : list float * G :=
  match n with
  | O => ([], g)
  | S k => let (u, g1) := next_double64 g in
           let (us, g2) := doubles64 k g1 in
           (u :: us, g2)
  end.

Definition np_random_rand64 (n : nat) : M (list float) := draw (doubles64 n).

(** [np.random.choice(a, size=n, p=p)] with the checks and the cumulative
    sums computed in doubles. *)
Definition np_random_choice_p64 {A} (a : list A) (n : nat) (p : list float) : M (list A) :=
  if (length a =? 0)%nat && negb (n =? 0)%nat then raise (ValueError a_cannot_be_empty)
  else if negb (length p =? length a)%nat then raise (ValueError a_and_p_must_have_same_size)
  else
    let p_sum := kahan_sum p in
    if PrimFloat.is_nan p_sum then raise (ValueError probabilities_contain_NaN)
    else if existsb (fun x => (x <? 0)%float) p
    then raise (ValueError probabilities_are_not_non_negative)
    else if (atol64 <? PrimFloat.abs (p_sum - 1))%float
    then raise (ValueError probabilities_do_not_sum_to_1)
    else
      let cdf := np_cumsum64 p in
      total <- try (last_item64 cdf) ;
      let cdf := (fun c => (c / total)%float) <$> cdf in
      uniform_samples <- np_random_rand64 n ;
      try (getitems a ((fun u => Z.of_nat (searchsorted_right64 cdf u)) <$> uniform_samples)).

Definition next_state64 (p r : float) (state : nat) (rand_val : float) : nat :=
  if (state =? 0)%nat && (rand_val <? p)%float then 1%nat
  else if (state =? 1)%nat && (rand_val <? r)%float then 0%nat
  else state.

Definition next_states64 (p r : float) (states : list nat) (rand_vals : list float)
  : list nat :=
  zip_with (next_state64 p r) states rand_vals.

Definition emission_of64 (state : nat) (rates : float * float) : float :=
  if (state =? 0)%nat then rates.1 else rates.2.

Definition emissions_of64 (states : list nat) (prop_sample malf_sample : list float)
  : list float :=
  zip_with emission_of64 states (zip prop_sample malf_sample).

Record loop_vars64 : Type := {
  states64 : list nat;
  emission_rates_each64 : list (list float);
  state_history64 : list (list float);
  state_history_each64 : list (list float)
}.

Record results64 : Type := {
  res_emission_rates_each64 : list (list float);
  res_avg_emission_rate64 : list float;
  res_all_avg_emission_rate64 : float;
  res_sum_emission_rate64 : list float;
  res_cumulative_emission64 : list float;
  res_final_cumulative_emission64 : float;
  res_state_history64 : list (list float);
  res_state_history_each64 : list (list float)
}.

(** Lines 9 to 13. A NaN fails both comparisons. *)
Definition validate64 (DTF S0 : float) : M unit :=
  if negb ((0 <=? S0)%float && (S0 <=? 1)%float) then raise (ValueError (Invalid_S0_64 S0))
  else if negb (0 <? DTF)%float then raise (ValueError (Invalid_DTF_64 DTF))
  else ret tt.

(** Lines 19 to 24. *)
Definition initialise64 (PC_count : nat) (S0 S1 : float) (prop_rates malf_rates : list float)
  : M (list float * list float * list nat) :=
  prop_sample <- np_random_choice prop_rates PC_count ;
  malf_sample <- np_random_choice malf_rates PC_count ;
  states <- np_random_choice_p64 [0%nat; 1%nat] PC_count [S0; S1] ;
  ret (prop_sample, malf_sample, states).

(** Lines 36 to 51. *)
Definition loop_body64 (PC_count : nat) (p r : float) (prop_sample malf_sample : list float)
    (t : nat) (v : loop_vars64) : M loop_vars64 :=
  state_history_each' <-
    try (setitem64 (state_history_each64 v) t (float_of_nat64 <$> states64 v)) ;
  let state_counts :=
    (fun c => (float_of_nat64 c / float_of_nat64 PC_count)%float)
      <$> np_bincount (states64 v) 2 in
  state_history' <- try (setitem64 (state_history64 v) t state_counts) ;
  let emissions := emissions_of64 (states64 v) prop_sample malf_sample in
  emission_rates_each' <- try (setitem64 (emission_rates_each64 v) t emissions) ;
  rand_vals <- np_random_rand64 PC_count ;
  ret {| states64 := next_states64 p r (states64 v) rand_vals;
         emission_rates_each64 := emission_rates_each';
         state_history64 := state_history';
         state_history_each64 := state_history_each' |}.

(** Lines 7 and 53 to 62: the factor is the double [24 * p_gas], and each
    entry of the running sums is multiplied by it. *)
Definition summarise64 (p_gas : float) (v : loop_vars64) : M results64 :=
  let scfh_to_metric_tons_per_day := (24 * p_gas)%float in
  let avg_emission_rate := np_mean64 <$> emission_rates_each64 v in
  let all_avg_emission_rate := np_mean64 avg_emission_rate in
  let sum_emission_rate := np_sum64 <$> emission_rates_each64 v in
  let cumulative_emission :=
    (fun c => (c * scfh_to_metric_tons_per_day)%float) <$> np_cumsum64 sum_emission_rate in
  final_cumulative_emission <- try (last_item64 cumulative_emission) ;
  ret {| res_emission_rates_each64 := emission_rates_each64 v;
         res_avg_emission_rate64 := avg_emission_rate;
         res_all_avg_emission_rate64 := all_avg_emission_rate;
         res_sum_emission_rate64 := sum_emission_rate;
         res_cumulative_emission64 := cumulative_emission;
         res_final_cumulative_emission64 := final_cumulative_emission;
         res_state_history64 := state_history64 v;
         res_state_history_each64 := state_history_each64 v |}.

(** The whole function on doubles. *)
Definition simulate_emissions_optimized64 (PC_count : nat) (DTF S0 : float) (timesteps : nat)
    (p_gas S1 p r : float) (prop_rates malf_rates : list float) : M results64 :=
  _ <- validate64 DTF S0 ;
  let p := np_clip64 p 0 1 in
  let r := np_clip64 r 0 1 in
  '(prop_sample, malf_sample, states0) <- initialise64 PC_count S0 S1 prop_rates malf_rates ;
  v <- foldM (loop_body64 PC_count p r prop_sample malf_sample) (seq 0 timesteps)
         {| states64 := states0;
            emission_rates_each64 := np_zeros64 timesteps PC_count;
            state_history64 := np_zeros64 timesteps 2;
            state_history_each64 := np_zeros64 timesteps PC_count |} ;
  summarise64 p_gas v.

(** A two-dimensional array of doubles of [rows] rows of [cols] entries. *)
Definition shape64 (rows cols : nat) (arr : list (list float)) : Prop :=
  length arr = rows /\ Forall (fun row => length row = cols) arr.

(** The checks [choice] makes of [p]: no NaN in the sum, no negative entry,
    and a sum within the tolerance of 1. *)
Definition choice_accepts (p : list float) : bool :=
  negb (PrimFloat.is_nan (kahan_sum p))
  && negb (existsb (fun x => (x <? 0)%float) p)
  && negb (atol64 <? PrimFloat.abs (kahan_sum p - 1))%float.

(** The inputs a call on doubles accepts: those that pass the validation of
    lines 9 to 13 and the checks [choice] makes of [p = [S0, S1]], with at
    least one unit, one step and one rate in each pool. *)
Definition valid_input64 (PC_count timesteps : nat) (DTF S0 S1 : float)
    (prop_rates malf_rates : list float) : Prop :=
  (1 <= PC_count)%nat /\ (1 <= timesteps)%nat
  /\ (0 <=? S0)%float = true /\ (S0 <=? 1)%float = true /\ (0 <? DTF)%float = true
  /\ choice_accepts [S0; S1] = true
  /\ prop_rates <> [] /\ malf_rates <> [].

(** ** Properties *)

(** *** Draws *)

Lemma doubles_length (n : nat) (g : G) : length (doubles n g).1 = n.
Proof.
  revert g; induction n as [|n IH]; intros g; cbn; [reflexivity|].
  destruct (next_double g) as [u g1]. specialize (IH g1).
  destruct (doubles n g1) as [us g2]. cbn in *. congruence.
Qed.

Lemma doubles_range (n : nat) (g : G) :
  Forall (fun u => 0 <= u /\ u < 1) (doubles n g).1.
Proof.
  revert g; induction n as [|n IH]; intros g; cbn; [constructor|].
  pose proof (next_double_range g) as Hu.
  destruct (next_double g) as [u g1]. specialize (IH g1).
  destruct (doubles n g1) as [us g2]. cbn in *. constructor; assumption.
Qed.

Lemma integers_length (n : nat) (bound : Z) (g : G) : length (integers n bound g).1 = n.
Proof.
  revert g; induction n as [|n IH]; intros g; cbn; [reflexivity|].
  destruct (next_interval bound g) as [i g1]. specialize (IH g1).
  destruct (integers n bound g1) as [ks g2]. cbn in *. congruence.
Qed.

Lemma integers_range (n : nat) (bound : Z) (g : G) :
  (0 < bound)%Z -> Forall (fun i => (0 <= i < bound)%Z) (integers n bound g).1.
Proof.
  intros Hb. revert g; induction n as [|n IH]; intros g; cbn; [constructor|].
  pose proof (next_interval_range bound g Hb) as Hi.
  destruct (next_interval bound g) as [i g1]. specialize (IH g1).
  destruct (integers n bound g1) as [ks g2]. cbn in *. constructor; assumption.
Qed.

(** *** Indexing *)

Lemma getitem_in {A} (a : list A) (i : Z) (x : A) : getitem a i = inr x -> x ∈ a.
Proof.
  unfold getitem. destruct (_ <? 0)%Z; [discriminate|].
  destruct (a !! _) eqn:E; [|discriminate].
  intros [= <-]. eapply list_elem_of_lookup_2, E.
Qed.

Lemma getitem_ok {A} (a : list A) (i : Z) :
  (0 <= i < Z.of_nat (length a))%Z -> exists x, getitem a i = inr x.
Proof.
  intros Hi. unfold getitem.
  destruct (i <? 0)%Z eqn:E1; [lia|]. rewrite E1.
  destruct (lookup_lt_is_Some_2 a (Z.to_nat i)) as [x Hx]; [lia|].
  rewrite Hx. eauto.
Qed.

Lemma getitems_in {A} (a : list A) (idx : list Z) (xs : list A) :
  getitems a idx = inr xs -> length xs = length idx /\ Forall (fun x => x ∈ a) xs.
Proof.
  revert xs; induction idx as [|i idx IH]; intros xs; cbn.
  - intros [= <-]. split; [reflexivity|constructor].
  - destruct (getitem a i) as [e|x] eqn:E; [discriminate|].
    destruct (getitems a idx) as [e|xs'] eqn:E'; [discriminate|].
    intros [= <-]. destruct (IH xs' eq_refl) as [Hl Hin].
    split; [cbn; congruence|]. constructor; [eapply getitem_in, E|assumption].
Qed.

Lemma getitems_ok {A} (a : list A) (idx : list Z) :
  Forall (fun i => (0 <= i < Z.of_nat (length a))%Z) idx ->
  exists xs, getitems a idx = inr xs.
Proof.
  induction 1 as [|i idx Hi _ [xs IH]]; cbn; [eauto|].
  destruct (getitem_ok a i Hi) as [x ->]. rewrite IH. eauto.
Qed.

Lemma getitems_error {A} (a : list A) (idx : list Z) (e : exn) :
  getitems a idx = inl e -> e = IndexError index_out_of_bounds.
Proof.
  induction idx as [|i idx IH]; cbn; [discriminate|].
  destruct (getitem a i) as [e'|x] eqn:E.
  - intros [= <-]. unfold getitem in E.
    destruct (_ <? 0)%Z; [congruence|]. destruct (a !! _); congruence.
  - destruct (getitems a idx) as [e'|xs']; [|discriminate].
    intros [= <-]. apply IH; reflexivity.
Qed.

Lemma getitems_states (ks : list nat) :
  Forall (fun k => (k < 2)%nat) ks -> getitems [0%nat; 1%nat] (Z.of_nat <$> ks) = inr ks.
Proof.
  induction 1 as [|k ks Hk _ IH]; [reflexivity|].
  cbn [fmap list_fmap getitems]. change (list_fmap nat Z Z.of_nat ks) with (Z.of_nat <$> ks).
  rewrite IH. cbn beta in Hk. destruct k as [|[|k]]; [reflexivity|reflexivity|lia].
Qed.

(** *** Comparisons *)

Lemma Qltb_true (x y : Q) : Qltb x y = true <-> x < y.
Proof.
  unfold Qltb. rewrite negb_true_iff, <- not_true_iff_false, Qle_bool_iff.
  split; [apply Qnot_le_lt|apply Qlt_not_le].
Qed.

Lemma Qltb_false (x y : Q) : Qltb x y = false <-> y <= x.
Proof. unfold Qltb. rewrite negb_false_iff. apply Qle_bool_iff. Qed.

(** *** [np.random.choice] *)

Lemma np_random_choice_empty {A} (n : nat) (g : G) :
  n <> 0%nat -> np_random_choice (@nil A) n g = (inl (ValueError a_cannot_be_empty), g).
Proof.
  intros Hn. unfold np_random_choice. cbn [length].
  destruct (Nat.eqb_spec n 0) as [->|_]; [congruence|reflexivity].
Qed.

Lemma np_random_choice_ok {A} (a : list A) (n : nat) (g : G) :
  a <> [] ->
  exists xs, np_random_choice a n g = (inr xs, (integers n (Z.of_nat (length a)) g).2).
Proof.
  intros Ha. assert (Hl : length a <> 0%nat) by (destruct a; cbn; congruence).
  unfold np_random_choice, np_random_randint_size, bind.
  destruct (Nat.eqb_spec (length a) 0) as [?|_]; [congruence|]. cbn [andb].
  destruct (Nat.eqb_spec n 0) as [->|Hn]; [cbn; eauto|].
  destruct (Z.leb_spec (Z.of_nat (length a)) 0) as [?|_]; [lia|].
  unfold draw, try. rewrite Z.sub_0_r.
  pose proof (integers_range n (Z.of_nat (length a)) g ltac:(lia)) as Hr.
  destruct (integers n (Z.of_nat (length a)) g) as [ks g1]. cbn [fst snd] in *.
  destruct (getitems_ok a (Z.add 0 <$> ks)) as [xs ->]; [|eauto].
  apply Forall_fmap. eapply Forall_impl; [exact Hr|]. intros i Hi. cbn in *. lia.
Qed.

Lemma np_random_choice_inv {A} (a : list A) (n : nat) (g g' : G) (xs : list A) :
  np_random_choice a n g = (inr xs, g') -> length xs = n /\ Forall (fun x => x ∈ a) xs.
Proof.
  unfold np_random_choice, np_random_randint_size, bind.
  destruct (_ && _); [discriminate|].
  destruct (Nat.eqb_spec n 0) as [->|Hn].
  - cbn. intros [= <- _]. split; [reflexivity|constructor].
  - destruct (_ <=? _)%Z; [discriminate|]. unfold draw, try.
    pose proof (integers_length n (Z.of_nat (length a) - 0) g) as Hl.
    destruct (integers n _ g) as [ks g1]. cbn [fst snd] in *.
    intros [= E _]. apply getitems_in in E as [E1 E2].
    rewrite length_fmap in E1. split; [congruence|assumption].
Qed.

Lemma np_random_choice_error {A} (a : list A) (n : nat) (g g' : G) (e : exn) :
  np_random_choice a n g = (inl e, g') ->
  (e = ValueError a_cannot_be_empty /\ a = [] /\ g' = g) \/ e = ValueError low_ge_high
  \/ e = IndexError index_out_of_bounds.
Proof.
  unfold np_random_choice, np_random_randint_size, bind.
  destruct (Nat.eqb_spec (length a) 0) as [Ha|_]; cbn [andb].
  - destruct (negb _); [intros [= <- <-]; left; destruct a; [auto|discriminate]|].
    destruct (n =? 0)%nat; [cbn; discriminate|].
    destruct (_ <=? _)%Z; [intros [= <- _]; auto|].
    unfold draw, try. destruct (integers n _ g). cbn.
    intros [= E _]. apply getitems_error in E. auto.
  - destruct (n =? 0)%nat; [cbn; discriminate|].
    destruct (_ <=? _)%Z; [intros [= <- _]; auto|].
    unfold draw, try. destruct (integers n _ g). cbn.
    intros [= E _]. apply getitems_error in E. auto.
Qed.

Lemma np_random_choice_p_inv {A} (a : list A) (n : nat) (p : list Q) (g g' : G)
    (xs : list A) :
  np_random_choice_p a n p g = (inr xs, g') ->
  length xs = n /\ Forall (fun x => x ∈ a) xs /\ g' = (doubles n g).2.
Proof.
  unfold np_random_choice_p, bind, try, np_random_rand, draw.
  destruct (_ && _); [discriminate|]. destruct (negb _); [discriminate|].
  destruct (existsb _ _); [discriminate|]. destruct (Qltb _ _); [discriminate|].
  destruct (last_item _) as [e|total]; [discriminate|].
  intros [= E ->]. apply getitems_in in E as [E1 E2].
  rewrite length_fmap, doubles_length in E1. auto.
Qed.

Lemma np_random_choice_p_error {A} (a : list A) (n : nat) (p : list Q) (g g' : G)
    (e : exn) :
  np_random_choice_p a n p g = (inl e, g') -> ~ InvalidParameter e.
Proof.
  unfold np_random_choice_p, bind, try, np_random_rand, draw.
  assert (Hi : ~ InvalidParameter (IndexError index_out_of_bounds))
    by (intros [[? [=]]|[? [=]]]).
  destruct (_ && _); [intros [= <- _] [[? [=]]|[? [=]]]|].
  destruct (negb _); [intros [= <- _] [[? [=]]|[? [=]]]|].
  destruct (existsb _ _); [intros [= <- _] [[? [=]]|[? [=]]]|].
  destruct (Qltb _ _); [intros [= <- _] [[? [=]]|[? [=]]]|].
  destruct (last_item _) as [e'|total] eqn:El.
  - intros [= <- _]. unfold last_item in El. destruct (last _); [discriminate|].
    injection El as <-. exact Hi.
  - intros [= E _]. apply getitems_error in E as ->. exact Hi.
Qed.

(** The initial states under a valid pair of probabilities: unit [i] starts
    in the state its uniform draw falls in. *)
Lemma np_random_choice_p_states (n : nat) (S0 S1 : Q) (g : G) :
  0 <= S0 -> 0 <= S1 -> Qabs (S0 + S1 - 1) <= atol ->
  np_random_choice_p [0%nat; 1%nat] n [S0; S1] g =
    (inr (searchsorted_right [S0 / (S0 + S1); (S0 + S1) / (S0 + S1)] <$> (doubles n g).1),
     (doubles n g).2).
Proof.
  intros H0 H1 Hsum.
  assert (Ht : 0 < S0 + S1).
  { apply Qabs_Qle_condition in Hsum as [Hlo _]. unfold atol in Hlo.
    lra. }
  unfold np_random_choice_p, bind, try, np_random_rand, draw.
  cbn [length Nat.eqb andb negb existsb orb].
  apply Qltb_false in H0 as ->. apply Qltb_false in H1 as ->. cbn [orb].
  assert (Hs : Qltb atol (Qabs (np_sum [S0; S1] - 1)) = false).
  { apply Qltb_false. unfold np_sum; cbn [fold_left].
    assert (E : 0 + S0 + S1 - 1 == S0 + S1 - 1) by ring. rewrite E. exact Hsum. }
  rewrite Hs. cbn [np_cumsum accumulate last_item last fmap list_fmap].
  pose proof (doubles_range n g) as Hr.
  destruct (doubles n g) as [us g1]. cbn [fst snd] in *.
  set (cdf := [S0 / (S0 + S1); (S0 + S1) / (S0 + S1)]).
  change (fun u : Q => Z.of_nat (searchsorted_right cdf u))
    with (Z.of_nat ∘ searchsorted_right cdf).
  rewrite list_fmap_compose, getitems_states; [reflexivity|]. subst cdf.
  apply Forall_fmap. eapply Forall_impl; [exact Hr|]. intros u [_ Hu]. cbn.
  destruct (Qltb u (S0 / (S0 + S1))); [lia|].
  assert (E : Qltb u ((S0 + S1) / (S0 + S1)) = true).
  { apply Qltb_true. assert (E1 : (S0 + S1) / (S0 + S1) == 1) by (field; lra).
    rewrite E1. exact Hu. }
  rewrite E. lia.
Qed.

(** *** Arrays *)

Lemma shape_zeros (rows cols : nat) : shape rows cols (np_zeros rows cols).
Proof.
  split; [apply length_replicate|].
  apply Forall_replicate, length_replicate.
Qed.

Lemma shape_insert (rows cols t : nat) (arr : list (list Q)) (v : list Q) :
  shape rows cols arr -> length v = cols -> shape rows cols (<[t := v]> arr).
Proof.
  intros [Hl Hr] Hv. split; [rewrite length_insert; exact Hl|].
  apply Forall_insert; assumption.
Qed.

Lemma setitem_ok (rows cols t : nat) (arr : list (list Q)) (v : list Q) :
  shape rows cols arr -> (t < rows)%nat -> length v = cols ->
  setitem arr t v = inr (<[t := v]> arr).
Proof.
  intros [Hl Hr] Ht Hv. unfold setitem.
  destruct (lookup_lt_is_Some_2 arr t) as [row Hrow]; [lia|]. rewrite Hrow.
  rewrite Forall_lookup in Hr. rewrite (Hr _ _ Hrow), Hv, Nat.eqb_refl. reflexivity.
Qed.

Lemma recorded_all (rows cols : nat) (arr arr' : list (list Q)) (f : nat -> list Q) :
  length arr = rows -> recorded arr arr' 0 rows f -> arr' = f <$> seq 0 rows.
Proof.
  intros Hl Hrec. apply list_eq. intros j. rewrite (Hrec j), list_lookup_fmap.
  destruct (decide (0 <= j < 0 + rows)%nat) as [Hj|Hj].
  - rewrite lookup_seq_lt by lia. cbn. do 2 f_equal. lia.
  - rewrite lookup_seq_ge by lia. apply lookup_ge_None_2. lia.
Qed.

(** *** The states *)

Lemma next_state_binary (p r : Q) (s : nat) (u : Q) : binary s -> binary (next_state p r s u).
Proof.
  intros Hs. unfold next_state, binary.
  destruct (_ && _); [auto|]. destruct (_ && _); [auto|exact Hs].
Qed.

Lemma next_states_length (p r : Q) (n : nat) (s : list nat) (rv : list Q) :
  length s = n -> length rv = n -> length (next_states p r s rv) = n.
Proof. intros Hs Hrv. unfold next_states. rewrite length_zip_with. lia. Qed.

Lemma next_states_binary (p r : Q) (s : list nat) (rv : list Q) :
  Forall binary s -> Forall binary (next_states p r s rv).
Proof.
  intros Hs. unfold next_states. revert rv.
  induction Hs as [|x s Hx _ IH]; intros [|u rv]; cbn; constructor.
  - apply next_state_binary, Hx.
  - apply IH.
Qed.

Lemma emissions_of_length (n : nat) (s : list nat) (ps ms : list Q) :
  length s = n -> length ps = n -> length ms = n -> length (emissions_of s ps ms) = n.
Proof.
  intros Hs Hp Hm. unfold emissions_of. rewrite length_zip_with, length_zip. lia.
Qed.

Lemma foldr_max_binary (s : list nat) : Forall binary s -> (foldr Nat.max 0 s <= 1)%nat.
Proof. induction 1 as [|x s [-> | ->] _ IH]; cbn; lia. Qed.

Lemma np_bincount_binary (s : list nat) :
  Forall binary s ->
  np_bincount s 2 = [length (filter (fun y => y = 0%nat) s);
                     length (filter (fun y => y = 1%nat) s)].
Proof.
  intros Hs. unfold np_bincount.
  replace (Nat.max 2 (S (foldr Nat.max 0%nat s))) with 2%nat; [reflexivity|].
  pose proof (foldr_max_binary s Hs). lia.
Qed.

Lemma state_counts_of_length (n : nat) (s : list nat) :
  Forall binary s -> length (state_counts_of n s) = 2%nat.
Proof. intros Hs. unfold state_counts_of. rewrite np_bincount_binary by exact Hs. reflexivity. Qed.

Lemma trajectory_S (n : nat) (p r : Q) (s : list nat) (g : G) (t : nat) :
  trajectory n p r s g (S t) = trajectory n p r (transition n p r (s, g)).1
                                 (transition n p r (s, g)).2 t.
Proof.
  unfold trajectory. rewrite Nat.iter_succ_r.
  destruct (transition n p r (s, g)); reflexivity.
Qed.

Lemma trajectory_states (n : nat) (p r : Q) (s : list nat) (g : G) (t : nat) :
  length s = n -> Forall binary s ->
  length (trajectory n p r s g t).1 = n /\ Forall binary (trajectory n p r s g t).1.
Proof.
  intros Hl Hb. induction t as [|t [IH1 IH2]]; [auto|].
  unfold trajectory in *. rewrite Nat.iter_succ. unfold transition at 1. cbn [fst].
  split; [apply next_states_length; [exact IH1|apply doubles_length]|].
  apply next_states_binary, IH2.
Qed.

Lemma trajectory_generator (n : nat) (p r : Q) (s : list nat) (g : G) (t : nat) :
  (trajectory n p r s g t).2 = generator_at n g t.
Proof.
  unfold trajectory, generator_at. induction t as [|t IH]; [reflexivity|].
  rewrite !Nat.iter_succ. unfold transition at 1. cbn [snd]. rewrite IH. reflexivity.
Qed.

(** *** The loop *)

Lemma recorded_nil (arr : list (list Q)) (a : nat) (f : nat -> list Q) :
  recorded arr arr a 0 f.
Proof. intros j. destruct (decide _); [lia|reflexivity]. Qed.

Lemma recorded_step (arr arr' : list (list Q)) (a k : nat) (x : list Q)
    (f f' : nat -> list Q) :
  (a < length arr)%nat -> x = f 0%nat -> (forall i, f' i = f (S i)) ->
  recorded (<[a := x]> arr) arr' (S a) k f' -> recorded arr arr' a (S k) f.
Proof.
  intros Ha Hx Hf Hrec j. rewrite (Hrec j).
  destruct (decide (S a <= j < S a + k)%nat) as [Hj|Hj].
  - rewrite decide_True by lia. rewrite Hf. do 2 f_equal. lia.
  - destruct (decide (j = a)) as [->|Hne].
    + rewrite decide_True by lia. rewrite list_lookup_insert_eq by exact Ha.
      rewrite Nat.sub_diag. congruence.
    + rewrite decide_False by lia. apply list_lookup_insert_ne. congruence.
Qed.

Lemma loop_body_run (n rows : nat) (p r : Q) (ps ms : list Q) (t : nat) (v : loop_vars)
    (g : G) :
  length ps = n -> length ms = n -> (t < rows)%nat ->
  length (states v) = n -> Forall binary (states v) ->
  shape rows n (emission_rates_each v) -> shape rows 2 (state_history v) ->
  shape rows n (state_history_each v) ->
  loop_body n p r ps ms t v g =
    (inr {| states := (transition n p r (states v, g)).1;
            emission_rates_each :=
              <[t := emissions_of (states v) ps ms]> (emission_rates_each v);
            state_history := <[t := state_counts_of n (states v)]> (state_history v);
            state_history_each :=
              <[t := float_of_nat <$> states v]> (state_history_each v) |},
     (transition n p r (states v, g)).2).
Proof.
  intros Hps Hms Ht Hl Hb He Hh Hhe. unfold loop_body, bind, try.
  rewrite (setitem_ok rows n) by (rewrite ?length_fmap; assumption).
  fold (state_counts_of n (states v)).
  rewrite (setitem_ok rows 2) by (try apply state_counts_of_length; assumption).
  rewrite (setitem_ok rows n) by (try apply emissions_of_length; assumption).
  reflexivity.
Qed.

Lemma loop_run (n rows : nat) (p r : Q) (ps ms : list Q) :
  length ps = n -> length ms = n ->
  forall (k a : nat) (v : loop_vars) (g : G),
    (a + k <= rows)%nat ->
    length (states v) = n -> Forall binary (states v) ->
    shape rows n (emission_rates_each v) -> shape rows 2 (state_history v) ->
    shape rows n (state_history_each v) ->
    exists v',
      foldM (loop_body n p r ps ms) (seq a k) v g
        = (inr v', (trajectory n p r (states v) g k).2)
      /\ states v' = (trajectory n p r (states v) g k).1
      /\ recorded (emission_rates_each v) (emission_rates_each v') a k
           (fun i => emissions_of (trajectory n p r (states v) g i).1 ps ms)
      /\ recorded (state_history v) (state_history v') a k
           (fun i => state_counts_of n (trajectory n p r (states v) g i).1)
      /\ recorded (state_history_each v) (state_history_each v') a k
           (fun i => float_of_nat <$> (trajectory n p r (states v) g i).1).
Proof.
  intros Hps Hms. induction k as [|k IH]; intros a v g Hak Hl Hb He Hh Hhe.
  - exists v. cbn. repeat split; apply recorded_nil.
  - cbn [seq foldM]. unfold bind at 1.
    rewrite (loop_body_run n rows) by (try lia; assumption).
    set (v1 := {| states := (transition n p r (states v, g)).1 |}).
    set (g1 := (transition n p r (states v, g)).2).
    destruct (IH (S a) v1 g1) as (v' & Hrun & Hst & Hr1 & Hr2 & Hr3).
    + lia.
    + apply next_states_length; [exact Hl|apply doubles_length].
    + apply next_states_binary, Hb.
    + apply shape_insert; [exact He|apply emissions_of_length; assumption].
    + apply shape_insert; [exact Hh|apply state_counts_of_length; assumption].
    + apply shape_insert; [exact Hhe|rewrite length_fmap; assumption].
    + exists v'. rewrite trajectory_S. fold g1. change (transition n p r (states v, g)).1
        with (states v1). split; [exact Hrun|]. split; [exact Hst|].
      destruct He as [He _], Hh as [Hh _], Hhe as [Hhe _].
      repeat split.
      * eapply recorded_step; [lia|reflexivity| |exact Hr1].
        intros i. cbn beta. rewrite trajectory_S. reflexivity.
      * eapply recorded_step; [lia|reflexivity| |exact Hr2].
        intros i. cbn beta. rewrite trajectory_S. reflexivity.
      * eapply recorded_step; [lia|reflexivity| |exact Hr3].
        intros i. cbn beta. rewrite trajectory_S. reflexivity.
Qed.

Lemma loop_run_all (n timesteps : nat) (p r : Q) (ps ms : list Q) (s0 : list nat) (g : G) :
  length ps = n -> length ms = n -> length s0 = n -> Forall binary s0 ->
  foldM (loop_body n p r ps ms) (seq 0 timesteps)
    {| states := s0;
       emission_rates_each := np_zeros timesteps n;
       state_history := np_zeros timesteps 2;
       state_history_each := np_zeros timesteps n |} g
  = (inr (loop_result n p r ps ms s0 g timesteps), generator_at n g timesteps).
Proof.
  intros Hps Hms Hl Hb.
  edestruct (loop_run n timesteps p r ps ms Hps Hms timesteps 0%nat) as
    (v' & Hrun & Hst & Hr1 & Hr2 & Hr3); cycle -1.
  - rewrite Hrun. cbn [states] in *. rewrite trajectory_generator. f_equal. f_equal.
    cbn [emission_rates_each state_history state_history_each] in *.
    apply (recorded_all timesteps n) in Hr1; [|apply shape_zeros].
    apply (recorded_all timesteps 2) in Hr2; [|apply shape_zeros].
    apply (recorded_all timesteps n) in Hr3; [|apply shape_zeros].
    destruct v'; cbn in *; subst. reflexivity.
  - cbn. lia.
  - exact Hl.
  - exact Hb.
  - apply shape_zeros.
  - apply shape_zeros.
  - apply shape_zeros.
Qed.

(** *** Validation and initialisation *)

Lemma validate_ok (DTF S0 : Q) (g : G) :
  0 <= S0 -> S0 <= 1 -> 0 < DTF -> validate DTF S0 g = (inr tt, g).
Proof.
  intros H0 H1 Hd. unfold validate.
  apply Qle_bool_iff in H0 as ->. apply Qle_bool_iff in H1 as ->.
  apply Qltb_true in Hd as ->. reflexivity.
Qed.

Lemma validate_error (DTF S0 : Q) (g : G) :
  ~ (0 <= S0 /\ S0 <= 1) \/ DTF <= 0 ->
  exists e, validate DTF S0 g = (inl e, g) /\ InvalidParameter e.
Proof.
  intros Hbad. unfold validate.
  destruct (Qle_bool 0 S0 && Qle_bool S0 1) eqn:E; cbn [negb].
  - destruct (Qltb 0 DTF) eqn:Ed; cbn [negb].
    + exfalso. apply andb_true_iff in E as [E0 E1].
      apply Qle_bool_iff in E0, E1. apply Qltb_true in Ed.
      destruct Hbad as [Hbad|Hbad]; [tauto|]. apply (Qlt_not_le _ _ Ed Hbad).
    + exists (ValueError (Invalid_DTF DTF)). split; [reflexivity|]. right. eauto.
  - exists (ValueError (Invalid_S0 S0)). split; [reflexivity|]. left. eauto.
Qed.

Lemma validate_cases (DTF S0 : Q) (g : G) :
  (0 <= S0 /\ S0 <= 1 /\ 0 < DTF /\ validate DTF S0 g = (inr tt, g))
  \/ ((~ (0 <= S0 /\ S0 <= 1) \/ DTF <= 0)
      /\ exists e, validate DTF S0 g = (inl e, g) /\ InvalidParameter e).
Proof.
  destruct (Qlt_le_dec 0 DTF) as [Hd|Hd]; [|right; split; [|apply validate_error]; auto].
  destruct (Qlt_le_dec S0 0) as [H0|H0].
  { right. assert (~ (0 <= S0 /\ S0 <= 1)) by (intros [? _]; lra).
    split; [|apply validate_error]; auto. }
  destruct (Qlt_le_dec 1 S0) as [H1|H1].
  { right. assert (~ (0 <= S0 /\ S0 <= 1)) by (intros [_ ?]; lra).
    split; [|apply validate_error]; auto. }
  left. repeat split; try assumption. apply validate_ok; assumption.
Qed.

Lemma initialise_inv (n : nat) (S0 S1 : Q) (prop_rates malf_rates : list Q) (g g0 : G)
    (ps ms : list Q) (s0 : list nat) :
  initialise n S0 S1 prop_rates malf_rates g = (inr (ps, ms, s0), g0) ->
  length ps = n /\ length ms = n /\ length s0 = n /\ Forall binary s0
  /\ Forall (fun x => x ∈ prop_rates) ps /\ Forall (fun x => x ∈ malf_rates) ms.
Proof.
  unfold initialise, bind.
  destruct (np_random_choice prop_rates n g) as [[e|ps'] g1] eqn:E1; [discriminate|].
  destruct (np_random_choice malf_rates n g1) as [[e|ms'] g2] eqn:E2; [discriminate|].
  destruct (np_random_choice_p _ n _ g2) as [[e|s0'] g3] eqn:E3; [discriminate|].
  intros [= -> -> -> ->].
  apply np_random_choice_inv in E1 as [? ?], E2 as [? ?].
  apply np_random_choice_p_inv in E3 as (? & Hin & _).
  repeat split; try assumption.
  eapply Forall_impl; [exact Hin|]. intros x Hx. unfold binary.
  apply list_elem_of_In in Hx. cbn in Hx. intuition.
Qed.

Lemma initialise_error (n : nat) (S0 S1 : Q) (prop_rates malf_rates : list Q) (g g' : G)
    (e : exn) :
  initialise n S0 S1 prop_rates malf_rates g = (inl e, g') -> ~ InvalidParameter e.
Proof.
  unfold initialise, bind.
  destruct (np_random_choice prop_rates n g) as [[e1|ps'] g1] eqn:E1.
  { intros [= <- _]. apply np_random_choice_error in E1 as [(-> & _)|[->| ->]];
      intros [[? [=]]|[? [=]]]. }
  destruct (np_random_choice malf_rates n g1) as [[e2|ms'] g2] eqn:E2.
  { intros [= <- _]. apply np_random_choice_error in E2 as [(-> & _)|[->| ->]];
      intros [[? [=]]|[? [=]]]. }
  destruct (np_random_choice_p _ n _ g2) as [[e3|s0'] g3] eqn:E3; [|discriminate].
  intros [= <- _]. eapply np_random_choice_p_error, E3.
Qed.

Lemma initialise_empty (n : nat) (S0 S1 : Q) (prop_rates malf_rates : list Q) (g : G) :
  n <> 0%nat -> prop_rates = [] \/ malf_rates = [] ->
  exists g', initialise n S0 S1 prop_rates malf_rates g
             = (inl (ValueError a_cannot_be_empty), g').
Proof.
  intros Hn Hempty. unfold initialise, bind.
  destruct prop_rates as [|x prop_rates].
  { rewrite np_random_choice_empty by exact Hn. eauto. }
  destruct Hempty as [?| ->]; [discriminate|].
  destruct (np_random_choice_ok (x :: prop_rates) n g) as [ps ->]; [discriminate|].
  rewrite np_random_choice_empty by exact Hn. eauto.
Qed.

Lemma initialise_ok (n : nat) (S0 S1 : Q) (prop_rates malf_rates : list Q) (g : G) :
  prop_rates <> [] -> malf_rates <> [] ->
  0 <= S0 -> 0 <= S1 -> Qabs (S0 + S1 - 1) <= atol ->
  exists ps ms g2,
    initialise n S0 S1 prop_rates malf_rates g =
      (inr (ps, ms,
            searchsorted_right [S0 / (S0 + S1); (S0 + S1) / (S0 + S1)] <$> (doubles n g2).1),
       (doubles n g2).2).
Proof.
  intros Hp Hm H0 H1 Hsum. unfold initialise, bind.
  destruct (np_random_choice_ok prop_rates n g Hp) as [ps ->].
  destruct (np_random_choice_ok malf_rates n (integers n (Z.of_nat (length prop_rates)) g).2 Hm)
    as [ms ->].
  rewrite np_random_choice_p_states by assumption. eauto.
Qed.

(** *** The whole call, unrolled *)

Lemma simulate_unrolled (PC_count : nat) (DTF S0 : Q) (timesteps : nat)
    (p_gas S1 p r : Q) (prop_rates malf_rates : list Q) (g : G) :
  simulate_emissions_optimized PC_count DTF S0 timesteps p_gas S1 p r prop_rates malf_rates g
  = match validate DTF S0 g with
    | (inl e, g1) => (inl e, g1)
    | (inr _, g1) =>
        match initialise PC_count S0 S1 prop_rates malf_rates g1 with
        | (inl e, g2) => (inl e, g2)
        | (inr (ps, ms, s0), g2) =>
            summarise p_gas
              (loop_result PC_count (np_clip p 0 1) (np_clip r 0 1) ps ms s0 g2 timesteps)
              (generator_at PC_count g2 timesteps)
        end
    end.
Proof.
  unfold simulate_emissions_optimized. unfold bind at 1.
  destruct (validate DTF S0 g) as [[e|[]] g1]; [reflexivity|].
  unfold bind at 1.
  destruct (initialise PC_count S0 S1 prop_rates malf_rates g1) as [[e|[[ps ms] s0]] g2] eqn:E;
    [reflexivity|].
  apply initialise_inv in E as (Hps & Hms & Hl & Hb & _).
  unfold bind. rewrite loop_run_all by assumption. reflexivity.
Qed.

(** *** The summaries *)

Lemma accumulate_length (acc : Q) (l : list Q) : length (accumulate acc l) = length l.
Proof. revert acc; induction l as [|x l IH]; intros acc; cbn; [reflexivity|]. rewrite IH. reflexivity. Qed.

Lemma np_cumsum_length (l : list Q) : length (np_cumsum l) = length l.
Proof. destruct l; cbn; [reflexivity|]. rewrite accumulate_length. reflexivity. Qed.

Lemma summarise_cases (p_gas : Q) (v : loop_vars) (g : G) :
  (emission_rates_each v = []
   /\ summarise p_gas v g = (inl (IndexError index_out_of_bounds), g))
  \/ (emission_rates_each v <> []
      /\ exists out, summarise p_gas v g = (inr out, g) /\ summarised p_gas v out).
Proof.
  unfold summarise, bind, try, last_item.
  destruct (emission_rates_each v) as [|row rows] eqn:E; [left; split; reflexivity|].
  right. split; [discriminate|].
  destruct (last _) as [c|] eqn:El.
  - eexists. split; [reflexivity|]. unfold summarised. cbn. rewrite E.
    repeat split; try reflexivity. exact El.
  - exfalso. rewrite fmap_last in El. apply fmap_None in El.
    apply last_None in El. apply (f_equal length) in El.
    rewrite np_cumsum_length in El. cbn in El. discriminate.
Qed.

Lemma loop_result_rows (n : nat) (p r : Q) (ps ms : list Q) (s0 : list nat) (g : G)
    (timesteps : nat) :
  emission_rates_each (loop_result n p r ps ms s0 g timesteps) = [] <-> timesteps = 0%nat.
Proof.
  cbn. split.
  - intros E. apply (f_equal length) in E. rewrite length_fmap, length_seq in E. exact E.
  - intros ->. reflexivity.
Qed.

(** A call that returns passed the validation and the initialisation, ran
    the loop [timesteps >= 1] times, and returns the recorded arrays with
    their summaries. *)
Lemma simulate_inv (PC_count : nat) (DTF S0 : Q) (timesteps : nat)
    (p_gas S1 p r : Q) (prop_rates malf_rates : list Q) (g g' : G) (out : results) :
  simulate_emissions_optimized PC_count DTF S0 timesteps p_gas S1 p r prop_rates malf_rates g
    = (inr out, g') ->
  0 <= S0 /\ S0 <= 1 /\ 0 < DTF /\ (1 <= timesteps)%nat
  /\ exists ps ms s0 g0,
       initialise PC_count S0 S1 prop_rates malf_rates g = (inr (ps, ms, s0), g0)
       /\ g' = generator_at PC_count g0 timesteps
       /\ summarised p_gas
            (loop_result PC_count (np_clip p 0 1) (np_clip r 0 1) ps ms s0 g0 timesteps) out.
Proof.
  rewrite simulate_unrolled.
  destruct (validate_cases DTF S0 g) as [(H0 & H1 & Hd & ->)|(_ & e & -> & _)];
    [|discriminate].
  destruct (initialise PC_count S0 S1 prop_rates malf_rates g) as [[e|[[ps ms] s0]] g0] eqn:E;
    [discriminate|].
  destruct (summarise_cases p_gas
              (loop_result PC_count (np_clip p 0 1) (np_clip r 0 1) ps ms s0 g0 timesteps)
              (generator_at PC_count g0 timesteps))
    as [(_ & ->)|(Hne & out' & -> & Hsum)]; [discriminate|].
  intros [= <- <-]. repeat split; try assumption.
  - rewrite loop_result_rows in Hne. lia.
  - exists ps, ms, s0, g0. auto.
Qed.

Lemma simulate_ok (PC_count : nat) (DTF S0 : Q) (timesteps : nat)
    (p_gas S1 p r : Q) (prop_rates malf_rates : list Q) (g g0 : G)
    (ps ms : list Q) (s0 : list nat) :
  0 <= S0 -> S0 <= 1 -> 0 < DTF -> (1 <= timesteps)%nat ->
  initialise PC_count S0 S1 prop_rates malf_rates g = (inr (ps, ms, s0), g0) ->
  exists out,
    simulate_emissions_optimized PC_count DTF S0 timesteps p_gas S1 p r prop_rates malf_rates g
      = (inr out, generator_at PC_count g0 timesteps)
    /\ summarised p_gas
         (loop_result PC_count (np_clip p 0 1) (np_clip r 0 1) ps ms s0 g0 timesteps) out.
Proof.
  intros H0 H1 Hd Ht E. rewrite simulate_unrolled, validate_ok, E by assumption.
  destruct (summarise_cases p_gas
              (loop_result PC_count (np_clip p 0 1) (np_clip r 0 1) ps ms s0 g0 timesteps)
              (generator_at PC_count g0 timesteps))
    as [(Hnil & _)|(_ & out & -> & Hsum)]; [|eauto].
  rewrite loop_result_rows in Hnil. lia.
Qed.

Lemma valid_input_S1 (PC_count timesteps : nat) (DTF S0 S1 : Q) (prop_rates malf_rates : list Q) :
  valid_input PC_count timesteps DTF S0 S1 prop_rates malf_rates ->
  0 <= S1 /\ Qabs (S0 + S1 - 1) <= atol.
Proof.
  intros (_ & _ & H0 & H1 & _ & E & _). split; [lra|].
  assert (E' : S0 + S1 - 1 == 0) by lra. rewrite E'. discriminate.
Qed.

(** A call on a valid input returns. *)
Lemma simulate_valid (PC_count : nat) (DTF S0 : Q) (timesteps : nat)
    (p_gas S1 p r : Q) (prop_rates malf_rates : list Q) (g : G) :
  valid_input PC_count timesteps DTF S0 S1 prop_rates malf_rates ->
  exists out ps ms s0 g0,
    initialise PC_count S0 S1 prop_rates malf_rates g = (inr (ps, ms, s0), g0)
    /\ simulate_emissions_optimized PC_count DTF S0 timesteps p_gas S1 p r
         prop_rates malf_rates g = (inr out, generator_at PC_count g0 timesteps)
    /\ summarised p_gas
         (loop_result PC_count (np_clip p 0 1) (np_clip r 0 1) ps ms s0 g0 timesteps) out.
Proof.
  intros Hv. destruct (valid_input_S1 _ _ _ _ _ _ _ Hv) as [HS1 Hsum].
  destruct Hv as (_ & Ht & H0 & H1 & Hd & _ & Hp & Hm).
  destruct (initialise_ok PC_count S0 S1 prop_rates malf_rates g Hp Hm H0 HS1 Hsum)
    as (ps & ms & g2 & E).
  destruct (simulate_ok PC_count DTF S0 timesteps p_gas S1 p r _ _ g _ _ _ _ H0 H1 Hd Ht E)
    as (out & Hrun & Hs).
  exists out. do 4 eexists. eauto.
Qed.

(** *** The recorded rows *)

Lemma loop_result_state_row (n : nat) (p r : Q) (ps ms : list Q) (s0 : list nat) (g : G)
    (timesteps t : nat) :
  (t < timesteps)%nat ->
  state_history_each (loop_result n p r ps ms s0 g timesteps) !! t
    = Some (float_of_nat <$> (trajectory n p r s0 g t).1).
Proof. intros Ht. cbn. rewrite list_lookup_fmap, lookup_seq_lt by exact Ht. reflexivity. Qed.

Lemma loop_result_counts_row (n : nat) (p r : Q) (ps ms : list Q) (s0 : list nat) (g : G)
    (timesteps t : nat) :
  (t < timesteps)%nat ->
  state_history (loop_result n p r ps ms s0 g timesteps) !! t
    = Some (state_counts_of n (trajectory n p r s0 g t).1).
Proof. intros Ht. cbn. rewrite list_lookup_fmap, lookup_seq_lt by exact Ht. reflexivity. Qed.

Lemma loop_result_emission_row (n : nat) (p r : Q) (ps ms : list Q) (s0 : list nat) (g : G)
    (timesteps t : nat) :
  (t < timesteps)%nat ->
  emission_rates_each (loop_result n p r ps ms s0 g timesteps) !! t
    = Some (emissions_of (trajectory n p r s0 g t).1 ps ms).
Proof. intros Ht. cbn. rewrite list_lookup_fmap, lookup_seq_lt by exact Ht. reflexivity. Qed.

Lemma trajectory_next (n : nat) (p r : Q) (s0 : list nat) (g : G) (t : nat) :
  (trajectory n p r s0 g (S t)).1
  = next_states p r (trajectory n p r s0 g t).1 (rand_vals_at n g t).
Proof.
  unfold rand_vals_at. rewrite <- (trajectory_generator n p r s0 g t).
  unfold trajectory. rewrite Nat.iter_succ. reflexivity.
Qed.

Lemma next_state_rule (p r : Q) (s : nat) (u : Q) :
  binary s ->
  (s = 0%nat -> (next_state p r s u = 1%nat <-> u < p))
  /\ (s = 1%nat -> (next_state p r s u = 0%nat <-> u < r))
  /\ (~ (s = 0%nat /\ u < p) -> ~ (s = 1%nat /\ u < r) -> next_state p r s u = s).
Proof.
  intros Hs. unfold next_state.
  destruct (Qltb u p) eqn:Ep; [apply Qltb_true in Ep|apply Qltb_false in Ep];
    (destruct (Qltb u r) eqn:Er; [apply Qltb_true in Er|apply Qltb_false in Er]);
    destruct Hs as [-> | ->]; cbn; repeat split; intros; try tauto; try lia; try lra;
    exfalso; intuition (try lia; try lra).
Qed.

(** A draw in [[0, 1)] is below the clamped probability exactly when it is
    below the probability itself. *)
Lemma below_clipped (u x : Q) : 0 <= u -> u < 1 -> (u < np_clip x 0 1 <-> u < x).
Proof.
  intros Hu0 Hu1. unfold np_clip, np_maximum, np_minimum.
  destruct (Qltb 0 x) eqn:E0; [apply Qltb_true in E0|apply Qltb_false in E0].
  - destruct (Qltb x 1) eqn:E1; [reflexivity|]. apply Qltb_false in E1. split; lra.
  - change (Qltb 0 1) with true. cbn iota. split; lra.
Qed.

(** C1. From one recorded step to the next every unit follows the two-state
    Markov rule on its own state before the step and on its own draw of the
    step's batch of [PC_count] uniform draws in [[0, 1)]: from state 0 it
    goes to 1 exactly when the draw is below [p], from state 1 to 0 exactly
    when the draw is below [r], and it keeps its state otherwise. The
    batches are drawn one after the other from the generator the
    initialisation left, [timesteps] of them in all. *)
Theorem markov_transition_rule (PC_count : nat) (DTF S0 : Q) (timesteps : nat)
    (p_gas S1 p r : Q) (prop_rates malf_rates : list Q) (g g' : G) (out : results) :
  simulate_emissions_optimized PC_count DTF S0 timesteps p_gas S1 p r prop_rates malf_rates g
    = (inr out, g') ->
  exists ps ms s0 g0,
    initialise PC_count S0 S1 prop_rates malf_rates g = (inr (ps, ms, s0), g0)
    /\ g' = generator_at PC_count g0 timesteps
    /\ forall t i, (S t < timesteps)%nat -> (i < PC_count)%nat ->
         exists s u s',
           entry (res_state_history_each out) t i = Some (float_of_nat s)
           /\ entry (res_state_history_each out) (S t) i = Some (float_of_nat s')
           /\ rand_vals_at PC_count g0 t !! i = Some u
           /\ 0 <= u /\ u < 1 /\ binary s
           /\ s' = next_state (np_clip p 0 1) (np_clip r 0 1) s u
           /\ (s = 0%nat -> (s' = 1%nat <-> u < p))
           /\ (s = 1%nat -> (s' = 0%nat <-> u < r))
           /\ (~ (s = 0%nat /\ u < p) -> ~ (s = 1%nat /\ u < r) -> s' = s).
Proof.
  intros Hrun.
  apply simulate_inv in Hrun as (_ & _ & _ & _ & ps & ms & s0 & g0 & Hinit & -> & Hsum).
  exists ps, ms, s0, g0. split; [exact Hinit|]. split; [reflexivity|].
  intros t i Ht Hi.
  apply initialise_inv in Hinit as (_ & _ & Hl & Hb & _).
  destruct Hsum as (_ & _ & Hhe & _).
  set (p' := np_clip p 0 1) in *. set (r' := np_clip r 0 1) in *.
  destruct (trajectory_states PC_count p' r' s0 g0 t Hl Hb) as [Hlt Hbt].
  destruct (lookup_lt_is_Some_2 (trajectory PC_count p' r' s0 g0 t).1 i) as [s Hs]; [lia|].
  destruct (lookup_lt_is_Some_2 (rand_vals_at PC_count g0 t) i) as [u Hu].
  { unfold rand_vals_at. rewrite doubles_length. exact Hi. }
  assert (Hbs : binary s) by (eapply Forall_lookup_1; eassumption).
  assert (Hur : 0 <= u /\ u < 1).
  { eapply (Forall_lookup_1 (fun u => 0 <= u /\ u < 1)); [apply doubles_range|exact Hu]. }
  exists s, u, (next_state p' r' s u).
  destruct (next_state_rule p' r' s u Hbs) as (R0 & R1 & R2).
  destruct Hur as [Hu0 Hu1].
  pose proof (below_clipped u p Hu0 Hu1) as Cp.
  pose proof (below_clipped u r Hu0 Hu1) as Cr.
  fold p' in Cp. fold r' in Cr.
  split; [|split].
  - unfold entry. rewrite Hhe, loop_result_state_row by lia.
    rewrite list_lookup_fmap, Hs. reflexivity.
  - unfold entry. rewrite Hhe, loop_result_state_row by lia.
    rewrite list_lookup_fmap, trajectory_next. unfold next_states.
    rewrite lookup_zip_with, Hs, Hu. reflexivity.
  - tauto.
Qed.

(** C2. With at least one unit and valid [S0] and [DTF], an empty rate pool
    makes the call raise the empty-pool error of [np.random.choice]: nothing
    is returned, and when it is the properly-operating pool that is empty
    no random number has been drawn. *)
Theorem empty_rate_pool_fails (PC_count : nat) (DTF S0 : Q) (timesteps : nat)
    (p_gas S1 p r : Q) (prop_rates malf_rates : list Q) (g : G) :
  (1 <= PC_count)%nat -> 0 <= S0 -> S0 <= 1 -> 0 < DTF ->
  prop_rates = [] \/ malf_rates = [] ->
  exists e g',
    simulate_emissions_optimized PC_count DTF S0 timesteps p_gas S1 p r
      prop_rates malf_rates g = (inl e, g')
    /\ EmptyRatePool e
    /\ (prop_rates = [] -> g' = g).
Proof.
  intros Hn H0 H1 Hd Hempty.
  rewrite simulate_unrolled, validate_ok by assumption.
  unfold initialise, bind. destruct prop_rates as [|x prop_rates].
  - rewrite np_random_choice_empty by lia.
    exists (ValueError a_cannot_be_empty), g. repeat split.
  - destruct Hempty as [?| ->]; [discriminate|].
    destruct (np_random_choice_ok (x :: prop_rates) PC_count g) as [ps ->]; [discriminate|].
    rewrite np_random_choice_empty by lia.
    eexists _, _. split; [reflexivity|]. split; [reflexivity|discriminate].
Qed.

Lemma simulate_invalid (PC_count : nat) (DTF S0 : Q) (timesteps : nat)
    (p_gas S1 p r : Q) (prop_rates malf_rates : list Q) (g : G) :
  ~ (0 <= S0 /\ S0 <= 1) \/ DTF <= 0 ->
  exists e,
    simulate_emissions_optimized PC_count DTF S0 timesteps p_gas S1 p r
      prop_rates malf_rates g = (inl e, g)
    /\ InvalidParameter e.
Proof.
  intros Hbad. destruct (validate_error DTF S0 g Hbad) as (e & Hv & He).
  exists e. rewrite simulate_unrolled, Hv. auto.
Qed.

Lemma simulate_raises (PC_count : nat) (DTF S0 : Q) (timesteps : nat)
    (p_gas S1 p r : Q) (prop_rates malf_rates : list Q) (g g' : G) (e : exn) :
  simulate_emissions_optimized PC_count DTF S0 timesteps p_gas S1 p r prop_rates malf_rates g
    = (inl e, g') ->
  ((~ (0 <= S0 /\ S0 <= 1) \/ DTF <= 0) /\ InvalidParameter e /\ g' = g)
  \/ (0 <= S0 /\ S0 <= 1 /\ 0 < DTF /\ ~ InvalidParameter e
      /\ (initialise PC_count S0 S1 prop_rates malf_rates g = (inl e, g')
          \/ (timesteps = 0%nat /\ e = IndexError index_out_of_bounds
              /\ exists x, initialise PC_count S0 S1 prop_rates malf_rates g = (inr x, g')))).
Proof.
  rewrite simulate_unrolled.
  destruct (validate_cases DTF S0 g) as [(H0 & H1 & Hd & ->)|(Hbad & e' & -> & He)].
  - destruct (initialise PC_count S0 S1 prop_rates malf_rates g) as [[e'|[[ps ms] s0]] g0] eqn:E.
    + intros [= <- <-]. right. repeat split; try assumption; [|auto].
      eapply initialise_error, E.
    + destruct (summarise_cases p_gas
                  (loop_result PC_count (np_clip p 0 1) (np_clip r 0 1) ps ms s0 g0 timesteps)
                  (generator_at PC_count g0 timesteps))
        as [(Hnil & ->)|(_ & out' & -> & _)]; [|discriminate].
      apply loop_result_rows in Hnil. subst timesteps.
      intros [= <- <-]. right. repeat split; try assumption.
      * intros [[? [=]]|[? [=]]].
      * right. repeat split. eauto.
  - intros [= <- <-]. left. auto.
Qed.

(** C3. The call raises one of the two validation errors exactly when [S0]
    is outside [[0, 1]] or [DTF <= 0]; it then returns nothing and leaves
    the generator untouched. With the other inputs valid these are the only
    failures. [S0 = 1.5], [S0 = -0.1] and [DTF = 0] are such inputs. *)
Theorem invalid_parameter_iff (PC_count : nat) (DTF S0 : Q) (timesteps : nat)
    (p_gas S1 p r : Q) (prop_rates malf_rates : list Q) (g : G) :
  let run DTF S0 :=
    simulate_emissions_optimized PC_count DTF S0 timesteps p_gas S1 p r
      prop_rates malf_rates g in
  ((exists e g', run DTF S0 = (inl e, g') /\ InvalidParameter e)
     <-> (~ (0 <= S0 /\ S0 <= 1) \/ DTF <= 0))
  /\ (forall e g', run DTF S0 = (inl e, g') -> InvalidParameter e -> g' = g)
  /\ ((1 <= PC_count)%nat -> (1 <= timesteps)%nat -> S1 == 1 - S0 ->
      prop_rates <> [] -> malf_rates <> [] ->
      ((exists e g', run DTF S0 = (inl e, g')) <-> (~ (0 <= S0 /\ S0 <= 1) \/ DTF <= 0)))
  /\ (exists e, run DTF (3 # 2) = (inl e, g) /\ InvalidParameter e)
  /\ (exists e, run DTF (- (1 # 10)) = (inl e, g) /\ InvalidParameter e)
  /\ (exists e, run 0 S0 = (inl e, g) /\ InvalidParameter e).
Proof.
  intros run. subst run. cbn beta. split; [|split; [|split; [|split; [|split]]]].
  - split.
    + intros (e & g' & Hrun & He).
      apply simulate_raises in Hrun as [(Hbad & _)|(_ & _ & _ & Hne & _)]; tauto.
    + intros Hbad. destruct (simulate_invalid PC_count DTF S0 timesteps p_gas S1 p r
                               prop_rates malf_rates g Hbad) as (e & Hrun & He).
      eauto.
  - intros e g' Hrun He.
    apply simulate_raises in Hrun as [(_ & _ & ->)|(_ & _ & _ & Hne & _)]; tauto.
  - intros Hn Ht HS1 Hp Hm. split.
    + intros (e & g' & Hrun).
      destruct (validate_cases DTF S0 g) as [(H0 & H1 & Hd & _)|(Hbad & _)]; [|exact Hbad].
      destruct (simulate_valid PC_count DTF S0 timesteps p_gas S1 p r prop_rates malf_rates g)
        as (out & ? & ? & ? & ? & _ & Hok & _); [repeat split; assumption|].
      congruence.
    + intros Hbad. destruct (simulate_invalid PC_count DTF S0 timesteps p_gas S1 p r
                               prop_rates malf_rates g Hbad) as (e & Hrun & He).
      eauto.
  - apply simulate_invalid. left. intros [_ Hle]. revert Hle. apply Qlt_not_le. reflexivity.
  - apply simulate_invalid. left. intros [Hle _]. revert Hle. apply Qlt_not_le. reflexivity.
  - apply simulate_invalid. right. apply Qle_refl.
Qed.

(** *** Clamping *)

Lemma np_clip_idempotent (x : Q) : np_clip (np_clip x 0 1) 0 1 = np_clip x 0 1.
Proof.
  unfold np_clip, np_maximum, np_minimum.
  destruct (Qltb 0 x) eqn:E0; [|reflexivity].
  destruct (Qltb x 1) eqn:E1; [|reflexivity].
  rewrite E0, E1. reflexivity.
Qed.

Lemma np_clip_range (x : Q) : 0 <= np_clip x 0 1 /\ np_clip x 0 1 <= 1.
Proof.
  unfold np_clip, np_maximum, np_minimum. destruct (Qltb 0 x) eqn:E0.
  - apply Qltb_true in E0. destruct (Qltb x 1) eqn:E1.
    + apply Qltb_true in E1. lra.
    + lra.
  - change (Qltb 0 1) with true. cbn iota. lra.
Qed.

(** C4. The call uses [p] and [r] only through their clamped values: it
    returns the same result, from the same generator, for [(p, r)] and for
    the clamped pair, and so for [p = 1.5] and [p = 1.0]; the clamped values
    lie in [[0, 1]]; and an exception raised for one pair [(p, r)] is raised
    for every other pair, so no value of [p] or [r] causes one. *)
Theorem clamping_equivalence (PC_count : nat) (DTF S0 : Q) (timesteps : nat)
    (p_gas S1 p r : Q) (prop_rates malf_rates : list Q) (g : G) :
  let run p r :=
    simulate_emissions_optimized PC_count DTF S0 timesteps p_gas S1 p r
      prop_rates malf_rates g in
  run p r = run (np_clip p 0 1) (np_clip r 0 1)
  /\ run (3 # 2) r = run 1 r
  /\ (0 <= np_clip p 0 1 /\ np_clip p 0 1 <= 1 /\ 0 <= np_clip r 0 1 /\ np_clip r 0 1 <= 1)
  /\ (forall p2 r2 e g', run p r = (inl e, g') -> run p2 r2 = (inl e, g')).
Proof.
  intros run. subst run. cbn beta. split; [|split; [|split]].
  - rewrite !simulate_unrolled, !np_clip_idempotent. reflexivity.
  - rewrite !simulate_unrolled. reflexivity.
  - pose proof (np_clip_range p). pose proof (np_clip_range r). tauto.
  - intros p2 r2 e g' Hrun.
    pose proof (simulate_raises _ _ _ _ _ _ _ _ _ _ _ _ _ Hrun) as Hcases.
    rewrite simulate_unrolled.
    destruct Hcases as [(Hbad & _ & ->)|(H0 & H1 & Hd & _ & [Hinit|(-> & -> & x & Hinit)])].
    + rewrite simulate_unrolled in Hrun.
      destruct (validate_error DTF S0 g Hbad) as (e' & Hv & _).
      rewrite Hv in *. exact Hrun.
    + rewrite validate_ok, Hinit by assumption. reflexivity.
    + destruct x as [[ps ms] s0]. rewrite validate_ok, Hinit by assumption.
      reflexivity.
Qed.

(** *** Shapes *)

Lemma shape_rows (rows cols : nat) (f : nat -> list Q) :
  (forall t, (t < rows)%nat -> length (f t) = cols) -> shape rows cols (f <$> seq 0 rows).
Proof.
  intros Hf. split; [rewrite length_fmap, length_seq; reflexivity|].
  apply Forall_fmap, Forall_forall. intros t Ht.
  apply elem_of_seq in Ht. apply Hf. lia.
Qed.

Lemma loop_result_shapes (n : nat) (p r : Q) (ps ms : list Q) (s0 : list nat) (g : G)
    (timesteps : nat) :
  length ps = n -> length ms = n -> length s0 = n -> Forall binary s0 ->
  shape timesteps n (emission_rates_each (loop_result n p r ps ms s0 g timesteps))
  /\ shape timesteps 2 (state_history (loop_result n p r ps ms s0 g timesteps))
  /\ shape timesteps n (state_history_each (loop_result n p r ps ms s0 g timesteps)).
Proof.
  intros Hps Hms Hl Hb. unfold loop_result.
  cbn [emission_rates_each state_history state_history_each].
  split; [|split]; apply shape_rows; intros t _;
    destruct (trajectory_states n p r s0 g t Hl Hb) as [Hlt Hbt].
  - apply emissions_of_length; assumption.
  - apply state_counts_of_length; assumption.
  - rewrite length_fmap. exact Hlt.
Qed.

(** C6. On a valid input the call returns, every per-step array it returns
    has [timesteps] entries, the two per-unit matrices have [timesteps] rows
    of [PC_count] entries, and the fractions have [timesteps] rows of two. *)
Theorem output_shapes (PC_count : nat) (DTF S0 : Q) (timesteps : nat)
    (p_gas S1 p r : Q) (prop_rates malf_rates : list Q) (g : G) :
  valid_input PC_count timesteps DTF S0 S1 prop_rates malf_rates ->
  exists out g',
    simulate_emissions_optimized PC_count DTF S0 timesteps p_gas S1 p r
      prop_rates malf_rates g = (inr out, g')
    /\ shape timesteps PC_count (res_emission_rates_each out)
    /\ shape timesteps PC_count (res_state_history_each out)
    /\ shape timesteps 2 (res_state_history out)
    /\ length (res_avg_emission_rate out) = timesteps
    /\ length (res_sum_emission_rate out) = timesteps
    /\ length (res_cumulative_emission out) = timesteps.
Proof.
  intros Hv.
  destruct (simulate_valid PC_count DTF S0 timesteps p_gas S1 p r prop_rates malf_rates g Hv)
    as (out & ps & ms & s0 & g0 & Hinit & Hrun & Hsum).
  exists out, (generator_at PC_count g0 timesteps). split; [exact Hrun|].
  apply initialise_inv in Hinit as (Hps & Hms & Hl & Hb & _).
  destruct (loop_result_shapes PC_count (np_clip p 0 1) (np_clip r 0 1) ps ms s0 g0 timesteps
              Hps Hms Hl Hb) as (Se & Sh & She).
  destruct Hsum as (-> & -> & -> & -> & _ & Es & -> & _).
  rewrite !length_fmap, np_cumsum_length, Es, !length_fmap.
  pose proof Se as [Le _]. rewrite Le. auto 10.
Qed.

(** *** Fractions *)

Lemma binary_count (s : list nat) :
  Forall binary s ->
  (length (filter (fun y => y = 0%nat) s) + length (filter (fun y => y = 1%nat) s))%nat
  = length s.
Proof.
  induction 1 as [|x s [-> | ->] _ IH]; [reflexivity| |].
  - rewrite filter_cons_True, filter_cons_False by lia. cbn. lia.
  - rewrite filter_cons_False, filter_cons_True by lia. cbn. lia.
Qed.

Lemma fractions_sum (c0 c1 n : nat) :
  (c0 + c1)%nat = n -> (1 <= n)%nat ->
  float_of_nat c0 / float_of_nat n + float_of_nat c1 / float_of_nat n == 1.
Proof.
  intros Hc Hn. unfold float_of_nat.
  assert (Hne : ~ inject_Z (Z.of_nat n) == 0).
  { change 0 with (inject_Z 0). rewrite inject_Z_injective. lia. }
  assert (E : inject_Z (Z.of_nat c0) + inject_Z (Z.of_nat c1) == inject_Z (Z.of_nat n)).
  { rewrite <- inject_Z_plus, <- Nat2Z.inj_add, Hc. reflexivity. }
  assert (E' : inject_Z (Z.of_nat c0) / inject_Z (Z.of_nat n)
               + inject_Z (Z.of_nat c1) / inject_Z (Z.of_nat n)
               == (inject_Z (Z.of_nat c0) + inject_Z (Z.of_nat c1)) / inject_Z (Z.of_nat n))
    by (field; exact Hne).
  rewrite E', E. field. exact Hne.
Qed.

(** C7. On a valid input, at every step the recorded row of fractions holds
    the number of units in state 0 and the number in state 1, each over
    [PC_count], and the two add up to one. *)
Theorem state_fractions_partition (PC_count : nat) (DTF S0 : Q) (timesteps : nat)
    (p_gas S1 p r : Q) (prop_rates malf_rates : list Q) (g : G) :
  valid_input PC_count timesteps DTF S0 S1 prop_rates malf_rates ->
  exists out g',
    simulate_emissions_optimized PC_count DTF S0 timesteps p_gas S1 p r
      prop_rates malf_rates g = (inr out, g')
    /\ forall t, (t < timesteps)%nat ->
         exists a b states_t,
           res_state_history out !! t = Some [a; b]
           /\ a + b == 1
           /\ res_state_history_each out !! t = Some (float_of_nat <$> states_t)
           /\ length states_t = PC_count
           /\ a = float_of_nat (length (filter (fun s => s = 0%nat) states_t))
                  / float_of_nat PC_count
           /\ b = float_of_nat (length (filter (fun s => s = 1%nat) states_t))
                  / float_of_nat PC_count.
Proof.
  intros Hv.
  destruct (simulate_valid PC_count DTF S0 timesteps p_gas S1 p r prop_rates malf_rates g Hv)
    as (out & ps & ms & s0 & g0 & Hinit & Hrun & Hsum).
  exists out, (generator_at PC_count g0 timesteps). split; [exact Hrun|].
  intros t Ht.
  apply initialise_inv in Hinit as (_ & _ & Hl & Hb & _).
  destruct (trajectory_states PC_count (np_clip p 0 1) (np_clip r 0 1) s0 g0 t Hl Hb)
    as [Hlt Hbt].
  destruct Hsum as (_ & -> & -> & _).
  rewrite loop_result_counts_row, loop_result_state_row by exact Ht.
  unfold state_counts_of. rewrite np_bincount_binary by exact Hbt.
  eexists _, _, _. split; [reflexivity|]. split; [|auto].
  apply fractions_sum; [|destruct Hv; assumption].
  rewrite binary_count by exact Hbt. exact Hlt.
Qed.

(** *** The simulator on binary64 numbers *)

(** The recursion of the pairwise sum halves its argument, so the length of
    the array is fuel enough: more fuel gives the same sum. *)
Lemma pairwise_sum_fuel (fuel fuel' : nat) (a : list float) :
  (length a <= fuel)%nat -> (length a <= fuel')%nat ->
  pairwise_sum fuel a = pairwise_sum fuel' a.
Proof.
  revert fuel' a. induction fuel as [|fuel IH]; intros fuel' a Hf Hf'.
  - destruct a; [|cbn in Hf; lia]. destruct fuel'; reflexivity.
  - destruct fuel' as [|fuel'].
    { destruct a; [reflexivity|cbn in Hf'; lia]. }
    cbn [pairwise_sum].
    destruct (Nat.ltb_spec (length a) 8) as [?|H8]; [reflexivity|].
    destruct (Nat.leb_spec (length a) 128) as [?|H128]; [reflexivity|].
    pose proof (Nat.div_mod_eq (length a) 2) as Hd.
    pose proof (Nat.mod_upper_bound (length a) 2 ltac:(lia)) as Hm.
    pose proof (Nat.mod_upper_bound (length a / 2) 8 ltac:(lia)) as Hm8.
    rewrite (IH fuel' (take _ a)), (IH fuel' (drop _ a));
      rewrite ?length_take, ?length_drop; try lia.
    reflexivity.
Qed.

(** A property kept by every pass of a loop that returns holds when the
    loop returns. *)
Lemma foldM_invariant {St} (body : nat -> St -> M St) (I : nat -> St -> Prop) :
  (forall t s g s' g', I t s -> body t s g = (inr s', g') -> I (S t) s') ->
  forall k a s g s' g',
    I a s -> foldM body (seq a k) s g = (inr s', g') -> I (a + k)%nat s'.
Proof.
  intros Hstep. induction k as [|k IH]; intros a s g s' g' Ha; cbn [seq foldM].
  - intros [= <- _]. rewrite Nat.add_0_r. exact Ha.
  - unfold bind at 1. destruct (body a s g) as [[e|s1] g1] eqn:E; [discriminate|].
    intros Hrun. rewrite Nat.add_succ_r. apply (IH (S a) s1 g1 s' g'); [|exact Hrun].
    eapply Hstep; [exact Ha|exact E].
Qed.

(** A loop whose every pass returns and keeps a property returns. *)
Lemma foldM_returns {St} (body : nat -> St -> M St) (I : nat -> St -> Prop) (b : nat) :
  (forall t s g, (t < b)%nat -> I t s ->
     exists s' g', body t s g = (inr s', g') /\ I (S t) s') ->
  forall k a s g,
    (a + k <= b)%nat -> I a s ->
    exists s' g', foldM body (seq a k) s g = (inr s', g') /\ I (a + k)%nat s'.
Proof.
  intros Hstep. induction k as [|k IH]; intros a s g Hb Ha; cbn [seq foldM].
  - exists s, g. rewrite Nat.add_0_r. auto.
  - unfold bind at 1. destruct (Hstep a s g) as (s1 & g1 & -> & H1); [lia|exact Ha|].
    rewrite Nat.add_succ_r. apply (IH (S a)); [lia|exact H1].
Qed.

Lemma shape64_zeros (rows cols : nat) : shape64 rows cols (np_zeros64 rows cols).
Proof.
  split; [apply length_replicate|].
  apply Forall_replicate, length_replicate.
Qed.

Lemma setitem64_ok (rows cols t : nat) (arr : list (list float)) (v : list float) :
  shape64 rows cols arr -> (t < rows)%nat -> length v = cols ->
  setitem64 arr t v = inr (<[t := v]> arr).
Proof.
  intros [Hl Hr] Ht Hv. unfold setitem64.
  destruct (lookup_lt_is_Some_2 arr t) as [row Hrow]; [lia|]. rewrite Hrow.
  rewrite Forall_lookup in Hr. rewrite (Hr _ _ Hrow), Hv, Nat.eqb_refl. reflexivity.
Qed.

Lemma shape64_insert (rows cols t : nat) (arr : list (list float)) (v : list float) :
  shape64 rows cols arr -> length v = cols -> shape64 rows cols (<[t := v]> arr).
Proof.
  intros [Hl Hr] Hv. split; [rewrite length_insert; exact Hl|].
  apply Forall_insert; assumption.
Qed.

(** A row assignment that does not raise writes a row of the length of the
    one it replaces, made of entries of the assigned values. *)
Lemma setitem64_inv (arr arr' : list (list float)) (t : nat) (v : list float) :
  setitem64 arr t v = inr arr' ->
  exists row v',
    arr !! t = Some row /\ arr' = <[t := v']> arr /\ length v' = length row
    /\ Forall (fun y => y ∈ v) v'.
Proof.
  unfold setitem64. destruct (arr !! t) as [row|] eqn:E; [|discriminate].
  destruct (Nat.eqb_spec (length v) (length row)) as [Hl|_].
  - intros [= <-]. exists row, v. repeat split; try assumption.
    apply Forall_forall. auto.
  - destruct v as [|x [|? ?]]; try discriminate. intros [= <-].
    exists row, (replicate (length row) x). repeat split.
    + apply length_replicate.
    + apply Forall_replicate. apply list_elem_of_singleton. reflexivity.
Qed.

Lemma shape64_setitem (rows cols t : nat) (arr arr' : list (list float)) (v : list float) :
  shape64 rows cols arr -> setitem64 arr t v = inr arr' -> shape64 rows cols arr'.
Proof.
  intros Hs E. apply setitem64_inv in E as (row & v' & Hrow & -> & Hl & _).
  apply shape64_insert; [exact Hs|]. destruct Hs as [_ Hr].
  rewrite Forall_lookup in Hr. rewrite Hl. apply (Hr _ _ Hrow).
Qed.

Lemma emissions_of64_in (s : list nat) (ps ms : list float) :
  Forall (fun y => y ∈ ps \/ y ∈ ms) (emissions_of64 s ps ms).
Proof.
  apply Forall_lookup. intros i x Hx. unfold emissions_of64 in Hx.
  apply lookup_zip_with_Some in Hx as (st & [pr mr] & -> & _ & Hz).
  apply lookup_zip_with_Some in Hz as (pr' & mr' & [= -> ->] & Hp & Hm).
  unfold emission_of64. cbn. destruct (st =? 0)%nat.
  - left. eapply list_elem_of_lookup_2, Hp.
  - right. eapply list_elem_of_lookup_2, Hm.
Qed.

(** What one pass of the loop does to the matrix of emission rates. *)
Lemma loop_body64_inv (n : nat) (p r : float) (ps ms : list float) (t : nat)
    (v v' : loop_vars64) (g g' : G) :
  loop_body64 n p r ps ms t v g = (inr v', g') ->
  setitem64 (emission_rates_each64 v) t (emissions_of64 (states64 v) ps ms)
    = inr (emission_rates_each64 v').
Proof.
  unfold loop_body64, bind, try, np_random_rand64, draw, ret.
  destruct (setitem64 (state_history_each64 v) _ _) as [e|she]; [discriminate|].
  destruct (setitem64 (state_history64 v) _ _) as [e|sh]; [discriminate|].
  destruct (setitem64 (emission_rates_each64 v) _ _) as [e|ere]; [discriminate|].
  intros [= <- _]. reflexivity.
Qed.

(** The rows of the matrix when the loop returns: as many as it was given,
    each of its width, and each made of sampled rates once the loop has
    passed it. *)
Lemma loop64_inv (n rows : nat) (p r : float) (ps ms : list float) (v v' : loop_vars64)
    (g g' : G) :
  shape64 rows n (emission_rates_each64 v) ->
  foldM (loop_body64 n p r ps ms) (seq 0 rows) v g = (inr v', g') ->
  shape64 rows n (emission_rates_each64 v')
  /\ Forall (Forall (fun y => y ∈ ps \/ y ∈ ms)) (emission_rates_each64 v').
Proof.
  intros Hs Hrun.
  pose (I := fun (t : nat) (w : loop_vars64) =>
          shape64 rows n (emission_rates_each64 w)
          /\ forall j row, (j < t)%nat -> emission_rates_each64 w !! j = Some row ->
               Forall (fun y => y ∈ ps \/ y ∈ ms) row).
  assert (HI : I (0 + rows)%nat v').
  { apply (foldM_invariant (loop_body64 n p r ps ms) I) with (s := v) (g := g) (g' := g');
      [|split; [exact Hs|intros; lia]|exact Hrun].
    intros t s g1 s' g1' [Hs1 Hrows] E. apply loop_body64_inv in E.
    split; [eapply shape64_setitem; eassumption|].
    apply setitem64_inv in E as (row0 & x & Hrow0 & -> & _ & Hx).
    intros j row Hj Hrow. destruct (decide (j = t)) as [->|Hne].
    - rewrite list_lookup_insert_eq in Hrow by (eapply lookup_lt_Some, Hrow0).
      injection Hrow as <-. eapply Forall_impl; [exact Hx|]. intros y Hy.
      pose proof (emissions_of64_in (states64 s) ps ms) as Hin.
      rewrite Forall_forall in Hin. apply Hin, Hy.
    - rewrite list_lookup_insert_ne in Hrow by congruence.
      apply (Hrows j); [lia|exact Hrow]. }
  destruct HI as [Hs' Hrows]. split; [exact Hs'|].
  apply Forall_lookup. intros j row Hrow. apply (Hrows j); [|exact Hrow].
  destruct Hs' as [<- _]. eapply lookup_lt_Some, Hrow.
Qed.

Lemma initialise64_inv (n : nat) (S0 S1 : float) (prop_rates malf_rates : list float)
    (g g0 : G) (ps ms : list float) (s0 : list nat) :
  initialise64 n S0 S1 prop_rates malf_rates g = (inr (ps, ms, s0), g0) ->
  length ps = n /\ length ms = n
  /\ Forall (fun x => x ∈ prop_rates) ps /\ Forall (fun x => x ∈ malf_rates) ms.
Proof.
  unfold initialise64, bind.
  destruct (np_random_choice prop_rates n g) as [[e|ps'] g1] eqn:E1; [discriminate|].
  destruct (np_random_choice malf_rates n g1) as [[e|ms'] g2] eqn:E2; [discriminate|].
  destruct (np_random_choice_p64 _ n _ g2) as [[e|s0'] g3] eqn:E3; [discriminate|].
  intros [= -> -> -> ->].
  apply np_random_choice_inv in E1 as [? ?], E2 as [? ?]. auto.
Qed.

(** A call on doubles that returns: the shape of the matrix it returns,
    where its entries come from, and how the summaries of lines 53 to 58
    are computed from it. *)
Lemma simulate64_inv (PC_count : nat) (DTF S0 : float) (timesteps : nat)
    (p_gas S1 p r : float) (prop_rates malf_rates : list float) (g g' : G)
    (out : results64) :
  simulate_emissions_optimized64 PC_count DTF S0 timesteps p_gas S1 p r
    prop_rates malf_rates g = (inr out, g') ->
  shape64 timesteps PC_count (res_emission_rates_each64 out)
  /\ Forall (Forall (fun y => y ∈ prop_rates \/ y ∈ malf_rates))
       (res_emission_rates_each64 out)
  /\ res_avg_emission_rate64 out = np_mean64 <$> res_emission_rates_each64 out
  /\ res_all_avg_emission_rate64 out = np_mean64 (res_avg_emission_rate64 out)
  /\ res_sum_emission_rate64 out = np_sum64 <$> res_emission_rates_each64 out
  /\ res_cumulative_emission64 out
     = (fun c => (c * (24 * p_gas))%float) <$> np_cumsum64 (res_sum_emission_rate64 out)
  /\ last (res_cumulative_emission64 out) = Some (res_final_cumulative_emission64 out).
Proof.
  unfold simulate_emissions_optimized64. unfold bind at 1.
  destruct (validate64 DTF S0 g) as [[e|[]] g1]; [discriminate|].
  unfold bind at 1.
  destruct (initialise64 PC_count S0 S1 prop_rates malf_rates g1)
    as [[e|[[ps ms] s0]] g2] eqn:Ei; [discriminate|].
  apply initialise64_inv in Ei as (_ & _ & Hps & Hms).
  unfold bind at 1.
  destruct (foldM _ _ _ g2) as [[e|v] g3] eqn:El; [discriminate|].
  apply loop64_inv in El as [Hs Hin]; [|apply shape64_zeros].
  unfold summarise64, bind, try, last_item64, ret.
  destruct (last _) as [c|] eqn:Elast; [|discriminate].
  intros [= <- _]. cbn. repeat split; try assumption; try apply Hs.
  eapply Forall_impl; [exact Hin|]. intros row Hrow.
  eapply Forall_impl; [exact Hrow|]. intros y [Hy|Hy]; [left|right].
  - rewrite Forall_forall in Hps. apply Hps, Hy.
  - rewrite Forall_forall in Hms. apply Hms, Hy.
Qed.

(** *** One unit that never fails, on binary64 numbers *)

Lemma nonneg_not_below_zero (u : float) :
  (0 <=? u)%float = true -> (u <? 0)%float = false.
Proof.
  rewrite FloatAxioms.leb_spec, FloatAxioms.ltb_spec. change (Prim2SF 0) with (S754_zero false).
  destruct (Prim2SF u) as [s|s| |s m e]; try destruct s; cbn; congruence.
Qed.

Lemma doubles64_one (g : G) :
  exists u, (doubles64 1 g).1 = [u] /\ (0 <=? u)%float = true /\ (u <? 1)%float = true.
Proof.
  pose proof (next_double64_range g) as Hu. cbn.
  destruct (next_double64 g) as [u g1]. cbn in *. eauto.
Qed.

Lemma singleton_sample {A} (x : A) (l : list A) :
  length l = 1%nat -> Forall (fun y => y ∈ [x]) l -> l = [x].
Proof.
  destruct l as [|y [|? ?]]; try discriminate. intros _ Hy.
  apply Forall_cons in Hy as [Hy _]. apply list_elem_of_singleton in Hy as ->. reflexivity.
Qed.

(** With [p = [1, 0]] the one unit starts properly operating. *)
Lemma choice_of_certain_state (g : G) :
  np_random_choice_p64 [0%nat; 1%nat] 1 [1%float; 0%float] g
  = (inr [0%nat], (doubles64 1 g).2).
Proof.
  change (np_random_choice_p64 [0%nat; 1%nat] 1 [1%float; 0%float] g) with
    (bind (np_random_rand64 1)
       (fun uniform_samples =>
          try (getitems [0%nat; 1%nat]
                 ((fun u => Z.of_nat (searchsorted_right64 [1%float; 1%float] u))
                    <$> uniform_samples))) g).
  unfold bind, np_random_rand64, draw, try.
  destruct (doubles64_one g) as (u & -> & _ & Hu).
  cbn [fmap list_fmap searchsorted_right64]. rewrite Hu. reflexivity.
Qed.

Lemma initialise64_one (g : G) :
  exists g0,
    initialise64 1 1 0 [10%float] [100%float] g
    = (inr ([10%float], [100%float], [0%nat]), g0).
Proof.
  unfold initialise64, bind.
  destruct (np_random_choice_ok [10%float] 1 g) as [ps Ep]; [discriminate|].
  rewrite Ep. apply np_random_choice_inv in Ep as [Hl Hin].
  apply singleton_sample in Hin as ->; [|exact Hl].
  destruct (np_random_choice_ok [100%float] 1
              (integers 1 (Z.of_nat (length [10%float])) g).2) as [ms Em]; [discriminate|].
  rewrite Em. apply np_random_choice_inv in Em as [Hl' Hin'].
  apply singleton_sample in Hin' as ->; [|exact Hl'].
  rewrite choice_of_certain_state. eexists. reflexivity.
Qed.

(** One pass of the loop over the one unit, properly operating and with
    [p = 0]: it stays so, and the row of the step holds its rate. *)
Lemma loop_body64_one (r : float) (t : nat) (v : loop_vars64) (g : G) :
  (t < 5)%nat -> states64 v = [0%nat] ->
  shape64 5 1 (emission_rates_each64 v) -> shape64 5 2 (state_history64 v) ->
  shape64 5 1 (state_history_each64 v) ->
  exists v' g',
    loop_body64 1 0 r [10%float] [100%float] t v g = (inr v', g')
    /\ states64 v' = [0%nat]
    /\ emission_rates_each64 v' = <[t := [10%float]]> (emission_rates_each64 v)
    /\ shape64 5 2 (state_history64 v') /\ shape64 5 1 (state_history_each64 v').
Proof.
  intros Ht Hst He Hh Hhe. unfold loop_body64, bind, try, np_random_rand64, draw, ret.
  rewrite Hst.
  rewrite (setitem64_ok 5 1) by (try reflexivity; assumption).
  rewrite (setitem64_ok 5 2) by (try reflexivity; assumption).
  change (emissions_of64 [0%nat] [10%float] [100%float]) with [10%float].
  rewrite (setitem64_ok 5 1) by (try reflexivity; assumption).
  destruct (doubles64_one g) as (u & -> & Hu & _).
  eexists _, _. split; [reflexivity|]. cbn [states64 emission_rates_each64 state_history64
    state_history_each64].
  split; [|split; [reflexivity|split; apply shape64_insert; auto]].
  cbn. unfold next_state64. rewrite (nonneg_not_below_zero u Hu). reflexivity.
Qed.

Lemma one_unit_run64 (DTF p_gas r : float) (g : G) :
  (0 <? DTF)%float = true ->
  exists out g',
    simulate_emissions_optimized64 1 DTF 1 5 p_gas 0 0 r [10%float] [100%float] g
      = (inr out, g')
    /\ res_emission_rates_each64 out
       = [[10%float]; [10%float]; [10%float]; [10%float]; [10%float]]
    /\ res_final_cumulative_emission64 out = (50 * (24 * p_gas))%float.
Proof.
  intros Hd. unfold simulate_emissions_optimized64. unfold bind at 1.
  unfold validate64. change ((0 <=? 1)%float && (1 <=? 1)%float) with true.
  rewrite Hd. cbn [negb ret].
  unfold bind at 1. destruct (initialise64_one g) as (g0 & ->).
  change (np_clip64 0 0 1) with 0%float.
  pose (I := fun (t : nat) (v : loop_vars64) =>
          states64 v = [0%nat]
          /\ shape64 5 1 (emission_rates_each64 v) /\ shape64 5 2 (state_history64 v)
          /\ shape64 5 1 (state_history_each64 v)
          /\ forall j, (j < t)%nat -> emission_rates_each64 v !! j = Some [10%float]).
  assert (Hloop : exists v g',
            foldM (loop_body64 1 0 (np_clip64 r 0 1) [10%float] [100%float]) (seq 0 5)
              {| states64 := [0%nat];
                 emission_rates_each64 := np_zeros64 5 1;
                 state_history64 := np_zeros64 5 2;
                 state_history_each64 := np_zeros64 5 1 |} g0 = (inr v, g')
            /\ I (0 + 5)%nat v).
  { apply (foldM_returns _ I 5).
    - intros t s g1 Ht HI. unfold I in HI. destruct HI as (Hst & He & Hh & Hhe & Hrows).
      destruct (loop_body64_one (np_clip64 r 0 1) t s g1 Ht Hst He Hh Hhe)
        as (v' & g1' & -> & Hst' & He' & Hh' & Hhe').
      exists v', g1'. split; [reflexivity|]. unfold I. rewrite He'.
      split; [exact Hst'|]. split; [apply shape64_insert; [exact He|reflexivity]|].
      split; [exact Hh'|]. split; [exact Hhe'|].
      intros j Hj. destruct (decide (j = t)) as [->|Hne].
      + apply list_lookup_insert_eq. destruct He as [-> _]. exact Ht.
      + rewrite list_lookup_insert_ne by congruence. apply Hrows. lia.
    - lia.
    - unfold I. cbn [states64 emission_rates_each64 state_history64 state_history_each64].
      split; [reflexivity|]. do 3 (split; [apply shape64_zeros|]).
      intros j Hj. lia. }
  destruct Hloop as (v & g' & Hrun & Hv). unfold I in Hv.
  unfold bind at 1. rewrite Hrun. destruct Hv as (_ & [Hl _] & _ & _ & Hrows).
  assert (Ev : emission_rates_each64 v
                 = [[10%float]; [10%float]; [10%float]; [10%float]; [10%float]]).
  { apply list_eq. intros j. destruct (decide (j < 5)%nat) as [Hj|Hj].
    - rewrite (Hrows j Hj). do 5 (destruct j as [|j]; [reflexivity|]). lia.
    - rewrite !lookup_ge_None_2; [reflexivity|cbn; lia|lia]. }
  unfold summarise64, bind, try, ret. rewrite Ev.
  eexists _, _. split; [reflexivity|]. split; reflexivity.
Qed.



Lemma accumulate64_length (acc : float) (l : list float) :
  length (accumulate64 acc l) = length l.
Proof.
  revert acc; induction l as [|x l IH]; intros acc; cbn; [reflexivity|].
  rewrite IH. reflexivity.
Qed.

Lemma np_cumsum64_length (l : list float) : length (np_cumsum64 l) = length l.
Proof. destruct l; cbn; [reflexivity|]. rewrite accumulate64_length. reflexivity. Qed.

(** *** Calls on doubles that return *)

Lemma sub_zero (x : float) : (x - 0)%float = x.
Proof.
  apply Prim2SF_inj. rewrite sub_spec. change (Prim2SF 0) with (S754_zero false).
  destruct (Prim2SF x) as [[]|[]| |s m e]; reflexivity.
Qed.

(** A finite double that is not zero, divided by itself, is 1. *)
Lemma div_self (x : float) (s : bool) (m : positive) (e : Z) :
  Prim2SF x = S754_finite s m e -> (x / x)%float = 1%float.
Proof.
  intros E. apply Prim2SF_inj. rewrite div_spec, E.
  unfold SF64div, SFdiv, SFdiv_core_binary.
  replace (Zdigits2 (Z.pos m) + e - (Zdigits2 (Z.pos m) + e))%Z with 0%Z by lia.
  rewrite Z.sub_diag.
  change (fexp prec emax 0) with (-53)%Z. change (Z.min (-53) 0) with (-53)%Z.
  change (0 - -53)%Z with 53%Z. cbv iota.
  pose proof (Z_div_mod (Z.pos m ≪ 53) (Z.pos m) ltac:(lia)) as Hdm.
  rewrite Z.shiftl_mul_pow2 in * by lia.
  destruct (Z.div_eucl (Z.pos m * 2 ^ 53) (Z.pos m)) as [q r].
  assert (Hq : q = (2 ^ 53)%Z) by nia. assert (Hr : r = 0%Z) by nia. subst q r.
  rewrite xorb_nilpotent. unfold new_location, new_location_even, new_location_odd.
  destruct (Z.even (Z.pos m)); reflexivity.
Qed.

(** A sum that passes the checks of [choice] is finite and not zero. *)
Lemma accepted_sum_finite (x : float) :
  PrimFloat.is_nan x = false -> (atol64 <? PrimFloat.abs (x - 1))%float = false ->
  exists s m e, Prim2SF x = S754_finite s m e.
Proof.
  intros Hn Ha. rewrite <- (SF2Prim_Prim2SF x) in Hn, Ha.
  destruct (Prim2SF x) as [[]|[]| |s m e]; try (vm_compute in Hn, Ha; discriminate).
  eauto.
Qed.

Lemma doubles64_length (n : nat) (g : G) : length (doubles64 n g).1 = n.
Proof.
  revert g; induction n as [|n IH]; intros g; cbn; [reflexivity|].
  destruct (next_double64 g) as [u g1]. specialize (IH g1).
  destruct (doubles64 n g1) as [us g2]. cbn in *. congruence.
Qed.

Lemma doubles64_range (n : nat) (g : G) :
  Forall (fun u => (0 <=? u)%float = true /\ (u <? 1)%float = true) (doubles64 n g).1.
Proof.
  revert g; induction n as [|n IH]; intros g; cbn; [constructor|].
  pose proof (next_double64_range g) as Hu.
  destruct (next_double64 g) as [u g1]. specialize (IH g1).
  destruct (doubles64 n g1) as [us g2]. cbn in *. constructor; assumption.
Qed.

(** With a [p = [S0, S1]] that passes the checks, [choice] returns: the sum
    of the two entries divided by itself is 1, above every draw, so each
    draw finds one of the two states. *)
Lemma np_random_choice_p64_states (n : nat) (S0 S1 : float) (g : G) :
  choice_accepts [S0; S1] = true ->
  exists s0,
    np_random_choice_p64 [0%nat; 1%nat] n [S0; S1] g = (inr s0, (doubles64 n g).2)
    /\ length s0 = n /\ Forall binary s0.
Proof.
  unfold choice_accepts. rewrite !andb_true_iff, !negb_true_iff.
  intros [[Hnan Hneg] Hsum]. unfold np_random_choice_p64.
  cbn [length Nat.eqb andb negb]. rewrite Hnan, Hneg, Hsum.
  assert (Ek : kahan_sum [S0; S1] = (S0 + S1)%float).
  { cbn. rewrite sub_zero. reflexivity. }
  rewrite Ek in Hnan, Hsum.
  destruct (accepted_sum_finite _ Hnan Hsum) as (s & m & e & Efin).
  cbn [np_cumsum64 accumulate64]. unfold bind, try, last_item64. cbn [last].
  cbn [fmap list_fmap]. rewrite (div_self _ _ _ _ Efin).
  unfold np_random_rand64, draw. cbn [fst snd].
  pose proof (doubles64_length n g) as Hl. pose proof (doubles64_range n g) as Hr.
  destruct (doubles64 n g) as [us g1]. cbn [fst snd] in *.
  exists (searchsorted_right64 [(S0 / (S0 + S1))%float; 1%float] <$> us).
  assert (Hidx : Forall (fun k => (k < 2)%nat)
                   (searchsorted_right64 [(S0 / (S0 + S1))%float; 1%float] <$> us)).
  { apply Forall_fmap. eapply Forall_impl; [exact Hr|]. intros u [_ Hu]. cbn.
    destruct (u <? S0 / (S0 + S1))%float; [lia|]. rewrite Hu. lia. }
  split; [|split].
  - change (list_fmap float Z (fun u => Z.of_nat (searchsorted_right64 _ u)) us)
      with ((fun u => Z.of_nat (searchsorted_right64
                                  [(S0 / (S0 + S1))%float; 1%float] u)) <$> us).
    change (fun u => Z.of_nat (searchsorted_right64 [(S0 / (S0 + S1))%float; 1%float] u))
      with (Z.of_nat ∘ searchsorted_right64 [(S0 / (S0 + S1))%float; 1%float]).
    rewrite list_fmap_compose, getitems_states by exact Hidx. reflexivity.
  - rewrite length_fmap. exact Hl.
  - eapply Forall_impl; [exact Hidx|]. intros k Hk. unfold binary. cbn in Hk. lia.
Qed.

Lemma next_states64_length (p r : float) (n : nat) (s : list nat) (rv : list float) :
  length s = n -> length rv = n -> length (next_states64 p r s rv) = n.
Proof. intros Hs Hr. unfold next_states64. rewrite length_zip_with. lia. Qed.

Lemma next_states64_binary (p r : float) (s : list nat) (rv : list float) :
  Forall binary s -> Forall binary (next_states64 p r s rv).
Proof.
  intros Hs. apply Forall_lookup. intros i x Hx. unfold next_states64 in Hx.
  apply lookup_zip_with_Some in Hx as (st & u & -> & Hst & _).
  rewrite Forall_lookup in Hs. specialize (Hs _ _ Hst). unfold next_state64, binary in *.
  destruct (_ && _); [auto|]. destruct (_ && _); auto.
Qed.

Lemma emissions_of64_length (n : nat) (s : list nat) (ps ms : list float) :
  length s = n -> length ps = n -> length ms = n -> length (emissions_of64 s ps ms) = n.
Proof.
  intros Hs Hp Hm. unfold emissions_of64. rewrite length_zip_with, length_zip. lia.
Qed.

(** One pass of the loop on doubles returns, and keeps the shapes of the
    arrays and the number and the kind of the states. *)
Lemma loop_body64_run (n rows : nat) (p r : float) (ps ms : list float) (t : nat)
    (v : loop_vars64) (g : G) :
  length ps = n -> length ms = n -> (t < rows)%nat ->
  length (states64 v) = n -> Forall binary (states64 v) ->
  shape64 rows n (emission_rates_each64 v) -> shape64 rows 2 (state_history64 v) ->
  shape64 rows n (state_history_each64 v) ->
  exists v' g',
    loop_body64 n p r ps ms t v g = (inr v', g')
    /\ length (states64 v') = n /\ Forall binary (states64 v')
    /\ shape64 rows n (emission_rates_each64 v') /\ shape64 rows 2 (state_history64 v')
    /\ shape64 rows n (state_history_each64 v').
Proof.
  intros Hps Hms Ht Hl Hb He Hh Hhe. unfold loop_body64, bind, try, np_random_rand64, draw, ret.
  rewrite (setitem64_ok rows n) by (rewrite ?length_fmap; assumption).
  rewrite (setitem64_ok rows 2)
    by (try assumption; rewrite length_fmap, np_bincount_binary by exact Hb; reflexivity).
  rewrite (setitem64_ok rows n) by (try apply emissions_of64_length; assumption).
  eexists _, _. split; [reflexivity|].
  cbn [states64 emission_rates_each64 state_history64 state_history_each64].
  split; [apply next_states64_length; [exact Hl|apply doubles64_length]|].
  split; [apply next_states64_binary, Hb|].
  split; [apply shape64_insert; [exact He|apply emissions_of64_length; assumption]|].
  split; [apply shape64_insert; [exact Hh|]|apply shape64_insert; [exact Hhe|]].
  - rewrite length_fmap, np_bincount_binary by exact Hb. reflexivity.
  - rewrite length_fmap. exact Hl.
Qed.

Lemma initialise64_ok (n : nat) (S0 S1 : float) (prop_rates malf_rates : list float) (g : G) :
  prop_rates <> [] -> malf_rates <> [] -> choice_accepts [S0; S1] = true ->
  exists ps ms s0 g0,
    initialise64 n S0 S1 prop_rates malf_rates g = (inr (ps, ms, s0), g0)
    /\ length ps = n /\ length ms = n /\ length s0 = n /\ Forall binary s0.
Proof.
  intros Hp Hm Hacc. unfold initialise64, bind.
  destruct (np_random_choice_ok prop_rates n g Hp) as [ps Ep]. rewrite Ep.
  apply np_random_choice_inv in Ep as [Hlp _].
  destruct (np_random_choice_ok malf_rates n (integers n (Z.of_nat (length prop_rates)) g).2 Hm)
    as [ms Em]. rewrite Em. apply np_random_choice_inv in Em as [Hlm _].
  destruct (np_random_choice_p64_states n S0 S1
              (integers n (Z.of_nat (length malf_rates))
                 (integers n (Z.of_nat (length prop_rates)) g).2).2 Hacc)
    as (s0 & -> & Hl & Hb).
  eexists ps, ms, s0, _. auto.
Qed.

(** A call on doubles on an input it accepts returns. *)
Lemma simulate64_valid (PC_count : nat) (DTF S0 : float) (timesteps : nat)
    (p_gas S1 p r : float) (prop_rates malf_rates : list float) (g : G) :
  valid_input64 PC_count timesteps DTF S0 S1 prop_rates malf_rates ->
  exists out g',
    simulate_emissions_optimized64 PC_count DTF S0 timesteps p_gas S1 p r
      prop_rates malf_rates g = (inr out, g').
Proof.
  intros (_ & Ht & H0 & H1 & Hd & Hacc & Hp & Hm).
  unfold simulate_emissions_optimized64. unfold bind at 1.
  unfold validate64. rewrite H0, H1, Hd. cbn [andb negb ret].
  unfold bind at 1.
  destruct (initialise64_ok PC_count S0 S1 prop_rates malf_rates g Hp Hm Hacc)
    as (ps & ms & s0 & g0 & -> & Hlp & Hlm & Hl & Hb).
  pose (I := fun (t : nat) (v : loop_vars64) =>
          length (states64 v) = PC_count /\ Forall binary (states64 v)
          /\ shape64 timesteps PC_count (emission_rates_each64 v)
          /\ shape64 timesteps 2 (state_history64 v)
          /\ shape64 timesteps PC_count (state_history_each64 v)).
  assert (Hloop : exists v g',
            foldM (loop_body64 PC_count (np_clip64 p 0 1) (np_clip64 r 0 1) ps ms)
              (seq 0 timesteps)
              {| states64 := s0;
                 emission_rates_each64 := np_zeros64 timesteps PC_count;
                 state_history64 := np_zeros64 timesteps 2;
                 state_history_each64 := np_zeros64 timesteps PC_count |} g0 = (inr v, g')
            /\ I (0 + timesteps)%nat v).
  { apply (foldM_returns _ I timesteps).
    - intros t s g1 Htt HI. unfold I in HI. destruct HI as (Hl1 & Hb1 & He & Hh & Hhe).
      destruct (loop_body64_run PC_count timesteps (np_clip64 p 0 1) (np_clip64 r 0 1)
                  ps ms t s g1 Hlp Hlm Htt Hl1 Hb1 He Hh Hhe)
        as (v' & g1' & -> & Hv').
      exists v', g1'. split; [reflexivity|exact Hv'].
    - lia.
    - unfold I. cbn [states64 emission_rates_each64 state_history64 state_history_each64].
      split; [exact Hl|]. split; [exact Hb|]. repeat split; apply shape64_zeros. }
  destruct Hloop as (v & g' & Hrun & Hv). unfold I in Hv.
  destruct Hv as (_ & _ & [Hrows _] & _).
  unfold bind at 1. rewrite Hrun.
  unfold summarise64, bind, try, last_item64, ret.
  destruct (last _) as [c|] eqn:El; [eauto|].
  exfalso. rewrite fmap_last in El. apply fmap_None in El.
  apply last_None in El. apply (f_equal length) in El.
  rewrite np_cumsum64_length, length_fmap, Hrows in El. cbn in El. lia.
Qed.

(** *** Doubles that are not negative *)














(** *** Emission rates and their sums *)

Lemma emissions_of_lookup (s : list nat) (ps ms : list Q) (i : nat) (x : Q) :
  emissions_of s ps ms !! i = Some x ->
  exists st pr mr, s !! i = Some st /\ ps !! i = Some pr /\ ms !! i = Some mr
                   /\ x = if (st =? 0)%nat then pr else mr.
Proof.
  unfold emissions_of. intros Hx.
  apply lookup_zip_with_Some in Hx as (st & [pr mr] & -> & Hs & Hz).
  apply lookup_zip_with_Some in Hz as (pr' & mr' & [= -> ->] & Hp & Hm).
  exists st, pr', mr'. auto.
Qed.


Lemma fold_left_Qplus_acc (l : list Q) (acc : Q) :
  fold_left Qplus l acc == acc + np_sum l.
Proof.
  unfold np_sum. revert acc. induction l as [|x l IH]; intros acc; cbn; [ring|].
  rewrite (IH (acc + x)), (IH (0 + x)). ring.
Qed.



(** The running sums: entry [t] is the sum of the first [t + 1] elements. *)
Lemma accumulate_lookup (l : list Q) (acc : Q) (t : nat) (c : Q) :
  accumulate acc l !! t = Some c -> c == acc + np_sum (take (S t) l).
Proof.
  revert acc t. induction l as [|x l IH]; intros acc t; cbn [accumulate]; [discriminate|].
  destruct t as [|t]; cbn [lookup list_lookup].
  - intros [= <-]. unfold np_sum. cbn. destruct l; cbn; ring.
  - intros Hc. apply IH in Hc. rewrite Hc.
    change (take (S (S t)) (x :: l)) with (x :: take (S t) l).
    unfold np_sum at 2. cbn [fold_left]. rewrite fold_left_Qplus_acc. ring.
Qed.

Lemma np_cumsum_lookup (l : list Q) (t : nat) (c : Q) :
  np_cumsum l !! t = Some c -> c == np_sum (take (S t) l).
Proof.
  destruct l as [|x l]; cbn [np_cumsum]; [discriminate|].
  destruct t as [|t]; cbn [lookup list_lookup].
  - intros [= <-]. unfold np_sum. cbn. destruct l; cbn; ring.
  - intros Hc. apply accumulate_lookup in Hc. rewrite Hc.
    change (take (S (S t)) (x :: l)) with (x :: take (S t) l).
    unfold np_sum at 2. cbn [fold_left]. rewrite fold_left_Qplus_acc. ring.
Qed.



(** In exact arithmetic: on a valid input, at every step the returned
    average of the emission rates is the returned sum divided by
    [PC_count], so the sum is [PC_count] times the average, and the returned
    scalar average is the sum of the per-step averages over [timesteps]. *)
Lemma exact_sum_and_average (PC_count : nat) (DTF S0 : Q) (timesteps : nat)
    (p_gas S1 p r : Q) (prop_rates malf_rates : list Q) (g : G) :
  valid_input PC_count timesteps DTF S0 S1 prop_rates malf_rates ->
  exists out g',
    simulate_emissions_optimized PC_count DTF S0 timesteps p_gas S1 p r
      prop_rates malf_rates g = (inr out, g')
    /\ (forall t, (t < timesteps)%nat ->
          exists s a, res_sum_emission_rate out !! t = Some s
                      /\ res_avg_emission_rate out !! t = Some a
                      /\ a = s / inject_Z (Z.of_nat PC_count)
                      /\ s == inject_Z (Z.of_nat PC_count) * a)
    /\ res_all_avg_emission_rate out
       == np_sum (res_avg_emission_rate out) / inject_Z (Z.of_nat timesteps).
Proof.
  intros Hv.
  destruct (simulate_valid PC_count DTF S0 timesteps p_gas S1 p r prop_rates malf_rates g Hv)
    as (out & ps & ms & s0 & g0 & Hinit & Hrun & Hsum).
  exists out, (generator_at PC_count g0 timesteps). split; [exact Hrun|].
  apply initialise_inv in Hinit as (Hps & Hms & Hl & Hb & _).
  destruct Hsum as (_ & _ & _ & Ha & Hall & Hs & _).
  split.
  - intros t Ht. rewrite Hs, Ha, !list_lookup_fmap, loop_result_emission_row by exact Ht.
    cbn. eexists _, _. split; [reflexivity|]. split; [reflexivity|].
    destruct (trajectory_states PC_count (np_clip p 0 1) (np_clip r 0 1) s0 g0 t Hl Hb)
      as [Hlt _].
    unfold np_mean. rewrite (emissions_of_length PC_count) by assumption.
    split; [reflexivity|].
    field. change 0 with (inject_Z 0). rewrite inject_Z_injective.
    destruct Hv as [Hn _]. lia.
  - destruct (loop_result_shapes PC_count (np_clip p 0 1) (np_clip r 0 1) ps ms s0 g0
                timesteps Hps Hms Hl Hb) as ([Le _] & _).
    rewrite Hall. unfold np_mean at 1. rewrite Ha, length_fmap, Le. reflexivity.
Qed.

(** C10. On doubles: on an input the call accepts it returns, the
    two series have [timesteps] entries, the average at a step is the
    double quotient of the sum at that step by [PC_count], and the scalar
    average is [np.mean] of the series of averages. In exact arithmetic: on
    a valid
    input the call returns, the sum at a step is [PC_count] times the
    average at that step, and the scalar average is the sum of the averages
    over [timesteps]. (On doubles [PC_count] times the rounded quotient need
    not give the sum back, as the evaluation at six units of rate 0.3
    shows.) *)
Theorem sum_is_count_times_average (PC_count timesteps : nat) :
  (forall (DTF S0 p_gas S1 p r : float) (prop_rates malf_rates : list float) (g : G),
     valid_input64 PC_count timesteps DTF S0 S1 prop_rates malf_rates ->
     exists out g',
       simulate_emissions_optimized64 PC_count DTF S0 timesteps p_gas S1 p r
         prop_rates malf_rates g = (inr out, g')
       /\ length (res_sum_emission_rate64 out) = timesteps
       /\ length (res_avg_emission_rate64 out) = timesteps
       /\ (forall t s, res_sum_emission_rate64 out !! t = Some s ->
             res_avg_emission_rate64 out !! t
             = Some (s / float_of_nat64 PC_count)%float)
       /\ res_all_avg_emission_rate64 out = np_mean64 (res_avg_emission_rate64 out))
  /\ (forall (DTF S0 p_gas S1 p r : Q) (prop_rates malf_rates : list Q) (g : G),
        valid_input PC_count timesteps DTF S0 S1 prop_rates malf_rates ->
        exists out g',
          simulate_emissions_optimized PC_count DTF S0 timesteps p_gas S1 p r
            prop_rates malf_rates g = (inr out, g')
          /\ (forall t, (t < timesteps)%nat ->
                exists s a, res_sum_emission_rate out !! t = Some s
                            /\ res_avg_emission_rate out !! t = Some a
                            /\ a = s / inject_Z (Z.of_nat PC_count)
                            /\ s == inject_Z (Z.of_nat PC_count) * a)
          /\ res_all_avg_emission_rate out
             == np_sum (res_avg_emission_rate out) / inject_Z (Z.of_nat timesteps)).
Proof.
  split.
  - intros DTF S0 p_gas S1 p r prop_rates malf_rates g Hv.
    destruct (simulate64_valid PC_count DTF S0 timesteps p_gas S1 p r
                prop_rates malf_rates g Hv) as (out & g' & Hrun).
    exists out, g'. split; [exact Hrun|].
    apply simulate64_inv in Hrun as ([Hl Hr] & _ & Ha & Hall & Hs & _).
    split; [rewrite Hs, length_fmap; exact Hl|].
    split; [rewrite Ha, length_fmap; exact Hl|]. split; [|exact Hall].
    intros t s. rewrite Hs, Ha, !list_lookup_fmap.
    destruct (res_emission_rates_each64 out !! t) as [row|] eqn:Hrow; [|discriminate].
    cbn. intros [= <-]. unfold np_mean64.
    rewrite Forall_lookup in Hr. rewrite (Hr _ _ Hrow). reflexivity.
  - intros DTF S0 p_gas S1 p r prop_rates malf_rates g. apply exact_sum_and_average.
Qed.

(** *** One unit that never fails *)

Lemma doubles_one (g : G) :
  exists u, (doubles 1 g).1 = [u] /\ 0 <= u /\ u < 1.
Proof.
  pose proof (next_double_range g) as Hu. cbn.
  destruct (next_double g) as [u g1]. cbn in *. eauto.
Qed.

Lemma trajectory_never_fails (r : Q) (g : G) (t : nat) :
  (trajectory 1 0 r [0%nat] g t).1 = [0%nat].
Proof.
  induction t as [|t IH]; [reflexivity|].
  rewrite trajectory_next, IH. unfold rand_vals_at.
  destruct (doubles_one (generator_at 1 g t)) as (u & -> & Hu & _).
  cbn. unfold next_state. apply Qltb_false in Hu as ->. reflexivity.
Qed.

Lemma singleton_pool (x : Q) (l : list Q) :
  length l = 1%nat -> Forall (fun y => y ∈ [x]) l -> l = [x].
Proof.
  destruct l as [|y [|? ?]]; try discriminate. intros _ Hy.
  apply Forall_cons in Hy as [Hy _]. apply list_elem_of_singleton in Hy as ->. reflexivity.
Qed.

(** In exact arithmetic: one unit, five steps, pools [[10]] and [[100]],
    [S0 = 1] (so [S1 = 0]) and [p = 0]: the call returns, the recorded
    emission rate is 10 at each of the five steps and the final cumulative
    emission is [5 * 10 * 24 * p_gas]. In every call that returns, the
    per-step sum is the sum of the step's row, entry [t] of the cumulative
    series is the sum of the first [t + 1] per-step sums times [24 * p_gas],
    and the scalar returned is the last entry of that series. *)
Lemma exact_cumulative_series :
  (forall (DTF p_gas r : Q) (g : G),
     0 < DTF ->
     exists out g',
       simulate_emissions_optimized 1 DTF 1 5 p_gas 0 0 r [10] [100] g = (inr out, g')
       /\ res_emission_rates_each out = [[10]; [10]; [10]; [10]; [10]]
       /\ res_final_cumulative_emission out == 5 * 10 * 24 * p_gas)
  /\ (forall (PC_count : nat) (DTF S0 : Q) (timesteps : nat) (p_gas S1 p r : Q)
        (prop_rates malf_rates : list Q) (g g' : G) (out : results),
        simulate_emissions_optimized PC_count DTF S0 timesteps p_gas S1 p r
          prop_rates malf_rates g = (inr out, g') ->
        (forall t, (t < timesteps)%nat ->
           exists row c,
             res_emission_rates_each out !! t = Some row
             /\ res_sum_emission_rate out !! t = Some (np_sum row)
             /\ res_cumulative_emission out !! t = Some c
             /\ c == np_sum (take (S t) (res_sum_emission_rate out)) * (24 * p_gas))
        /\ length (res_cumulative_emission out) = timesteps
        /\ last (res_cumulative_emission out) = Some (res_final_cumulative_emission out)).
Proof.
  split.
  - intros DTF p_gas r g Hd.
    destruct (initialise_ok 1 1 0 [10] [100] g) as (ps & ms & g2 & Hinit);
      try discriminate.
    destruct (simulate_ok 1 DTF 1 5 p_gas 0 0 r [10] [100] g _ _ _ _
                ltac:(discriminate) ltac:(discriminate) Hd ltac:(lia) Hinit)
      as (out & Hrun & Hsum).
    exists out, (generator_at 1 (doubles 1 g2).2 5). split; [exact Hrun|].
    apply initialise_inv in Hinit as (Hps & Hms & _ & _ & Hpin & Hmin).
    apply singleton_pool in Hpin as ->; [|exact Hps].
    apply singleton_pool in Hmin as ->; [|exact Hms].
    destruct (doubles_one g2) as (u & Eu & _ & Hu). rewrite Eu in Hsum.
    change (np_clip 0 0 1) with 0 in Hsum.
    assert (Es : searchsorted_right [1 / (1 + 0); (1 + 0) / (1 + 0)] <$> [u] = [0%nat]).
    { cbn [fmap list_fmap searchsorted_right]. change (1 / (1 + 0)) with 1.
      apply Qltb_true in Hu as ->. reflexivity. }
    rewrite Es in Hsum.
    destruct Hsum as (He & _ & _ & _ & _ & Hs & Hc & Hlast).
    unfold loop_result in He, Hs. cbn [emission_rates_each seq fmap list_fmap] in He, Hs.
    rewrite !trajectory_never_fails in He, Hs.
    change (emissions_of [0%nat] [10] [100]) with [10] in He, Hs.
    split; [exact He|].
    rewrite Hs in Hc.
    rewrite Hc in Hlast. cbn [fmap list_fmap np_cumsum accumulate last] in Hlast.
    injection Hlast as <-. change (np_sum [10]) with 10. ring.
  - intros PC_count DTF S0 timesteps p_gas S1 p r prop_rates malf_rates g g' out Hrun.
    apply simulate_inv in Hrun as (_ & _ & _ & _ & ps & ms & s0 & g0 & Hinit & _ & Hsum).
    apply initialise_inv in Hinit as (Hps & Hms & Hl & Hb & _).
    destruct (loop_result_shapes PC_count (np_clip p 0 1) (np_clip r 0 1) ps ms s0 g0
                timesteps Hps Hms Hl Hb) as ([Le _] & _).
    destruct Hsum as (He & _ & _ & _ & _ & Hs & Hc & Hlast).
    assert (Hlen : length (res_cumulative_emission out) = timesteps).
    { rewrite Hc, length_fmap, np_cumsum_length, Hs, length_fmap. exact Le. }
    split; [|split; [exact Hlen|exact Hlast]].
    intros t Ht.
    destruct (lookup_lt_is_Some_2 (res_cumulative_emission out) t) as [c Hct]; [lia|].
    rewrite He, loop_result_emission_row by exact Ht.
    eexists _, c. split; [reflexivity|]. split; [|split; [exact Hct|]].
    + rewrite Hs, list_lookup_fmap, loop_result_emission_row by exact Ht. reflexivity.
    + rewrite Hc, list_lookup_fmap in Hct.
      destruct (np_cumsum (res_sum_emission_rate out) !! t) as [c0|] eqn:E0; [|discriminate].
      injection Hct as <-. apply np_cumsum_lookup in E0. rewrite E0. reflexivity.
Qed.

(** C5. On doubles: one unit, five steps, pools [[10.0]] and
    [[100.0]], [S0 = 1.0] (so [S1 = 0.0]) and [p = 0]: the call returns, the
    recorded emission rate is 10.0 at each of the five steps, and the final
    cumulative emission is the double [50.0 * (24 * p_gas)], the running
    sum 50.0 times the rounded factor; in every call that returns, the
    per-step sums are the sums of the rows, the cumulative series is their
    running sum with every entry multiplied by the double [24 * p_gas], it
    has [timesteps] entries, and the scalar returned is the last of them.
    In exact arithmetic the same hold, and the final cumulative emission of
    the one unit is [5 * 10 * 24 * p_gas]. (The double
    [50.0 * (24 * p_gas)] need not be the double [5 * 10.0 * 24 * p_gas],
    as the evaluation at [p_gas = 0.1] shows.) *)
Theorem cumulative_emission_series :
  ((forall (DTF p_gas r : float) (g : G),
      (0 <? DTF)%float = true ->
      exists out g',
        simulate_emissions_optimized64 1 DTF 1 5 p_gas 0 0 r [10%float] [100%float] g
          = (inr out, g')
        /\ res_emission_rates_each64 out
           = [[10%float]; [10%float]; [10%float]; [10%float]; [10%float]]
        /\ res_final_cumulative_emission64 out = (50 * (24 * p_gas))%float)
   /\ (forall (PC_count : nat) (DTF S0 : float) (timesteps : nat) (p_gas S1 p r : float)
         (prop_rates malf_rates : list float) (g g' : G) (out : results64),
         simulate_emissions_optimized64 PC_count DTF S0 timesteps p_gas S1 p r
           prop_rates malf_rates g = (inr out, g') ->
         res_sum_emission_rate64 out = np_sum64 <$> res_emission_rates_each64 out
         /\ res_cumulative_emission64 out
            = (fun c => (c * (24 * p_gas))%float) <$> np_cumsum64 (res_sum_emission_rate64 out)
         /\ length (res_cumulative_emission64 out) = timesteps
         /\ last (res_cumulative_emission64 out)
            = Some (res_final_cumulative_emission64 out)))
  /\ ((forall (DTF p_gas r : Q) (g : G),
         0 < DTF ->
         exists out g',
           simulate_emissions_optimized 1 DTF 1 5 p_gas 0 0 r [10] [100] g = (inr out, g')
           /\ res_emission_rates_each out = [[10]; [10]; [10]; [10]; [10]]
           /\ res_final_cumulative_emission out == 5 * 10 * 24 * p_gas)
      /\ (forall (PC_count : nat) (DTF S0 : Q) (timesteps : nat) (p_gas S1 p r : Q)
            (prop_rates malf_rates : list Q) (g g' : G) (out : results),
            simulate_emissions_optimized PC_count DTF S0 timesteps p_gas S1 p r
              prop_rates malf_rates g = (inr out, g') ->
            (forall t, (t < timesteps)%nat ->
               exists row c,
                 res_emission_rates_each out !! t = Some row
                 /\ res_sum_emission_rate out !! t = Some (np_sum row)
                 /\ res_cumulative_emission out !! t = Some c
                 /\ c == np_sum (take (S t) (res_sum_emission_rate out)) * (24 * p_gas))
            /\ length (res_cumulative_emission out) = timesteps
            /\ last (res_cumulative_emission out) = Some (res_final_cumulative_emission out))).
Proof.
  split; [split|exact exact_cumulative_series].
  - apply one_unit_run64.
  - intros PC_count DTF S0 timesteps p_gas S1 p r prop_rates malf_rates g g' out Hrun.
    apply simulate64_inv in Hrun as ([Hl _] & _ & _ & _ & Hs & Hc & Hlast).
    repeat split; try assumption.
    rewrite Hc, length_fmap, np_cumsum64_length, Hs, length_fmap. exact Hl.
Qed.

(** *** The parameters of a trial *)

(** C9. A trial draws an integer in [[DTF_min, DTF_max]] and raises it to at
    least 1, draws [S0] in [[S0_min, S0_max]] from one uniform draw, and
    calls the simulator with [S1 = 1 - S0], [p = S0 / DTF] and
    [r = p / S1 - p]; when [S1] is zero the division raises and the
    simulator is not called. *)
Theorem trial_parameters_derivation (DTF_min DTF_max : Z) (S0_min S0_max : Q) (g : G) :
  (DTF_min <= DTF_max)%Z -> S0_min <= S0_max ->
  let k := (next_interval (DTF_max + 1 - DTF_min) g).1 in
  let g1 := (next_interval (DTF_max + 1 - DTF_min) g).2 in
  let u := (next_double g1).1 in
  let g2 := (next_double g1).2 in
  let DTF := Z.max 1 (DTF_min + k) in
  let S0 := S0_min + (S0_max - S0_min) * u in
  let S1 := 1 - S0 in
  let p := S0 / inject_Z DTF in
  let r := p / S1 - p in
  (DTF_min <= DTF_min + k <= DTF_max)%Z /\ (1 <= DTF)%Z
  /\ S0_min <= S0 /\ S0 <= S0_max
  /\ (~ S1 == 0 ->
      trial_parameters DTF_min DTF_max S0_min S0_max g = (inr (DTF, S0, S1, p, r), g2))
  /\ (S1 == 0 ->
      trial_parameters DTF_min DTF_max S0_min S0_max g
      = (inl (ZeroDivisionError float_division_by_zero), g2))
  /\ (forall (PC_count timesteps : nat) (p_gas : Q) (prop_rates malf_rates : list Q)
        (i : nat) (e : ensemble),
        ~ S1 == 0 ->
        trial PC_count DTF_min DTF_max S0_min S0_max timesteps p_gas prop_rates malf_rates
          i e g
        = match simulate_emissions_optimized PC_count (inject_Z DTF) S0 timesteps p_gas
                  S1 p r prop_rates malf_rates g2 with
          | (inl err, g3) => (inl err, g3)
          | (inr out, g3) =>
              (inr {| DTF_list := DTF_list e ++ [DTF];
                      S0_list := S0_list e ++ [S0];
                      MC_all_avg_emission_rate :=
                        MC_all_avg_emission_rate e ++ [res_all_avg_emission_rate out];
                      MC_final_cumulative_emission :=
                        MC_final_cumulative_emission e
                          ++ [res_final_cumulative_emission out] |}, g3)
          end).
Proof.
  intros Hdtf HS0.
  pose proof (next_interval_range (DTF_max + 1 - DTF_min) g ltac:(lia)) as Hk.
  destruct (next_interval (DTF_max + 1 - DTF_min) g) as [k g1] eqn:Ek.
  cbv beta iota delta [fst snd] in *. intros k' g1'. subst k' g1'.
  pose proof (next_double_range g1) as [Hu0 Hu1].
  destruct (next_double g1) as [u g2] eqn:Eu.
  cbv beta iota delta [fst snd] in *. intros u' g2'. subst u' g2'.
  intros DTF S0 S1 p r.
  assert (Hpar : forall b : bool, Qeq_bool S1 0 = b ->
            trial_parameters DTF_min DTF_max S0_min S0_max g
            = if b then (inl (ZeroDivisionError float_division_by_zero), g2)
              else (inr (DTF, S0, S1, p, r), g2)).
  { intros b Hb. unfold trial_parameters, bind, np_random_randint, np_random_uniform, draw.
    destruct (Z.leb_spec (DTF_max + 1) DTF_min) as [?|_]; [lia|].
    rewrite Ek. cbn [fst snd]. rewrite Eu. cbn [fst snd].
    unfold S1, S0 in Hb. rewrite Hb. destruct b; reflexivity. }
  split; [lia|]. split; [lia|].
  assert (Hw : 0 <= (S0_max - S0_min) * u /\ (S0_max - S0_min) * u <= S0_max - S0_min).
  { split; nra. }
  split; [subst S0; lra|]. split; [subst S0; lra|].
  split; [|split].
  - intros Hne. apply (Hpar false). apply not_true_iff_false.
    rewrite Qeq_bool_iff. exact Hne.
  - intros He. apply (Hpar true). apply Qeq_bool_iff. exact He.
  - intros PC_count timesteps p_gas prop_rates malf_rates i e Hne.
    unfold trial. unfold bind at 1. rewrite (Hpar false).
    + unfold bind.
      destruct (simulate_emissions_optimized PC_count (inject_Z DTF) S0 timesteps p_gas S1 p r
                  prop_rates malf_rates g2) as [[err|out] g3]; reflexivity.
    + apply not_true_iff_false. rewrite Qeq_bool_iff. exact Hne.
Qed.

(** *** Further properties of the simulator *)

Lemma np_clip_low (x : Q) : x <= 0 -> np_clip x 0 1 = 0.
Proof.
  intros Hx. unfold np_clip, np_maximum. apply Qltb_false in Hx as ->. reflexivity.
Qed.

Lemma np_clip_high (x : Q) : 1 <= x -> np_clip x 0 1 = 1.
Proof.
  intros Hx. unfold np_clip, np_maximum, np_minimum.
  assert (H0 : Qltb 0 x = true) by (apply Qltb_true; lra).
  rewrite H0. apply Qltb_false in Hx as ->. reflexivity.
Qed.

Lemma float_of_nat_inj (a b : nat) : float_of_nat a = float_of_nat b -> a = b.
Proof. unfold float_of_nat, inject_Z. intros [= E]. lia. Qed.

Lemma rand_vals_at_length (n : nat) (g : G) (t : nat) : length (rand_vals_at n g t) = n.
Proof. apply doubles_length. Qed.

Lemma rand_vals_at_range (n : nat) (g : G) (t : nat) :
  Forall (fun u => 0 <= u /\ u < 1) (rand_vals_at n g t).
Proof. apply doubles_range. Qed.

(** The transition of unit [i] between two steps of the unrolled loop. *)
Lemma trajectory_unit_step (n : nat) (p r : Q) (s0 : list nat) (g : G) (t i : nat) :
  length s0 = n -> Forall binary s0 -> (i < n)%nat ->
  exists s u,
    (trajectory n p r s0 g t).1 !! i = Some s
    /\ rand_vals_at n g t !! i = Some u
    /\ 0 <= u /\ u < 1 /\ binary s
    /\ (trajectory n p r s0 g (S t)).1 !! i = Some (next_state p r s u).
Proof.
  intros Hl Hb Hi.
  destruct (trajectory_states n p r s0 g t Hl Hb) as [Hlt Hbt].
  destruct (lookup_lt_is_Some_2 (trajectory n p r s0 g t).1 i) as [s Hs]; [lia|].
  destruct (lookup_lt_is_Some_2 (rand_vals_at n g t) i) as [u Hu].
  { rewrite rand_vals_at_length. exact Hi. }
  exists s, u.
  pose proof (Forall_lookup_1 _ _ _ _ (rand_vals_at_range n g t) Hu) as [Hu0 Hu1].
  pose proof (Forall_lookup_1 _ _ _ _ Hbt Hs) as Hbs.
  repeat split; try assumption.
  rewrite trajectory_next. unfold next_states. rewrite lookup_zip_with, Hs, Hu. reflexivity.
Qed.

Lemma next_states_frozen (s : list nat) (rv : list Q) :
  Forall (fun u => 0 <= u /\ u < 1) rv -> length rv = length s -> next_states 0 0 s rv = s.
Proof.
  intros Hrv. revert s. unfold next_states.
  induction Hrv as [|u rv [Hu _] _ IH]; intros [|x s]; cbn; try discriminate; [reflexivity|].
  intros [= Hl]. rewrite (IH s Hl). unfold next_state.
  apply Qltb_false in Hu as ->. rewrite !andb_false_r. reflexivity.
Qed.

Lemma trajectory_frozen (n : nat) (s0 : list nat) (g : G) (t : nat) :
  length s0 = n -> (trajectory n 0 0 s0 g t).1 = s0.
Proof.
  intros Hl. induction t as [|t IH]; [reflexivity|].
  rewrite trajectory_next, IH. apply next_states_frozen; [apply rand_vals_at_range|].
  rewrite rand_vals_at_length. congruence.
Qed.

(** X1. When neither [p] nor [r] is positive no unit ever changes state: in
    a call that returns, every recorded row of states, of fractions, of
    emission rates and every per-step sum is the one of step 0. *)
Theorem no_transitions_constant (PC_count : nat) (DTF S0 : Q) (timesteps : nat)
    (p_gas S1 p r : Q) (prop_rates malf_rates : list Q) (g g' : G) (out : results) :
  simulate_emissions_optimized PC_count DTF S0 timesteps p_gas S1 p r prop_rates malf_rates g
    = (inr out, g') ->
  p <= 0 -> r <= 0 ->
  forall t, (t < timesteps)%nat ->
    res_state_history_each out !! t = res_state_history_each out !! 0%nat
    /\ res_state_history out !! t = res_state_history out !! 0%nat
    /\ res_emission_rates_each out !! t = res_emission_rates_each out !! 0%nat
    /\ res_sum_emission_rate out !! t = res_sum_emission_rate out !! 0%nat
    /\ res_avg_emission_rate out !! t = res_avg_emission_rate out !! 0%nat.
Proof.
  intros Hrun Hp Hr t Ht.
  apply simulate_inv in Hrun as (_ & _ & _ & _ & ps & ms & s0 & g0 & Hinit & _ & Hsum).
  apply initialise_inv in Hinit as (_ & _ & Hl & _).
  rewrite (np_clip_low p Hp), (np_clip_low r Hr) in Hsum.
  destruct Hsum as (-> & -> & -> & -> & _ & -> & _).
  rewrite !list_lookup_fmap.
  rewrite !loop_result_state_row, !loop_result_counts_row, !loop_result_emission_row by lia.
  rewrite !trajectory_frozen by exact Hl. auto.
Qed.

Lemma state_entry (n : nat) (p r : Q) (ps ms : list Q) (s0 : list nat) (g : G)
    (timesteps t i : nat) :
  (t < timesteps)%nat ->
  entry (state_history_each (loop_result n p r ps ms s0 g timesteps)) t i
  = float_of_nat <$> (trajectory n p r s0 g t).1 !! i.
Proof.
  intros Ht. unfold entry. rewrite loop_result_state_row by exact Ht.
  apply list_lookup_fmap.
Qed.

(** X2. When [p >= 1] a unit recorded properly operating at a step is
    recorded malfunctioning at the next one, and when [r >= 1] a unit
    recorded malfunctioning is recorded properly operating at the next. *)
Theorem certain_transitions (PC_count : nat) (DTF S0 : Q) (timesteps : nat)
    (p_gas S1 p r : Q) (prop_rates malf_rates : list Q) (g g' : G) (out : results) :
  simulate_emissions_optimized PC_count DTF S0 timesteps p_gas S1 p r prop_rates malf_rates g
    = (inr out, g') ->
  forall t i, (S t < timesteps)%nat ->
    (1 <= p -> entry (res_state_history_each out) t i = Some 0 ->
     entry (res_state_history_each out) (S t) i = Some 1)
    /\ (1 <= r -> entry (res_state_history_each out) t i = Some 1 ->
        entry (res_state_history_each out) (S t) i = Some 0).
Proof.
  intros Hrun t i Ht.
  apply simulate_inv in Hrun as (_ & _ & _ & _ & ps & ms & s0 & g0 & Hinit & _ & Hsum).
  apply initialise_inv in Hinit as (_ & _ & Hl & Hb & _).
  destruct Hsum as (_ & _ & -> & _).
  rewrite !state_entry by lia.
  set (p' := np_clip p 0 1). set (r' := np_clip r 0 1).
  destruct (trajectory_states PC_count p' r' s0 g0 t Hl Hb) as [Hlt _].
  assert (Hstep : forall x, float_of_nat <$> (trajectory PC_count p' r' s0 g0 t).1 !! i
                            = Some (float_of_nat x) ->
            exists u, u < 1
              /\ (trajectory PC_count p' r' s0 g0 (S t)).1 !! i = Some (next_state p' r' x u)).
  { intros x Hx. apply fmap_Some in Hx as (s & Hs & E). apply float_of_nat_inj in E as <-.
    assert (Hi : (i < PC_count)%nat) by (apply lookup_lt_Some in Hs; lia).
    destruct (trajectory_unit_step PC_count p' r' s0 g0 t i Hl Hb Hi)
      as (s' & u & Hs' & _ & _ & Hu & _ & Hnext).
    rewrite Hs in Hs'. injection Hs' as <-. eauto. }
  split.
  - intros Hp Hx. destruct (Hstep 0%nat Hx) as (u & Hu & ->). cbn.
    subst p'. rewrite (np_clip_high p Hp). unfold next_state.
    apply Qltb_true in Hu as ->. reflexivity.
  - intros Hr Hx. destruct (Hstep 1%nat Hx) as (u & Hu & ->). cbn.
    subst r'. rewrite (np_clip_high r Hr). unfold next_state.
    apply Qltb_true in Hu as ->. reflexivity.
Qed.

Lemma initialise_run (n : nat) (S0 S1 : Q) (prop_rates malf_rates : list Q) (g : G) :
  prop_rates <> [] -> malf_rates <> [] ->
  0 <= S0 -> 0 <= S1 -> Qabs (S0 + S1 - 1) <= atol ->
  exists ps ms,
    initialise n S0 S1 prop_rates malf_rates g =
      (inr (ps, ms,
            searchsorted_right [S0 / (S0 + S1); (S0 + S1) / (S0 + S1)]
              <$> (doubles n (generator_after_rates n prop_rates malf_rates g)).1),
       generator_after_initialise n prop_rates malf_rates g).
Proof.
  intros Hp Hm H0 H1 Hsum. unfold initialise, bind.
  destruct (np_random_choice_ok prop_rates n g Hp) as [ps ->].
  destruct (np_random_choice_ok malf_rates n (integers n (Z.of_nat (length prop_rates)) g).2 Hm)
    as [ms ->].
  rewrite np_random_choice_p_states by assumption. eauto.
Qed.

(** X3. With no step to run ([timesteps = 0]) and an otherwise valid input
    the call draws the rates and the initial states and then raises an
    IndexError: the cumulative series is empty and has no last entry. *)
Theorem zero_timesteps_raises (PC_count : nat) (DTF S0 : Q) (p_gas S1 p r : Q)
    (prop_rates malf_rates : list Q) (g : G) :
  0 <= S0 -> S0 <= 1 -> 0 < DTF -> S1 == 1 - S0 ->
  prop_rates <> [] -> malf_rates <> [] ->
  simulate_emissions_optimized PC_count DTF S0 0 p_gas S1 p r prop_rates malf_rates g
  = (inl (IndexError index_out_of_bounds),
     generator_after_initialise PC_count prop_rates malf_rates g).
Proof.
  intros H0 H1 Hd HS1 Hp Hm.
  destruct (initialise_run PC_count S0 S1 prop_rates malf_rates g Hp Hm H0) as (ps & ms & E).
  - lra.
  - assert (E' : S0 + S1 - 1 == 0) by lra. rewrite E'. discriminate.
  - rewrite simulate_unrolled, validate_ok, E by assumption. reflexivity.
Qed.

(** X4. The function does not validate [S1] itself, but the draw of the
    initial states does: with valid [S0] and [DTF] and non-empty pools, a
    negative [S1], or an [S1] for which [S0 + S1] is further from 1 than
    [2^-26], makes the call raise a ValueError once the rates of the units
    have been drawn. *)
Theorem inconsistent_S1_raises (PC_count : nat) (DTF S0 : Q) (timesteps : nat)
    (p_gas S1 p r : Q) (prop_rates malf_rates : list Q) (g : G) :
  0 <= S0 -> S0 <= 1 -> 0 < DTF -> prop_rates <> [] -> malf_rates <> [] ->
  (S1 < 0 ->
   simulate_emissions_optimized PC_count DTF S0 timesteps p_gas S1 p r prop_rates malf_rates g
   = (inl (ValueError probabilities_are_not_non_negative),
      generator_after_rates PC_count prop_rates malf_rates g))
  /\ (0 <= S1 -> atol < Qabs (S0 + S1 - 1) ->
      simulate_emissions_optimized PC_count DTF S0 timesteps p_gas S1 p r
        prop_rates malf_rates g
      = (inl (ValueError probabilities_do_not_sum_to_1),
         generator_after_rates PC_count prop_rates malf_rates g)).
Proof.
  intros H0 H1 Hd Hp Hm.
  assert (Hinit : forall e,
            np_random_choice_p [0%nat; 1%nat] PC_count [S0; S1]
              (generator_after_rates PC_count prop_rates malf_rates g)
            = (inl e, generator_after_rates PC_count prop_rates malf_rates g) ->
            simulate_emissions_optimized PC_count DTF S0 timesteps p_gas S1 p r
              prop_rates malf_rates g
            = (inl e, generator_after_rates PC_count prop_rates malf_rates g)).
  { intros e He. rewrite simulate_unrolled, validate_ok by assumption.
    unfold initialise, bind.
    destruct (np_random_choice_ok prop_rates PC_count g Hp) as [ps ->].
    destruct (np_random_choice_ok malf_rates PC_count
                (integers PC_count (Z.of_nat (length prop_rates)) g).2 Hm) as [ms ->].
    fold (generator_after_rates PC_count prop_rates malf_rates g). rewrite He. reflexivity. }
  split.
  - intros HS1. apply Hinit. unfold np_random_choice_p.
    cbn [length Nat.eqb andb negb existsb].
    apply Qltb_false in H0 as ->. apply Qltb_true in HS1 as ->. reflexivity.
  - intros HS1 Hsum. apply Hinit. unfold np_random_choice_p.
    cbn [length Nat.eqb andb negb existsb].
    apply Qltb_false in H0 as ->. apply Qltb_false in HS1 as ->. cbn [orb].
    assert (Hs : Qltb atol (Qabs (np_sum [S0; S1] - 1)) = true).
    { apply Qltb_true. unfold np_sum; cbn [fold_left].
      assert (E : 0 + S0 + S1 - 1 == S0 + S1 - 1) by ring. rewrite E. exact Hsum. }
    rewrite Hs. reflexivity.
Qed.

Lemma emission_entry (n : nat) (p r : Q) (ps ms : list Q) (s0 : list nat) (g : G)
    (timesteps t i : nat) :
  (t < timesteps)%nat ->
  entry (emission_rates_each (loop_result n p r ps ms s0 g timesteps)) t i
  = emissions_of (trajectory n p r s0 g t).1 ps ms !! i.
Proof. intros Ht. unfold entry. rewrite loop_result_emission_row by exact Ht. reflexivity. Qed.

(** X5. In a call that returns, every unit has one properly-operating rate
    and one malfunctioning rate, each a value of its pool, for the whole
    trial: at every step the recorded emission rate of the unit is the
    first when its recorded state is 0 and the second when it is 1. *)
Theorem unit_rates_fixed (PC_count : nat) (DTF S0 : Q) (timesteps : nat)
    (p_gas S1 p r : Q) (prop_rates malf_rates : list Q) (g g' : G) (out : results) :
  simulate_emissions_optimized PC_count DTF S0 timesteps p_gas S1 p r prop_rates malf_rates g
    = (inr out, g') ->
  exists prop_sample malf_sample,
    length prop_sample = PC_count /\ length malf_sample = PC_count
    /\ Forall (fun x => x ∈ prop_rates) prop_sample
    /\ Forall (fun x => x ∈ malf_rates) malf_sample
    /\ forall t i, (t < timesteps)%nat -> (i < PC_count)%nat ->
         exists s pr mr,
           prop_sample !! i = Some pr /\ malf_sample !! i = Some mr
           /\ entry (res_state_history_each out) t i = Some (float_of_nat s)
           /\ entry (res_emission_rates_each out) t i
              = Some (if (s =? 0)%nat then pr else mr).
Proof.
  intros Hrun.
  apply simulate_inv in Hrun as (_ & _ & _ & _ & ps & ms & s0 & g0 & Hinit & _ & Hsum).
  apply initialise_inv in Hinit as (Hps & Hms & Hl & Hb & Hpin & Hmin).
  exists ps, ms. repeat split; try assumption.
  intros t i Ht Hi. destruct Hsum as (-> & _ & -> & _).
  rewrite state_entry, emission_entry by exact Ht.
  destruct (trajectory_states PC_count (np_clip p 0 1) (np_clip r 0 1) s0 g0 t Hl Hb)
    as [Hlt _].
  destruct (lookup_lt_is_Some_2 (trajectory PC_count (np_clip p 0 1) (np_clip r 0 1) s0 g0 t).1
              i) as [s Hs]; [lia|].
  destruct (lookup_lt_is_Some_2 ps i) as [pr Hpr]; [lia|].
  destruct (lookup_lt_is_Some_2 ms i) as [mr Hmr]; [lia|].
  exists s, pr, mr. rewrite Hs. repeat split; try assumption.
  unfold emissions_of. rewrite lookup_zip_with, Hs. cbn.
  rewrite lookup_zip_with, Hpr. cbn. rewrite Hmr. reflexivity.
Qed.

(** X6. On a valid input a unit starts properly operating exactly when its
    draw, one of the [PC_count] uniform draws that follow the draws of the
    rates, is below [S0], and malfunctioning otherwise. *)
Theorem initial_states_by_draw (PC_count : nat) (DTF S0 : Q) (timesteps : nat)
    (p_gas S1 p r : Q) (prop_rates malf_rates : list Q) (g : G) :
  valid_input PC_count timesteps DTF S0 S1 prop_rates malf_rates ->
  exists out g',
    simulate_emissions_optimized PC_count DTF S0 timesteps p_gas S1 p r
      prop_rates malf_rates g = (inr out, g')
    /\ forall i, (i < PC_count)%nat ->
         exists u s,
           (doubles PC_count (generator_after_rates PC_count prop_rates malf_rates g)).1 !! i
             = Some u
           /\ entry (res_state_history_each out) 0 i = Some (float_of_nat s)
           /\ (s = 0%nat <-> u < S0) /\ (s = 1%nat <-> S0 <= u).
Proof.
  intros Hv. destruct (valid_input_S1 _ _ _ _ _ _ _ Hv) as [HS1 Hsum].
  destruct Hv as (_ & Ht & H0 & H1 & Hd & HS & Hp & Hm).
  destruct (initialise_run PC_count S0 S1 prop_rates malf_rates g Hp Hm H0 HS1 Hsum)
    as (ps & ms & Hinit).
  destruct (simulate_ok PC_count DTF S0 timesteps p_gas S1 p r _ _ g _ _ _ _ H0 H1 Hd Ht Hinit)
    as (out & Hrun & Hres).
  exists out, (generator_at PC_count
                 (generator_after_initialise PC_count prop_rates malf_rates g) timesteps).
  split; [exact Hrun|]. intros i Hi.
  destruct Hres as (_ & _ & -> & _).
  rewrite state_entry by lia.
  change (trajectory PC_count (np_clip p 0 1) (np_clip r 0 1) ?s0 ?g0 0).1 with s0.
  set (us := (doubles PC_count (generator_after_rates PC_count prop_rates malf_rates g)).1).
  assert (Hus : Forall (fun u => 0 <= u /\ u < 1) us) by apply doubles_range.
  destruct (lookup_lt_is_Some_2 us i) as [u Hu].
  { subst us. rewrite doubles_length. exact Hi. }
  pose proof (Forall_lookup_1 _ _ _ _ Hus Hu) as [Hu0 Hu1].
  exists u, (searchsorted_right [S0 / (S0 + S1); (S0 + S1) / (S0 + S1)] u).
  split; [exact Hu|]. split; [rewrite list_lookup_fmap, Hu; reflexivity|].
  assert (Et : S0 + S1 == 1) by lra.
  assert (E0 : S0 / (S0 + S1) == S0) by (rewrite Et; field).
  assert (E1 : Qltb u ((S0 + S1) / (S0 + S1)) = true).
  { apply Qltb_true. assert (E : (S0 + S1) / (S0 + S1) == 1) by (field; lra).
    rewrite E. exact Hu1. }
  cbn [searchsorted_right]. rewrite E1.
  destruct (Qltb u (S0 / (S0 + S1))) eqn:E;
    [apply Qltb_true in E|apply Qltb_false in E]; rewrite E0 in E.
  - repeat split; intros; try lra; try lia; try reflexivity.
  - repeat split; intros; try lra; try lia; try reflexivity.
Qed.

(** X7. A call on a valid input leaves the generator where [2 * PC_count]
    bounded integers, then [PC_count] doubles, then [timesteps] batches of
    [PC_count] doubles lead from the generator it was called with, whatever
    the probabilities and the rates are. *)
Theorem generator_consumption (PC_count : nat) (DTF S0 : Q) (timesteps : nat)
    (p_gas S1 p r : Q) (prop_rates malf_rates : list Q) (g : G) :
  valid_input PC_count timesteps DTF S0 S1 prop_rates malf_rates ->
  exists out,
    simulate_emissions_optimized PC_count DTF S0 timesteps p_gas S1 p r
      prop_rates malf_rates g
    = (inr out,
       generator_at PC_count (generator_after_initialise PC_count prop_rates malf_rates g)
         timesteps).
Proof.
  intros Hv. destruct (valid_input_S1 _ _ _ _ _ _ _ Hv) as [HS1 Hsum].
  destruct Hv as (_ & Ht & H0 & H1 & Hd & HS & Hp & Hm).
  destruct (initialise_run PC_count S0 S1 prop_rates malf_rates g Hp Hm H0 HS1 Hsum)
    as (ps & ms & Hinit).
  destruct (simulate_ok PC_count DTF S0 timesteps p_gas S1 p r _ _ g _ _ _ _ H0 H1 Hd Ht Hinit)
    as (out & Hrun & _).
  eauto.
Qed.

(** *** Averages *)

Lemma np_sum_cons (x : Q) (l : list Q) : np_sum (x :: l) == x + np_sum l.
Proof. unfold np_sum at 1. cbn [fold_left]. rewrite fold_left_Qplus_acc. ring. Qed.

Lemma inject_Z_length_cons {A} (x : A) (l : list A) :
  inject_Z (Z.of_nat (length (x :: l))) == inject_Z (Z.of_nat (length l)) + 1.
Proof. cbn [length]. rewrite Nat2Z.inj_succ, <- Z.add_1_r, inject_Z_plus. reflexivity. Qed.

Lemma np_sum_bounds (lo hi : Q) (l : list Q) :
  Forall (fun x => lo <= x /\ x <= hi) l ->
  inject_Z (Z.of_nat (length l)) * lo <= np_sum l
  /\ np_sum l <= inject_Z (Z.of_nat (length l)) * hi.
Proof.
  induction 1 as [|x l [Hlo Hhi] _ [IHlo IHhi]].
  - unfold np_sum. cbn [fold_left length]. change (inject_Z (Z.of_nat 0)) with 0. lra.
  - rewrite np_sum_cons, inject_Z_length_cons. lra.
Qed.

Lemma np_mean_bounds (lo hi : Q) (l : list Q) :
  l <> [] -> Forall (fun x => lo <= x /\ x <= hi) l -> lo <= np_mean l /\ np_mean l <= hi.
Proof.
  intros Hne Hl. destruct (np_sum_bounds lo hi l Hl) as [Hlo Hhi].
  assert (Hn : 0 < inject_Z (Z.of_nat (length l))).
  { change 0 with (inject_Z 0). rewrite <- Zlt_Qlt. destruct l; [congruence|cbn; lia]. }
  unfold np_mean. split.
  - apply Qle_shift_div_l; [exact Hn|]. lra.
  - apply Qle_shift_div_r; [exact Hn|]. lra.
Qed.

Lemma emissions_of_in_pools (s : list nat) (ps ms prop_rates malf_rates : list Q) :
  Forall (fun x => x ∈ prop_rates) ps -> Forall (fun x => x ∈ malf_rates) ms ->
  Forall (fun x => x ∈ prop_rates \/ x ∈ malf_rates) (emissions_of s ps ms).
Proof.
  intros Hps Hms. apply Forall_lookup. intros i x Hx.
  apply emissions_of_lookup in Hx as (st & pr & mr & _ & Hp & Hm & ->).
  rewrite Forall_lookup in Hps, Hms.
  destruct (st =? 0)%nat; [left; eapply Hps, Hp|right; eapply Hms, Hm].
Qed.

(** X8. In exact arithmetic: on a valid input whose pools hold only rates
    between [lo] and [hi], every per-step average emission rate, and the
    scalar average returned, lies between [lo] and [hi]. (A rounded average
    can leave the interval by a rounding error, see
    [mean_of_doubles_above_pool].) *)
Theorem average_within_pool_bounds (PC_count : nat) (DTF S0 : Q) (timesteps : nat)
    (p_gas S1 p r : Q) (prop_rates malf_rates : list Q) (lo hi : Q) (g : G) :
  valid_input PC_count timesteps DTF S0 S1 prop_rates malf_rates ->
  Forall (fun x => lo <= x /\ x <= hi) prop_rates ->
  Forall (fun x => lo <= x /\ x <= hi) malf_rates ->
  exists out g',
    simulate_emissions_optimized PC_count DTF S0 timesteps p_gas S1 p r
      prop_rates malf_rates g = (inr out, g')
    /\ Forall (fun a => lo <= a /\ a <= hi) (res_avg_emission_rate out)
    /\ lo <= res_all_avg_emission_rate out /\ res_all_avg_emission_rate out <= hi.
Proof.
  intros Hv Hprop Hmalf.
  destruct (simulate_valid PC_count DTF S0 timesteps p_gas S1 p r prop_rates malf_rates g Hv)
    as (out & ps & ms & s0 & g0 & Hinit & Hrun & Hsum).
  exists out, (generator_at PC_count g0 timesteps). split; [exact Hrun|].
  apply initialise_inv in Hinit as (Hps & Hms & Hl & Hb & Hpin & Hmin).
  destruct Hv as (Hn & Ht & _).
  destruct (loop_result_shapes PC_count (np_clip p 0 1) (np_clip r 0 1) ps ms s0 g0
              timesteps Hps Hms Hl Hb) as ([Le Hrows] & _).
  destruct Hsum as (_ & _ & _ & Ha & -> & _).
  assert (Havg : Forall (fun a => lo <= a /\ a <= hi) (res_avg_emission_rate out)).
  { rewrite Ha. apply Forall_fmap, Forall_lookup. intros t row Hrow.
    assert (Htt : (t < timesteps)%nat) by (apply lookup_lt_Some in Hrow; lia).
    rewrite loop_result_emission_row in Hrow by exact Htt. injection Hrow as <-.
    destruct (trajectory_states PC_count (np_clip p 0 1) (np_clip r 0 1) s0 g0 t Hl Hb)
      as [Hlt _].
    cbn. apply np_mean_bounds.
    - intros E. apply (f_equal length) in E.
      rewrite (emissions_of_length PC_count) in E by assumption. cbn in E. lia.
    - eapply Forall_impl; [apply (emissions_of_in_pools _ _ _ _ _ Hpin Hmin)|].
      rewrite Forall_forall in Hprop, Hmalf. intros x [Hx|Hx]; auto. }
  split; [exact Havg|]. apply np_mean_bounds; [|exact Havg].
  intros E. apply (f_equal length) in E. rewrite Ha, length_fmap, Le in E. cbn in E. lia.
Qed.

(** On doubles the mean of three rates 0.1 is 0.10000000000000002. *)
Lemma mean_of_doubles_above_pool :
  (np_mean64 [0.1; 0.1; 0.1] <=? 0.1)%float = false.
Proof. reflexivity. Qed.

Lemma np_sum_of_means (n : nat) (rows : list (list Q)) :
  (1 <= n)%nat -> Forall (fun row => length row = n) rows ->
  np_sum (np_mean <$> rows) == np_sum (np_sum <$> rows) / inject_Z (Z.of_nat n).
Proof.
  intros Hn. assert (Hne : ~ inject_Z (Z.of_nat n) == 0).
  { change 0 with (inject_Z 0). rewrite inject_Z_injective. lia. }
  induction 1 as [|row rows Hrow _ IH]; cbn [fmap list_fmap].
  - unfold np_sum. cbn. field. exact Hne.
  - change (list_fmap _ _ np_mean rows) with (np_mean <$> rows).
    change (list_fmap _ _ np_sum rows) with (np_sum <$> rows).
    rewrite !np_sum_cons, IH. unfold np_mean. rewrite Hrow. field. exact Hne.
Qed.

Lemma np_cumsum_last (l : list Q) (c : Q) : last (np_cumsum l) = Some c -> c == np_sum l.
Proof.
  rewrite last_lookup, np_cumsum_length. intros Hc.
  assert (Hl : (0 < length l)%nat).
  { apply lookup_lt_Some in Hc. rewrite np_cumsum_length in Hc. lia. }
  apply np_cumsum_lookup in Hc. rewrite Hc, take_ge by lia. reflexivity.
Qed.

(** X9. On a valid input the two scalars returned are tied together: the
    final cumulative emission is [24 * p_gas * PC_count * timesteps] times
    the scalar average emission rate (in exact arithmetic). *)
Theorem final_cumulative_from_average (PC_count : nat) (DTF S0 : Q) (timesteps : nat)
    (p_gas S1 p r : Q) (prop_rates malf_rates : list Q) (g : G) :
  valid_input PC_count timesteps DTF S0 S1 prop_rates malf_rates ->
  exists out g',
    simulate_emissions_optimized PC_count DTF S0 timesteps p_gas S1 p r
      prop_rates malf_rates g = (inr out, g')
    /\ res_final_cumulative_emission out
       == 24 * p_gas * inject_Z (Z.of_nat PC_count) * inject_Z (Z.of_nat timesteps)
          * res_all_avg_emission_rate out.
Proof.
  intros Hv.
  destruct (simulate_valid PC_count DTF S0 timesteps p_gas S1 p r prop_rates malf_rates g Hv)
    as (out & ps & ms & s0 & g0 & Hinit & Hrun & Hsum).
  exists out, (generator_at PC_count g0 timesteps). split; [exact Hrun|].
  apply initialise_inv in Hinit as (Hps & Hms & Hl & Hb & _).
  destruct Hv as (Hn & Ht & _).
  destruct (loop_result_shapes PC_count (np_clip p 0 1) (np_clip r 0 1) ps ms s0 g0
              timesteps Hps Hms Hl Hb) as ([Le Hrows] & _).
  destruct Hsum as (_ & _ & _ & Ha & -> & Hs & Hc & Hlast).
  rewrite Hc, fmap_last in Hlast. apply fmap_Some in Hlast as (c & Hc0 & ->).
  apply np_cumsum_last in Hc0. rewrite Hc0, Hs.
  unfold np_mean. rewrite Ha, length_fmap, Le.
  rewrite (np_sum_of_means PC_count) by assumption.
  field. split; change 0 with (inject_Z 0); rewrite inject_Z_injective; lia.
Qed.

(** *** Further properties of the Monte Carlo loop *)

Lemma py_max_spec (x y : Q) : x <= py_max x y /\ y <= py_max x y /\ (py_max x y = x \/ py_max x y = y).
Proof.
  unfold py_max. destruct (Qltb x y) eqn:E; [apply Qltb_true in E|apply Qltb_false in E];
    repeat split; auto; lra.
Qed.

Lemma py_min_spec (x y : Q) : py_min x y <= x /\ py_min x y <= y /\ (py_min x y = x \/ py_min x y = y).
Proof.
  unfold py_min. destruct (Qltb y x) eqn:E; [apply Qltb_true in E|apply Qltb_false in E];
    repeat split; auto; lra.
Qed.

(** X10. For a mean share in [[0, 1]] and a non-negative variation, lines 47
    and 48 give a range that lies in [[0, 1]], is not empty and contains the
    mean; it is the range of the mean plus or minus the variation wherever
    that stays in [[0, 1]]. *)
Theorem S0_range_within_unit (S0_mean S0_variation : Q) :
  0 <= S0_mean -> S0_mean <= 1 -> 0 <= S0_variation ->
  0 <= (S0_range S0_mean S0_variation).1
  /\ (S0_range S0_mean S0_variation).1 <= S0_mean
  /\ S0_mean <= (S0_range S0_mean S0_variation).2
  /\ (S0_range S0_mean S0_variation).2 <= 1
  /\ (0 <= S0_mean - S0_variation ->
      (S0_range S0_mean S0_variation).1 == S0_mean - S0_variation)
  /\ (S0_mean + S0_variation <= 1 ->
      (S0_range S0_mean S0_variation).2 == S0_mean + S0_variation).
Proof.
  intros H0 H1 Hv. unfold S0_range. cbn [fst snd].
  destruct (py_max_spec 0 (S0_mean - S0_variation)) as (A1 & A2 & [A3|A3]);
    destruct (py_min_spec 1 (S0_mean + S0_variation)) as (B1 & B2 & [B3|B3]);
    rewrite A3, B3 in *; repeat split; intros; lra.
Qed.

Lemma trial_parameters_run (DTF_min DTF_max : Z) (S0_min S0_max : Q) (g : G) :
  (DTF_min <= DTF_max)%Z ->
  let DTF := trial_DTF DTF_min DTF_max g in
  let S0 := trial_S0 DTF_min DTF_max S0_min S0_max g in
  trial_parameters DTF_min DTF_max S0_min S0_max g
  = if Qeq_bool (1 - S0) 0
    then (inl (ZeroDivisionError float_division_by_zero),
          generator_after_parameters DTF_min DTF_max g)
    else (inr (DTF, S0, 1 - S0, S0 / inject_Z DTF,
               S0 / inject_Z DTF / (1 - S0) - S0 / inject_Z DTF),
          generator_after_parameters DTF_min DTF_max g).
Proof.
  intros Hdtf DTF S0. subst DTF S0.
  unfold trial_parameters, trial_DTF, trial_S0, generator_after_parameters.
  unfold bind, np_random_randint, np_random_uniform, draw.
  destruct (Z.leb_spec (DTF_max + 1) DTF_min) as [?|_]; [lia|].
  destruct (next_interval (DTF_max + 1 - DTF_min) g) as [k g1].
  cbv beta iota delta [fst snd].
  destruct (next_double g1) as [u g2]. cbv beta iota delta [fst snd].
  destruct (Qeq_bool (1 - (S0_min + (S0_max - S0_min) * u)) 0); reflexivity.
Qed.

Lemma trial_drawn_values (DTF_min DTF_max : Z) (S0_min S0_max : Q) (g : G) :
  (DTF_min <= DTF_max)%Z -> S0_min <= S0_max ->
  (Z.max 1 DTF_min <= trial_DTF DTF_min DTF_max g <= Z.max 1 DTF_max)%Z
  /\ S0_min <= trial_S0 DTF_min DTF_max S0_min S0_max g
  /\ trial_S0 DTF_min DTF_max S0_min S0_max g <= S0_max
  /\ (S0_min < S0_max -> trial_S0 DTF_min DTF_max S0_min S0_max g < S0_max).
Proof.
  intros Hdtf HS0. unfold trial_DTF, trial_S0.
  pose proof (next_interval_range (DTF_max + 1 - DTF_min) g ltac:(lia)) as Hk.
  pose proof (next_double_range (next_interval (DTF_max + 1 - DTF_min) g).2) as [Hu0 Hu1].
  set (u := (next_double (next_interval (DTF_max + 1 - DTF_min) g).2).1) in *.
  repeat split; try lia; try nra.
Qed.

Lemma trial_run (PC_count : nat) (DTF_min DTF_max : Z) (S0_min S0_max : Q)
    (timesteps : nat) (p_gas : Q) (prop_rates malf_rates : list Q) (i : nat) (e : ensemble)
    (g : G) :
  (DTF_min <= DTF_max)%Z ->
  let DTF := trial_DTF DTF_min DTF_max g in
  let S0 := trial_S0 DTF_min DTF_max S0_min S0_max g in
  trial PC_count DTF_min DTF_max S0_min S0_max timesteps p_gas prop_rates malf_rates i e g
  = if Qeq_bool (1 - S0) 0
    then (inl (ZeroDivisionError float_division_by_zero),
          generator_after_parameters DTF_min DTF_max g)
    else match simulate_emissions_optimized PC_count (inject_Z DTF) S0 timesteps p_gas
                 (1 - S0) (S0 / inject_Z DTF)
                 (S0 / inject_Z DTF / (1 - S0) - S0 / inject_Z DTF) prop_rates malf_rates
                 (generator_after_parameters DTF_min DTF_max g) with
         | (inl err, g3) => (inl err, g3)
         | (inr out, g3) =>
             (inr {| DTF_list := DTF_list e ++ [DTF];
                     S0_list := S0_list e ++ [S0];
                     MC_all_avg_emission_rate :=
                       MC_all_avg_emission_rate e ++ [res_all_avg_emission_rate out];
                     MC_final_cumulative_emission :=
                       MC_final_cumulative_emission e
                         ++ [res_final_cumulative_emission out] |}, g3)
         end.
Proof.
  intros Hdtf DTF S0. unfold trial. unfold bind at 1.
  rewrite trial_parameters_run by exact Hdtf. fold DTF S0.
  destruct (Qeq_bool (1 - S0) 0); [reflexivity|].
  unfold bind. destruct (simulate_emissions_optimized _ _ _ _ _ _ _ _ _ _ _) as [[err|out] g3];
    reflexivity.
Qed.

(** X11. With the range of lines 47 and 48 and [DTF_min <= DTF_max], a trial
    never fails the simulator's validation: the [S0] it draws is in
    [[0, 1]] and its [DTF] is at least 1. *)
Theorem trial_never_invalid (PC_count : nat) (DTF_min DTF_max : Z)
    (S0_mean S0_variation : Q) (timesteps : nat) (p_gas : Q)
    (prop_rates malf_rates : list Q) (i : nat) (e : ensemble) (g g' : G) (err : exn) :
  (DTF_min <= DTF_max)%Z -> 0 <= S0_mean -> S0_mean <= 1 -> 0 <= S0_variation ->
  trial PC_count DTF_min DTF_max (S0_range S0_mean S0_variation).1
    (S0_range S0_mean S0_variation).2 timesteps p_gas prop_rates malf_rates i e g
  = (inl err, g') ->
  ~ InvalidParameter err.
Proof.
  intros Hdtf H0 H1 Hv.
  destruct (S0_range_within_unit S0_mean S0_variation H0 H1 Hv) as (R0 & R1 & R2 & R3 & _).
  destruct (trial_drawn_values DTF_min DTF_max (S0_range S0_mean S0_variation).1
              (S0_range S0_mean S0_variation).2 g Hdtf ltac:(lra)) as (Hd & Hs0 & Hs1 & _).
  rewrite trial_run by exact Hdtf.
  destruct (Qeq_bool _ 0); [intros [= <- _] [[? [=]]|[? [=]]]|].
  destruct (simulate_emissions_optimized _ _ _ _ _ _ _ _ _ _ _) as [[err'|out] g3] eqn:E;
    [|discriminate].
  intros [= <- <-].
  apply simulate_raises in E as [([Hbad|Hbad] & _)|(_ & _ & _ & Hne & _)]; [| |exact Hne].
  - exfalso. apply Hbad. split; lra.
  - exfalso. revert Hbad. apply Qlt_not_le. change 0 with (inject_Z 0).
    rewrite <- Zlt_Qlt. lia.
Qed.

Lemma trial_appends (PC_count : nat) (DTF_min DTF_max : Z) (S0_min S0_max : Q)
    (timesteps : nat) (p_gas : Q) (prop_rates malf_rates : list Q) (i : nat)
    (e e' : ensemble) (g g' : G) :
  trial PC_count DTF_min DTF_max S0_min S0_max timesteps p_gas prop_rates malf_rates i e g
  = (inr e', g') ->
  length (DTF_list e') = S (length (DTF_list e))
  /\ length (S0_list e') = S (length (S0_list e))
  /\ length (MC_all_avg_emission_rate e') = S (length (MC_all_avg_emission_rate e))
  /\ length (MC_final_cumulative_emission e') = S (length (MC_final_cumulative_emission e)).
Proof.
  unfold trial. unfold bind at 1.
  destruct (trial_parameters DTF_min DTF_max S0_min S0_max g) as [[err|[[[[DTF S0] S1] p] r]] g2];
    [discriminate|].
  unfold bind. destruct (simulate_emissions_optimized _ _ _ _ _ _ _ _ _ _ _) as [[err|out] g3];
    [discriminate|].
  intros [= <- _]. cbn. rewrite !length_app. cbn. lia.
Qed.

Lemma trials_lengths (PC_count : nat) (DTF_min DTF_max : Z) (S0_min S0_max : Q)
    (timesteps : nat) (p_gas : Q) (prop_rates malf_rates : list Q) (l : list nat) :
  forall (e ens : ensemble) (g g' : G),
    foldM (trial PC_count DTF_min DTF_max S0_min S0_max timesteps p_gas
             prop_rates malf_rates) l e g = (inr ens, g') ->
    length (DTF_list ens) = (length (DTF_list e) + length l)%nat
    /\ length (S0_list ens) = (length (S0_list e) + length l)%nat
    /\ length (MC_all_avg_emission_rate ens)
       = (length (MC_all_avg_emission_rate e) + length l)%nat
    /\ length (MC_final_cumulative_emission ens)
       = (length (MC_final_cumulative_emission e) + length l)%nat.
Proof.
  induction l as [|i l IH]; intros e ens g g'; cbn [foldM].
  - intros [= <- _]. cbn. lia.
  - unfold bind at 1.
    destruct (trial _ _ _ _ _ _ _ _ _ i e g) as [[err|e1] g1] eqn:E; [discriminate|].
    intros Hrest. apply IH in Hrest. apply trial_appends in E. cbn [length]. lia.
Qed.

(** X12. When the Monte Carlo loop returns, each of the four lists it has
    built holds one entry per trial: [MC_runs] entries. *)
Theorem run_simulation_lengths (MC_runs PC_count : nat) (DTF_min DTF_max : Z)
    (S0_min S0_max : Q) (timesteps : nat) (p_gas : Q) (prop_rates malf_rates : list Q)
    (g g' : G) (ens : ensemble) :
  run_simulation MC_runs PC_count DTF_min DTF_max S0_min S0_max timesteps p_gas
    prop_rates malf_rates g = (inr ens, g') ->
  length (DTF_list ens) = MC_runs
  /\ length (S0_list ens) = MC_runs
  /\ length (MC_all_avg_emission_rate ens) = MC_runs
  /\ length (MC_final_cumulative_emission ens) = MC_runs.
Proof.
  unfold run_simulation. intros Hrun. apply trials_lengths in Hrun.
  rewrite length_seq in Hrun. cbn in Hrun. exact Hrun.
Qed.

(** X13. With at least one unit and one step, non-empty pools,
    [DTF_min <= DTF_max] and [0 <= S0_min <= S0_max < 1], the Monte Carlo
    loop raises nothing: it returns [MC_runs] trials, every recorded [DTF]
    between [max(1, DTF_min)] and [max(1, DTF_max)] and every recorded [S0]
    between [S0_min] and [S0_max]. *)
Theorem run_simulation_returns (MC_runs PC_count : nat) (DTF_min DTF_max : Z)
    (S0_min S0_max : Q) (timesteps : nat) (p_gas : Q) (prop_rates malf_rates : list Q)
    (g : G) :
  (1 <= PC_count)%nat -> (1 <= timesteps)%nat -> prop_rates <> [] -> malf_rates <> [] ->
  (DTF_min <= DTF_max)%Z -> 0 <= S0_min -> S0_min <= S0_max -> S0_max < 1 ->
  exists ens g',
    run_simulation MC_runs PC_count DTF_min DTF_max S0_min S0_max timesteps p_gas
      prop_rates malf_rates g = (inr ens, g')
    /\ length (DTF_list ens) = MC_runs
    /\ length (MC_final_cumulative_emission ens) = MC_runs
    /\ Forall (fun d => (Z.max 1 DTF_min <= d <= Z.max 1 DTF_max)%Z) (DTF_list ens)
    /\ Forall (fun s => S0_min <= s /\ s <= S0_max) (S0_list ens).
Proof.
  intros Hn Ht Hp Hm Hdtf H0 Hle H1. unfold run_simulation.
  assert (Hgen : forall (l : list nat) (e : ensemble) (g0 : G),
            Forall (fun d => (Z.max 1 DTF_min <= d <= Z.max 1 DTF_max)%Z) (DTF_list e) ->
            Forall (fun s => S0_min <= s /\ s <= S0_max) (S0_list e) ->
            exists ens g',
              foldM (trial PC_count DTF_min DTF_max S0_min S0_max timesteps p_gas
                       prop_rates malf_rates) l e g0 = (inr ens, g')
              /\ Forall (fun d => (Z.max 1 DTF_min <= d <= Z.max 1 DTF_max)%Z) (DTF_list ens)
              /\ Forall (fun s => S0_min <= s /\ s <= S0_max) (S0_list ens)).
  { induction l as [|i l IH]; intros e g0 Hd Hs; cbn [foldM].
    - exists e, g0. auto.
    - unfold bind at 1. rewrite trial_run by exact Hdtf.
      destruct (trial_drawn_values DTF_min DTF_max S0_min S0_max g0 Hdtf Hle)
        as (Hdr & Hs0 & Hs1 & _).
      set (DTF := trial_DTF DTF_min DTF_max g0) in *.
      set (S0 := trial_S0 DTF_min DTF_max S0_min S0_max g0) in *.
      assert (Hne : Qeq_bool (1 - S0) 0 = false).
      { apply not_true_iff_false. rewrite Qeq_bool_iff. intros E. lra. }
      rewrite Hne.
      destruct (simulate_valid PC_count (inject_Z DTF) S0 timesteps p_gas (1 - S0)
                  (S0 / inject_Z DTF) (S0 / inject_Z DTF / (1 - S0) - S0 / inject_Z DTF)
                  prop_rates malf_rates (generator_after_parameters DTF_min DTF_max g0))
        as (out & ? & ? & ? & g3 & _ & -> & _).
      { repeat split; try assumption; try lra.
        change 0 with (inject_Z 0). rewrite <- Zlt_Qlt. lia. }
      apply IH; cbn [DTF_list S0_list]; apply Forall_app; split; try assumption;
        repeat constructor; try lia; lra. }
  destruct (Hgen (seq 0 MC_runs)
              {| DTF_list := []; S0_list := []; MC_all_avg_emission_rate := [];
                 MC_final_cumulative_emission := [] |} g) as (ens & g' & Hrun & Hd & Hs);
    [constructor|constructor|].
  exists ens, g'. split; [exact Hrun|].
  apply trials_lengths in Hrun. rewrite length_seq in Hrun. cbn in Hrun. tauto.
Qed.

(** X14. When the range of [S0] is the single value 1 (a mean share of 100%
    with no variation) the first trial draws its parameters and then
    divides by [S1 = 0]: the loop raises ZeroDivisionError and the simulator
    is never called. *)
Theorem run_simulation_divides_by_zero (MC_runs PC_count : nat) (DTF_min DTF_max : Z)
    (S0_min S0_max : Q) (timesteps : nat) (p_gas : Q) (prop_rates malf_rates : list Q)
    (g : G) :
  (1 <= MC_runs)%nat -> (DTF_min <= DTF_max)%Z -> S0_min == 1 -> S0_max == 1 ->
  run_simulation MC_runs PC_count DTF_min DTF_max S0_min S0_max timesteps p_gas
    prop_rates malf_rates g
  = (inl (ZeroDivisionError float_division_by_zero),
     generator_after_parameters DTF_min DTF_max g).
Proof.
  intros Hruns Hdtf Hmin Hmax. unfold run_simulation.
  destruct MC_runs as [|k]; [lia|]. cbn [seq foldM]. unfold bind at 1.
  rewrite trial_run by exact Hdtf.
  assert (E : Qeq_bool (1 - trial_S0 DTF_min DTF_max S0_min S0_max g) 0 = true).
  { apply Qeq_bool_iff. unfold trial_S0. rewrite Hmin, Hmax. ring. }
  rewrite E. reflexivity.
Qed.

(** *** The derived probabilities *)

Lemma np_clip_fixed (x : Q) : np_clip x 0 1 == x <-> 0 <= x /\ x <= 1.
Proof.
  split.
  - intros E. rewrite <- E. apply np_clip_range.
  - intros [H0 H1]. unfold np_clip, np_maximum, np_minimum.
    destruct (Qltb 0 x) eqn:E0; [apply Qltb_true in E0|apply Qltb_false in E0].
    + destruct (Qltb x 1) eqn:E1; [reflexivity|]. apply Qltb_false in E1. lra.
    + change (Qltb 0 1) with true. cbn iota. lra.
Qed.

(** X15. In exact arithmetic: for [0 <= S0 < 1] and [DTF >= 1] the [p] a
    trial derives is already in [[0, 1]], so clamping leaves it alone, and
    the [r] it derives is [S0^2 / (DTF * S1)]: never negative, and left
    alone by the clamping exactly when [S0^2 <= DTF * S1]. *)
Theorem derived_probabilities_clamping (S0 : Q) (DTF : Z) :
  0 <= S0 -> S0 < 1 -> (1 <= DTF)%Z ->
  let S1 := 1 - S0 in
  let p := S0 / inject_Z DTF in
  let r := p / S1 - p in
  np_clip p 0 1 == p
  /\ r == S0 * S0 / (inject_Z DTF * S1)
  /\ 0 <= r
  /\ (np_clip r 0 1 == r <-> S0 * S0 <= inject_Z DTF * S1).
Proof.
  intros H0 H1 Hd S1 p r.
  assert (HD : 1 <= inject_Z DTF) by (change 1 with (inject_Z 1); rewrite <- Zle_Qle; lia).
  assert (HS1 : 0 < S1) by (subst S1; lra).
  assert (Hprod : 0 < inject_Z DTF * S1) by nra.
  assert (Hr : r == S0 * S0 / (inject_Z DTF * S1)).
  { subst r p S1. field. split; lra. }
  assert (Hp : 0 <= p /\ p <= 1).
  { subst p. split.
    - apply Qle_shift_div_l; lra.
    - apply Qle_shift_div_r; lra. }
  assert (Hr0 : 0 <= r).
  { rewrite Hr. apply Qle_shift_div_l; [exact Hprod|]. nra. }
  repeat split; try assumption.
  - apply np_clip_fixed, Hp.
  - intros E. apply np_clip_fixed in E as [_ E]. rewrite Hr in E.
    apply (Qmult_le_compat_r _ _ (inject_Z DTF * S1)) in E; [|lra].
    rewrite Qmult_1_l in E.
    assert (Eq : S0 * S0 / (inject_Z DTF * S1) * (inject_Z DTF * S1) == S0 * S0)
      by (field; lra).
    rewrite Eq in E. exact E.
  - intros E. apply np_clip_fixed. split; [exact Hr0|]. rewrite Hr.
    apply Qle_shift_div_r; [exact Hprod|]. lra.
Qed.

(** X16. In exact arithmetic: for [0 < S0 < 1] and [DTF >= 1] the two
    steady-state lines the driver draws from the derived [p] and [r] are at
    [S0] and at [S1]; for [S0 = 0] both derived probabilities are 0 and
    computing the lines divides by zero. *)
Theorem steady_state_lines_are_shares (S0 : Q) (DTF : Z) :
  0 <= S0 -> S0 < 1 -> (1 <= DTF)%Z ->
  let S1 := 1 - S0 in
  let p := S0 / inject_Z DTF in
  let r := p / S1 - p in
  (0 < S0 ->
   exists proper malfunctioning,
     steady_state_lines p r = inr (proper, malfunctioning)
     /\ proper == S0 /\ malfunctioning == S1)
  /\ (S0 == 0 ->
      p == 0 /\ r == 0
      /\ steady_state_lines p r = inl (ZeroDivisionError float_division_by_zero)).
Proof.
  intros H0 H1 Hd S1 p r.
  assert (HD : 1 <= inject_Z DTF) by (change 1 with (inject_Z 1); rewrite <- Zle_Qle; lia).
  assert (Hpr : p + r == S0 / (inject_Z DTF * S1)).
  { subst r p S1. field. split; lra. }
  unfold steady_state_lines, py_div. split.
  - intros Hpos.
    assert (Hne : ~ p + r == 0).
    { rewrite Hpr. intros E.
      assert (E' : S0 == 0 * (inject_Z DTF * S1)).
      { rewrite <- E. field. subst S1. split; lra. }
      lra. }
    assert (Hb : Qeq_bool (p + r) 0 = false).
    { apply not_true_iff_false. rewrite Qeq_bool_iff. exact Hne. }
    rewrite Hb. eexists _, _. split; [reflexivity|].
    split; subst r p S1; field; repeat split; try lra;
      intros E; apply Hne; subst r p S1; rewrite <- E; field; split; lra.
  - intros Hz.
    assert (Hp0 : p == 0) by (subst p; rewrite Hz; field; lra).
    assert (Hr0 : r == 0) by (subst r p S1; rewrite Hz; field; lra).
    assert (Hb : Qeq_bool (p + r) 0 = true).
    { apply Qeq_bool_iff. rewrite Hpr, Hz. field. subst S1. split; lra. }
    rewrite Hb. auto.
Qed.

End Simulator.

(** ** The properties on a run of the model *)

(** Three units over four steps, with the generator [lcg] started at 7. *)
Lemma demo_valid_input : valid_input 3 4 10 (1 # 2) (1 # 2) [10; 20] [100; 200].
Proof. unfold valid_input. repeat split; try lia; try lra; discriminate. Qed.

(** The same on doubles, with the generator [lcg64]. *)
Lemma demo_valid_input64 :
  valid_input64 3 4 10 0.5 0.5 [10%float; 20%float] [100%float; 200%float].
Proof. unfold valid_input64. repeat split; try lia; try reflexivity; discriminate. Qed.

Lemma markov_transition_rule_witness :
  exists out g',
    simulate_emissions_optimized (G := nat) 3 10 (1 # 2) 4 (1 # 100) (1 # 2) (1 # 2) (1 # 2)
      [10; 20] [100; 200] 7%nat = (inr out, g')
    /\ exists ps ms s0 g0,
         initialise (G := nat) 3 (1 # 2) (1 # 2) [10; 20] [100; 200] 7%nat
           = (inr (ps, ms, s0), g0)
         /\ g' = generator_at 3 g0 4.
Proof.
  destruct (simulate_emissions_optimized (G := nat) 3 10 (1 # 2) 4 (1 # 100) (1 # 2) (1 # 2)
              (1 # 2) [10; 20] [100; 200] 7%nat) as [[e|out] g'] eqn:E.
  - vm_compute in E. discriminate E.
  - exists out, g'. split; [reflexivity|].
    destruct (markov_transition_rule _ _ _ _ _ _ _ _ _ _ _ _ _ E)
      as (ps & ms & s0 & g0 & Hinit & Hg & _).
    exists ps, ms, s0, g0. split; assumption.
Defined.

Lemma empty_rate_pool_fails_witness :
  exists e g',
    simulate_emissions_optimized (G := nat) 3 10 (1 # 2) 4 (1 # 100) (1 # 2) (1 # 2) (1 # 2)
      [] [100; 200] 7%nat = (inl e, g')
    /\ EmptyRatePool e
    /\ (@nil Q = [] -> g' = 7%nat).
Proof.
  apply (empty_rate_pool_fails (G := nat) 3 10 (1 # 2) 4 (1 # 100) (1 # 2) (1 # 2) (1 # 2)
           [] [100; 200] 7%nat); [lia|lra|lra|lra|left; reflexivity].
Defined.

Lemma cumulative_emission_series_witness :
  (exists out g',
     simulate_emissions_optimized64 (G := nat) 1 10 1 5 0.1 0 0 0.5 [10%float] [100%float]
       7%nat = (inr out, g')
     /\ res_emission_rates_each64 out
        = [[10%float]; [10%float]; [10%float]; [10%float]; [10%float]]
     /\ res_final_cumulative_emission64 out = (50 * (24 * 0.1))%float)
  /\ (exists out g',
        simulate_emissions_optimized (G := nat) 1 10 1 5 (1 # 100) 0 0 (1 # 2) [10] [100] 7%nat
          = (inr out, g')
        /\ res_emission_rates_each out = [[10]; [10]; [10]; [10]; [10]]
        /\ res_final_cumulative_emission out == 5 * 10 * 24 * (1 # 100)).
Proof.
  split.
  - apply (proj1 (proj1 (cumulative_emission_series (G := nat)))
             10%float 0.1%float 0.5%float 7%nat).
    reflexivity.
  - apply (proj1 (proj2 (cumulative_emission_series (G := nat))) 10 (1 # 100) (1 # 2) 7%nat).
    lra.
Defined.

(** C5 with the product taken from left to right does not hold on doubles:
    with [p_gas = 0.1] the call returns
    [50.0 * (24 * 0.1) = 120.00000000000001], which is not the double
    [5 * 10.0 * 24 * 0.1 = 120.0]. *)
Lemma cumulative_emission_series_counterexample :
  exists out g',
    simulate_emissions_optimized64 (G := nat) 1 10 1 5 0.1 0 0 0.5 [10%float] [100%float]
      7%nat = (inr out, g')
    /\ (res_final_cumulative_emission64 out =? 5 * 10 * 24 * 0.1)%float = false.
Proof. eexists _, _. split; vm_compute; reflexivity. Qed.

Lemma output_shapes_witness :
  exists out g',
    simulate_emissions_optimized (G := nat) 3 10 (1 # 2) 4 (1 # 100) (1 # 2) (3 # 2) (1 # 2)
      [10; 20] [100; 200] 7%nat = (inr out, g')
    /\ shape 4 3 (res_emission_rates_each out)
    /\ shape 4 3 (res_state_history_each out)
    /\ shape 4 2 (res_state_history out).
Proof.
  destruct (output_shapes (G := nat) 3 10 (1 # 2) 4 (1 # 100) (1 # 2) (3 # 2) (1 # 2)
              [10; 20] [100; 200] 7%nat demo_valid_input)
    as (out & g' & Hrun & He & Hhe & Hh & _).
  exists out, g'. auto.
Defined.

Lemma state_fractions_partition_witness :
  exists out g',
    simulate_emissions_optimized (G := nat) 3 10 (1 # 2) 4 (1 # 100) (1 # 2) (1 # 2) (1 # 2)
      [10; 20] [100; 200] 7%nat = (inr out, g')
    /\ exists a b, res_state_history out !! 2%nat = Some [a; b] /\ a + b == 1.
Proof.
  destruct (state_fractions_partition (G := nat) 3 10 (1 # 2) 4 (1 # 100) (1 # 2) (1 # 2)
              (1 # 2) [10; 20] [100; 200] 7%nat demo_valid_input)
    as (out & g' & Hrun & Hrows).
  exists out, g'. split; [exact Hrun|].
  destruct (Hrows 2%nat ltac:(lia)) as (a & b & _ & Hab & Hsum & _).
  exists a, b. split; assumption.
Defined.



Lemma trial_parameters_derivation_witness :
  exists x g',
    trial_parameters (G := nat) 7 180 (72 # 100) (92 # 100) 5%nat = (inr x, g').
Proof.
  pose proof (trial_parameters_derivation (G := nat) 7 180 (72 # 100) (92 # 100) 5%nat
                ltac:(lia) ltac:(lra)) as Hderiv.
  cbv zeta in Hderiv. destruct Hderiv as (_ & _ & _ & _ & Hok & _).
  eexists _, _. apply Hok. vm_compute. intros E. discriminate E.
Defined.

Lemma sum_is_count_times_average_witness :
  (exists out g',
     simulate_emissions_optimized64 (G := nat) 3 10 0.5 4 0.01 0.5 0.5 0.5
       [10%float; 20%float] [100%float; 200%float] 7%nat = (inr out, g')
     /\ forall t s, res_sum_emission_rate64 out !! t = Some s ->
          res_avg_emission_rate64 out !! t = Some (s / 3)%float)
  /\ (exists out g',
        simulate_emissions_optimized (G := nat) 3 10 (1 # 2) 4 (1 # 100) (1 # 2) (1 # 2)
          (1 # 2) [10; 20] [100; 200] 7%nat = (inr out, g')
        /\ exists s a, res_sum_emission_rate out !! 0%nat = Some s
                       /\ res_avg_emission_rate out !! 0%nat = Some a
                       /\ s == inject_Z 3 * a).
Proof.
  split.
  - destruct (proj1 (sum_is_count_times_average (G := nat) 3 4)
                10%float 0.5%float 0.01%float 0.5%float 0.5%float 0.5%float
                [10%float; 20%float] [100%float; 200%float] 7%nat demo_valid_input64)
      as (out & g' & Hrun & _ & _ & Havg & _).
    exists out, g'. split; [exact Hrun|exact Havg].
  - destruct (proj2 (sum_is_count_times_average (G := nat) 3 4)
                10 (1 # 2) (1 # 100) (1 # 2) (1 # 2) (1 # 2) [10; 20] [100; 200] 7%nat
                demo_valid_input)
      as (out & g' & Hrun & Hrows & _).
    exists out, g'. split; [exact Hrun|].
    destruct (Hrows 0%nat ltac:(lia)) as (s & a & Hs & Ha & _ & Hsa).
    exists s, a. auto.
Defined.

(** C10 with the sum as [PC_count] times the average does not hold on
    doubles: six units of rate 0.3 give the sum 1.8 and the average 0.3 at
    a step, and [6 * 0.3] is the double 1.7999999999999998. *)
Lemma sum_is_count_times_average_counterexample :
  exists out g' s a,
    simulate_emissions_optimized64 (G := nat) 6 10 0.5 2 0.01 0.5 0.5 0.5
      [0.3%float] [0.3%float] 7%nat = (inr out, g')
    /\ res_sum_emission_rate64 out !! 0%nat = Some s
    /\ res_avg_emission_rate64 out !! 0%nat = Some a
    /\ (s =? 6 * a)%float = false.
Proof. eexists _, _, _, _. repeat split; vm_compute; reflexivity. Qed.

(** ** Properties of the report *)

Section ReportProperties.

Context (format_4f : Q -> string) (split_lines : string -> list string) {Figure : Type}.

Lemma py_range_ok (stop step : nat) :
  (0 < step)%nat ->
  py_range stop step = inr ((fun k => (k * step)%nat) <$> seq 0 ((stop + step - 1) / step)).
Proof.
  intros Hs. unfold py_range. destruct (Nat.eqb_spec step 0) as [->|_]; [lia|reflexivity].
Qed.

Lemma ceil_div_bounds (n w : nat) :
  (0 < w)%nat ->
  (n <= (n + w - 1) / w * w)%nat
  /\ ((n + w - 1) / w = 0 \/ ((n + w - 1) / w - 1) * w < n)%nat.
Proof.
  intros Hw. pose proof (Nat.div_mod_eq (n + w - 1) w) as E.
  pose proof (Nat.mod_upper_bound (n + w - 1) w ltac:(lia)) as Hm.
  split; [nia|]. destruct ((n + w - 1) / w)%nat as [|q]; [left; reflexivity|right]. nia.
Qed.

Lemma concat_slices {A} (l : list A) (w m : nat) :
  concat ((fun i => slice l i w) <$> ((fun k => (k * w)%nat) <$> seq 0 m)) = take (m * w) l.
Proof.
  induction m as [|m IH]; [reflexivity|].
  rewrite seq_S, !fmap_app, concat_app, IH. cbn. rewrite app_nil_r.
  unfold slice. rewrite take_take_drop. f_equal. lia.
Qed.

Lemma chunks_of_lookup {A} (l : list A) (w k : nat) (c : list A) :
  chunks_of l w !! k = Some c ->
  (k < (length l + w - 1) / w)%nat /\ c = slice l (k * w) w.
Proof.
  unfold chunks_of. rewrite !list_lookup_fmap. intros Hc.
  destruct (seq 0 ((length l + w - 1) / w) !! k) as [k'|] eqn:E; [|discriminate].
  apply lookup_seq in E as [-> Hk]. cbn in Hc. injection Hc as <-. auto.
Qed.

Lemma chunks_of_length {A} (l : list A) (w : nat) :
  length (chunks_of l w) = ((length l + w - 1) / w)%nat.
Proof. unfold chunks_of. rewrite !length_fmap, length_seq. reflexivity. Qed.

Lemma chunks_of_spec {A} (l : list A) (w : nat) :
  (0 < w)%nat ->
  concat (chunks_of l w) = l
  /\ Forall (fun c => (1 <= length c <= w)%nat) (chunks_of l w)
  /\ (forall k c, (S k < length (chunks_of l w))%nat -> chunks_of l w !! k = Some c ->
      length c = w).
Proof.
  intros Hw. destruct (ceil_div_bounds (length l) w Hw) as [Hup Hlow].
  split; [|split].
  - unfold chunks_of. rewrite concat_slices. apply take_ge. exact Hup.
  - apply Forall_lookup. intros k c Hc. apply chunks_of_lookup in Hc as [Hk ->].
    unfold slice. rewrite length_take, length_drop.
    destruct Hlow as [E|Hlow]; [lia|]. nia.
  - intros k c Hk Hc. rewrite chunks_of_length in Hk.
    apply chunks_of_lookup in Hc as [_ ->].
    unfold slice. rewrite length_take, length_drop.
    destruct Hlow as [E|Hlow]; [lia|]. nia.
Qed.

Lemma sliced_by_range {A B} (l : list A) (w : nat) (f : list A -> B) :
  (0 < w)%nat ->
  exists starts,
    py_range (length l) w = inr starts
    /\ (fun i => f (slice l i w)) <$> starts = f <$> chunks_of l w.
Proof.
  intros Hw. eexists. split; [apply py_range_ok, Hw|].
  unfold chunks_of.
  change (fun i => f (slice l i w)) with (f ∘ (fun i => slice l i w)).
  apply list_fmap_compose.
Qed.

(** X17. [wrap_list] with a zero [wrap] raises. With a positive one it
    returns the header line followed by one line per chunk of the values:
    the chunks, put end to end, are the values in their order; there are
    [ceil(len(values) / wrap)] of them; none is empty or longer than [wrap],
    and every chunk but the last holds exactly [wrap] values. *)
Theorem wrap_list_chunks (label : string) (values : list Q) (wrap : nat) :
  (wrap = 0%nat -> wrap_list format_4f label values wrap = inl range_arg_3_must_not_be_zero)
  /\ ((0 < wrap)%nat ->
      exists chunks,
        wrap_list format_4f label values wrap
        = inr ((label +:+ " (" +:+ pretty (length values) +:+ " values):")
               :: ((fun c => String.concat ", " (format_4f <$> c)) <$> chunks))
        /\ concat chunks = values
        /\ length chunks = ((length values + wrap - 1) / wrap)%nat
        /\ Forall (fun c => (1 <= length c <= wrap)%nat) chunks
        /\ (forall k c, (S k < length chunks)%nat -> chunks !! k = Some c ->
            length c = wrap)).
Proof.
  split.
  - intros ->. reflexivity.
  - intros Hw. exists (chunks_of values wrap).
    destruct (chunks_of_spec values wrap Hw) as (Hc & Hf & Hfull).
    destruct (sliced_by_range values wrap
                (fun c => String.concat ", " (format_4f <$> c)) Hw) as (starts & Hr & Hs).
    unfold wrap_list. rewrite Hr, Hs.
    repeat split; try assumption. apply chunks_of_length.
Qed.

Lemma wrap_list_default (label : string) (values : list Q) :
  wrap_list format_4f label values 10
  = inr ((label +:+ " (" +:+ pretty (length values) +:+ " values):")
         :: ((fun c => String.concat ", " (format_4f <$> c)) <$> chunks_of values 10)).
Proof.
  destruct (sliced_by_range values 10 (fun c => String.concat ", " (format_4f <$> c))
              ltac:(lia)) as (starts & Hr & Hs).
  unfold wrap_list. rewrite Hr, Hs. reflexivity.
Qed.

Lemma numbered_app (c : nat) (a b : list (page_body Figure)) :
  numbered c (a ++ b) = numbered c a ++ numbered (c + length a) b.
Proof.
  unfold numbered. rewrite imap_app. f_equal. apply imap_ext. intros k x _.
  cbn. f_equal. lia.
Qed.

Lemma numbered_cons (c : nat) (b : page_body Figure) (bodies : list (page_body Figure)) :
  numbered c (b :: bodies) = {| body := b; page_num := c |} :: numbered (S c) bodies.
Proof.
  unfold numbered. rewrite imap_cons. f_equal; [f_equal; lia|].
  apply imap_ext. intros k x _. cbn. f_equal. lia.
Qed.

Lemma numbered_lookup (c k : nat) (bodies : list (page_body Figure)) (pg : page Figure) :
  numbered c bodies !! k = Some pg ->
  page_num pg = (c + k)%nat /\ bodies !! k = Some (body pg).
Proof.
  unfold numbered. rewrite list_lookup_imap. intros Hpg.
  apply fmap_Some in Hpg as (b & Hb & ->). auto.
Qed.

Lemma numbered_length (c : nat) (bodies : list (page_body Figure)) :
  length (numbered c bodies) = length bodies.
Proof. apply length_imap. Qed.

Lemma numbered_bodies (c : nat) (bodies : list (page_body Figure)) :
  body <$> numbered c bodies = bodies.
Proof.
  apply list_eq. intros k. unfold numbered. rewrite list_lookup_fmap, list_lookup_imap.
  destruct (bodies !! k); reflexivity.
Qed.

Lemma save_pages (bodies : list (page_body Figure)) (st : list (page Figure) * nat) :
  foldl (fun st b => save_page b st) st bodies
  = (st.1 ++ numbered st.2 bodies, (st.2 + length bodies)%nat).
Proof.
  revert st. induction bodies as [|b bodies IH]; intros [pdf c]; cbn [foldl fst snd length].
  - rewrite app_nil_r. f_equal. lia.
  - rewrite IH. unfold save_page. cbn [fst snd].
    change (b :: bodies) with ([b] ++ bodies). rewrite numbered_app, <- app_assoc.
    cbn [length]. f_equal; [|lia]. f_equal. unfold numbered at 2. cbn.
    do 3 f_equal; [lia|]. f_equal. lia.
Qed.

Lemma list_pages_run (label : string) (values : list Q) (st : list (page Figure) * nat) :
  exists lines,
    wrap_list format_4f label values 10 = inr lines
    /\ length lines = S ((length values + 9) / 10)
    /\ list_pages format_4f label values st
       = inr (st.1 ++ numbered st.2
                        ((fun c => text_page (place 0.025%float c)) <$> chunks_of lines 80),
              (st.2 + length (chunks_of lines 80))%nat).
Proof.
  eexists. split; [apply wrap_list_default|]. split.
  { cbn [length]. rewrite length_fmap, chunks_of_length. do 2 f_equal. lia. }
  unfold list_pages. rewrite wrap_list_default.
  set (lines := _ :: _).
  destruct (sliced_by_range lines 80 (fun c => @text_page Figure (place 0.025%float c))
              ltac:(lia)) as (starts & Hr & Hs).
  rewrite Hr. f_equal.
  rewrite <- (foldl_fmap (fun st b => save_page b st) st starts
                (fun i => text_page (place 0.025%float (slice lines i 80)))).
  rewrite Hs, save_pages, length_fmap. reflexivity.
Qed.

Lemma report_run (figs : list Figure) (summary_text : string) (prop_rates malf_rates : list Q) :
  exists lp lm,
    wrap_list format_4f "Properly Operating Rates" prop_rates 10 = inr lp
    /\ length lp = S ((length prop_rates + 9) / 10)
    /\ wrap_list format_4f "Malfunctioning Rates" malf_rates 10 = inr lm
    /\ length lm = S ((length malf_rates + 9) / 10)
    /\ generate_pdf_report format_4f split_lines figs summary_text prop_rates malf_rates
       = inr (numbered 1
                ((figure_page <$> figs)
                 ++ [text_page (place 0.03%float (split_lines summary_text))]
                 ++ ((fun c => text_page (place 0.025%float c)) <$> chunks_of lp 80)
                 ++ ((fun c => text_page (place 0.025%float c)) <$> chunks_of lm 80))).
Proof.
  unfold generate_pdf_report.
  rewrite <- (foldl_fmap (fun st b => save_page b st) ([], 1%nat) figs figure_page).
  rewrite save_pages. cbn [fst snd app]. unfold save_page at 1. cbn [fst snd].
  set (st1 := (_, _)).
  destruct (list_pages_run "Properly Operating Rates" prop_rates st1) as (lp & Hlp & Llp & ->).
  set (st2 := (_, _)).
  destruct (list_pages_run "Malfunctioning Rates" malf_rates st2) as (lm & Hlm & Llm & ->).
  exists lp, lm. repeat split; try assumption.
  subst st2 st1. cbn [fst snd]. f_equal.
  rewrite <- !app_assoc. rewrite (numbered_app 1). f_equal.
  cbn [app]. rewrite numbered_cons, numbered_app. f_equal. f_equal.
  rewrite !length_fmap. f_equal.
Qed.

(** X18. The report is always written. Its pages carry the numbers 1, 2, 3
    and so on in the order they are saved, and there is one page per
    figure, one for the summary and, for each pool, [ceil(lines / 80)]
    pages for its [1 + ceil(len / 10)] lines. *)
Theorem report_pages_numbered (figs : list Figure) (summary_text : string)
    (prop_rates malf_rates : list Q) :
  exists pages,
    generate_pdf_report format_4f split_lines figs summary_text prop_rates malf_rates
      = inr pages
    /\ (forall k pg, pages !! k = Some pg -> page_num pg = S k)
    /\ length pages
       = (length figs + 1 + (S ((length prop_rates + 9) / 10) + 79) / 80
          + (S ((length malf_rates + 9) / 10) + 79) / 80)%nat.
Proof.
  destruct (report_run figs summary_text prop_rates malf_rates)
    as (lp & lm & _ & Llp & _ & Llm & ->).
  eexists. split; [reflexivity|]. split.
  - intros k pg Hpg. apply numbered_lookup in Hpg as [-> _]. reflexivity.
  - rewrite numbered_length, !length_app, !length_fmap, !chunks_of_length, Llp, Llm.
    cbn [length].
    replace (S ((length prop_rates + 9) / 10) + 80 - 1)%nat
      with (S ((length prop_rates + 9) / 10) + 79)%nat by lia.
    replace (S ((length malf_rates + 9) / 10) + 80 - 1)%nat
      with (S ((length malf_rates + 9) / 10) + 79)%nat by lia.
    lia.
Qed.

(** X19. The pages of the report are the figures in the order given, then
    the summary page, then the list pages of the properly-operating rates,
    then those of the malfunctioning rates. The list pages of a pool hold
    the lines of [wrap_list] for that pool in their order, none lost, at
    most 80 to a page and never none. *)
Theorem report_page_order (figs : list Figure) (summary_text : string)
    (prop_rates malf_rates : list Q) :
  exists pages lp lm cp cm,
    generate_pdf_report format_4f split_lines figs summary_text prop_rates malf_rates
      = inr pages
    /\ wrap_list format_4f "Properly Operating Rates" prop_rates 10 = inr lp
    /\ wrap_list format_4f "Malfunctioning Rates" malf_rates 10 = inr lm
    /\ body <$> pages
       = (figure_page <$> figs)
         ++ [text_page (place 0.03%float (split_lines summary_text))]
         ++ ((fun c => text_page (place 0.025%float c)) <$> cp)
         ++ ((fun c => text_page (place 0.025%float c)) <$> cm)
    /\ concat cp = lp /\ concat cm = lm
    /\ Forall (fun c => (1 <= length c <= 80)%nat) cp
    /\ Forall (fun c => (1 <= length c <= 80)%nat) cm.
Proof.
  destruct (report_run figs summary_text prop_rates malf_rates)
    as (lp & lm & Hlp & _ & Hlm & _ & ->).
  destruct (chunks_of_spec lp 80 ltac:(lia)) as (Cp & Fp & _).
  destruct (chunks_of_spec lm 80 ltac:(lia)) as (Cm & Fm & _).
  eexists _, lp, lm, (chunks_of lp 80), (chunks_of lm 80).
  split; [reflexivity|]. rewrite numbered_bodies. auto 10.
Qed.

Lemma place_lookup (spacing : float) (lines : list string) (j : nat) (y : float)
    (line : string) :
  place spacing lines !! j = Some (y, line) ->
  lines !! j = Some line /\ y = (0.95 - float_of_nat64 j * spacing)%float.
Proof.
  unfold place. rewrite list_lookup_imap. intros Hj.
  apply fmap_Some in Hj as (l & Hl & [= -> ->]). auto.
Qed.

Lemma place_length (spacing : float) (lines : list string) :
  length (place spacing lines) = length lines.
Proof. apply length_imap. Qed.

(** The heights of the 80 lines a list page can take, computed one by one:
    [0.95 - 38 * 0.025] is the double [-1.1102230246251565e-16]. *)
Lemma below_zero_from_39th (j : nat) :
  (j < 80)%nat ->
  ((0.95 - float_of_nat64 j * 0.025 <? 0)%float = true <-> (38 <= j)%nat).
Proof.
  intros Hj.
  do 80 (destruct j as [|j];
         [vm_compute; split; intros E; try discriminate E; try reflexivity; lia|]).
  lia.
Qed.

(** X20. On every list page of the report, line [j] (counted from 0) is
    drawn at the double [0.95 - j * 0.025]; a page has at most 80 lines, and
    the height is negative from the 39th line on ([j >= 38], where the
    double is [-1.1e-16]); a pool of more than 370 rates gives a first list
    page that has a 39th line. *)
Theorem list_page_heights (figs : list Figure) (summary_text : string)
    (prop_rates malf_rates : list Q) (pages : list (page Figure)) :
  generate_pdf_report format_4f split_lines figs summary_text prop_rates malf_rates
    = inr pages ->
  (forall k pg texts j y line,
     (length figs < k)%nat -> pages !! k = Some pg -> body pg = text_page texts ->
     texts !! j = Some (y, line) ->
     y = (0.95 - float_of_nat64 j * 0.025)%float /\ (j < 80)%nat
     /\ ((y <? 0)%float = true <-> (38 <= j)%nat))
  /\ ((371 <= length prop_rates)%nat ->
      exists pg texts y line,
        pages !! S (length figs) = Some pg /\ body pg = text_page texts
        /\ texts !! 38%nat = Some (y, line) /\ (y <? 0)%float = true).
Proof.
  destruct (report_run figs summary_text prop_rates malf_rates)
    as (lp & lm & _ & Llp & _ & _ & ->).
  intros [= <-]. split.
  - intros k pg texts j y line Hk Hpg Hbody Hj.
    apply numbered_lookup in Hpg as [_ Hb]. rewrite Hbody in Hb.
    rewrite lookup_app_r in Hb by (rewrite length_fmap; lia).
    rewrite length_fmap in Hb.
    destruct (k - length figs)%nat as [|k'] eqn:Ek; [lia|]. cbn [app lookup list_lookup] in Hb.
    rewrite <- fmap_app in Hb. apply list_lookup_fmap_Some_1 in Hb as (c & [= ->] & Hc).
    assert (Hlen : (length c <= 80)%nat).
    { apply lookup_app_Some in Hc as [Hc|[_ Hc]];
        apply chunks_of_lookup in Hc as [_ ->]; unfold slice; rewrite length_take; lia. }
    pose proof (lookup_lt_Some _ _ _ Hj) as Hlt. rewrite place_length in Hlt.
    apply place_lookup in Hj as [_ ->]. split; [reflexivity|]. split; [lia|].
    apply below_zero_from_39th. lia.
  - intros Hn.
    assert (Hlen : (39 <= length lp)%nat).
    { rewrite Llp. pose proof (Nat.div_mod_eq (length prop_rates + 9) 10).
      pose proof (Nat.mod_upper_bound (length prop_rates + 9) 10 ltac:(lia)). lia. }
    assert (Hq : (1 <= (length lp + 80 - 1) / 80)%nat).
    { apply Nat.div_le_lower_bound; lia. }
    destruct (lookup_lt_is_Some_2 (chunks_of lp 80) 0) as [c Hc].
    { rewrite chunks_of_length. lia. }
    pose proof Hc as Hc'. apply chunks_of_lookup in Hc' as [_ Ec].
    assert (Hcl : (39 <= length c)%nat).
    { rewrite Ec. unfold slice. rewrite length_take, length_drop. lia. }
    destruct (lookup_lt_is_Some_2 c 38) as [line Hline]; [lia|].
    eexists {| body := text_page (place 0.025%float c); page_num := 1 + S (length figs) |},
      _, _, line.
    split; [|split; [reflexivity|split]].
    + unfold numbered. rewrite list_lookup_imap.
      rewrite lookup_app_r by (rewrite length_fmap; lia).
      replace (S (length figs) - length (figure_page <$> figs))%nat with 1%nat
        by (rewrite length_fmap; lia).
      cbn [app]. rewrite lookup_cons_ne_0 by lia. cbn [pred].
      rewrite lookup_app_l.
      * rewrite list_lookup_fmap, Hc. reflexivity.
      * rewrite length_fmap. apply lookup_lt_Some in Hc. exact Hc.
    + unfold place. rewrite list_lookup_imap, Hline. reflexivity.
    + reflexivity.
Qed.

End ReportProperties.

(** ** Properties of the input check *)

(** The cases of the check are settled one by one, each from what the two
    keys hold. *)
Ltac break_hyps :=
  repeat match goal with
         | H : exists _, _ |- _ => destruct H as [? H]
         | H : _ /\ _ |- _ => destruct H as [? H]
         | H : _ \/ _ |- _ => destruct H as [H|H]
         end.

Ltac settle_check :=
  break_hyps; simplify_eq;
  repeat match goal with
         | H : forall items, ?v = json_array items -> _, E : ?v = json_array _ |- _ =>
             specialize (H _ E)
         | H : forall items, ?v <> json_array items, E : ?v = json_array _ |- _ =>
             destruct (H _ E)
         end;
  first [ reflexivity
        | congruence
        | eexists _, _, _; repeat split; (reflexivity || eassumption || congruence)
        | eexists _, _, _; split; [reflexivity|]; split; [repeat split; eassumption|];
          first [ left; repeat split; congruence
                | right; left; repeat split; congruence
                | right; right; repeat split; congruence ]
        | eexists; split; [reflexivity|]; split; [intros; congruence|];
          split; [intros; congruence|];
          first [ left; intros; congruence | right; intros; congruence ] ].

Section InputCheckProperties.

Context (inhomogeneous : list json -> bool).

(** X21. For the JSON format, whatever [json.load] returned: the script goes
    on to the simulation exactly when the document is an object whose keys
    ["prop_rates"] and ["malf_rates"] both hold non-empty lists that
    [np.array] accepts (a missing key counts as an empty list); it stops
    with the message of line 94 exactly when both hold accepted lists and
    one is empty, and the message names exactly the empty ones; and it ends
    in the uncaught [TypeError] of [len] exactly when the document is an
    object, no list is refused, and one of the two keys holds something
    that is not a list ([null], a number, a string, an object). In every
    other case it stops with the message of line 87. *)
Theorem json_rates_checked (parsed : option json) :
  (forall a b,
     load_rates inhomogeneous parsed = rates_loaded a b <->
     exists members ps ms,
       parsed = Some (json_object members) /\ accepted_lists inhomogeneous members ps ms
       /\ a = sized ps /\ b = sized ms /\ ps <> [] /\ ms <> [])
  /\ (forall message,
        load_rates inhomogeneous parsed = missing_or_empty_input_data message <->
        exists members ps ms,
          parsed = Some (json_object members) /\ accepted_lists inhomogeneous members ps ms
          /\ ((ps = [] /\ ms <> []
               /\ message = "Missing or empty input data: Properly Operating Rates. Please upload valid file(s).")
              \/ (ps <> [] /\ ms = []
                  /\ message = "Missing or empty input data: Malfunctioning Rates. Please upload valid file(s).")
              \/ (ps = [] /\ ms = []
                  /\ message = "Missing or empty input data: Properly Operating Rates, Malfunctioning Rates. Please upload valid file(s).")))
  /\ (load_rates inhomogeneous parsed = len_of_unsized_object <->
      exists members,
        parsed = Some (json_object members)
        /\ not_refused inhomogeneous (dict_get "prop_rates" members)
        /\ not_refused inhomogeneous (dict_get "malf_rates" members)
        /\ (no_list (dict_get "prop_rates" members)
            \/ no_list (dict_get "malf_rates" members))).
Proof.
  unfold accepted_lists, not_refused, no_list.
  destruct parsed as [[| | | | |members]|]; cbn;
    try (repeat split; intros; settle_check).
  destruct (dict_get "prop_rates" members) as [| | | |ps|] eqn:Ep;
    destruct (dict_get "malf_rates" members) as [| | | |ms|] eqn:Em; cbn;
    try destruct (inhomogeneous ps) eqn:Ip; try destruct (inhomogeneous ms) eqn:Im; cbn;
    try destruct ps; try destruct ms; cbn.
  all: repeat split; intros; settle_check.
Qed.

End InputCheckProperties.

(** ** The further properties on runs of the model *)

Lemma no_transitions_constant_witness :
  exists out g',
    simulate_emissions_optimized (G := nat) 3 10 (1 # 2) 4 (1 # 100) (1 # 2) (- (1 # 2)) 0
      [10; 20] [100; 200] 7%nat = (inr out, g')
    /\ res_state_history_each out !! 3%nat = res_state_history_each out !! 0%nat.
Proof.
  destruct (simulate_emissions_optimized (G := nat) 3 10 (1 # 2) 4 (1 # 100) (1 # 2)
              (- (1 # 2)) 0 [10; 20] [100; 200] 7%nat) as [[e|out] g'] eqn:E.
  - vm_compute in E. discriminate E.
  - exists out, g'. split; [reflexivity|].
    apply (no_transitions_constant _ _ _ _ _ _ _ _ _ _ _ _ _ E); [lra|lra|lia].
Defined.

Lemma certain_transitions_witness :
  exists out g',
    simulate_emissions_optimized (G := nat) 3 10 (1 # 2) 4 (1 # 100) (1 # 2) (3 # 2) 2
      [10; 20] [100; 200] 7%nat = (inr out, g')
    /\ (entry (res_state_history_each out) 0 0 = Some 0 ->
        entry (res_state_history_each out) 1 0 = Some 1).
Proof.
  destruct (simulate_emissions_optimized (G := nat) 3 10 (1 # 2) 4 (1 # 100) (1 # 2)
              (3 # 2) 2 [10; 20] [100; 200] 7%nat) as [[e|out] g'] eqn:E.
  - vm_compute in E. discriminate E.
  - exists out, g'. split; [reflexivity|].
    apply (certain_transitions _ _ _ _ _ _ _ _ _ _ _ _ _ E 0%nat 0%nat); [lia|lra].
Defined.

Lemma zero_timesteps_raises_witness :
  simulate_emissions_optimized (G := nat) 3 10 (1 # 2) 0 (1 # 100) (1 # 2) (1 # 2) (1 # 2)
    [10; 20] [100; 200] 7%nat
  = (inl (IndexError index_out_of_bounds),
     generator_after_initialise 3 [10; 20] [100; 200] 7%nat).
Proof.
  apply (zero_timesteps_raises (G := nat)); try lra; discriminate.
Defined.

Lemma inconsistent_S1_raises_witness :
  simulate_emissions_optimized (G := nat) 3 10 (1 # 2) 4 (1 # 100) (3 # 4) (1 # 2) (1 # 2)
    [10; 20] [100; 200] 7%nat
  = (inl (ValueError probabilities_do_not_sum_to_1),
     generator_after_rates 3 [10; 20] [100; 200] 7%nat).
Proof.
  apply (inconsistent_S1_raises (G := nat) 3 10 (1 # 2) 4 (1 # 100) (3 # 4) (1 # 2) (1 # 2)
           [10; 20] [100; 200] 7%nat); try lra; try discriminate.
  vm_compute. reflexivity.
Defined.

Lemma unit_rates_fixed_witness :
  exists out g' (prop_sample malf_sample : list Q),
    simulate_emissions_optimized (G := nat) 3 10 (1 # 2) 4 (1 # 100) (1 # 2) (1 # 2) (1 # 2)
      [10; 20] [100; 200] 7%nat = (inr out, g')
    /\ length prop_sample = 3%nat /\ length malf_sample = 3%nat.
Proof.
  destruct (simulate_emissions_optimized (G := nat) 3 10 (1 # 2) 4 (1 # 100) (1 # 2)
              (1 # 2) (1 # 2) [10; 20] [100; 200] 7%nat) as [[e|out] g'] eqn:E.
  - vm_compute in E. discriminate E.
  - destruct (unit_rates_fixed _ _ _ _ _ _ _ _ _ _ _ _ _ E) as (ps & ms & Hp & Hm & _).
    exists out, g', ps, ms. auto.
Defined.

Lemma initial_states_by_draw_witness :
  exists out g',
    simulate_emissions_optimized (G := nat) 3 10 (1 # 2) 4 (1 # 100) (1 # 2) (1 # 2) (1 # 2)
      [10; 20] [100; 200] 7%nat = (inr out, g')
    /\ exists u s,
         entry (res_state_history_each out) 0 0 = Some (float_of_nat s)
         /\ (s = 0%nat <-> u < 1 # 2).
Proof.
  destruct (initial_states_by_draw (G := nat) 3 10 (1 # 2) 4 (1 # 100) (1 # 2) (1 # 2)
              (1 # 2) [10; 20] [100; 200] 7%nat demo_valid_input)
    as (out & g' & Hrun & Hunits).
  exists out, g'. split; [exact Hrun|].
  destruct (Hunits 0%nat ltac:(lia)) as (u & s & _ & Hs & Hu & _).
  exists u, s. auto.
Defined.

Lemma generator_consumption_witness :
  exists out,
    simulate_emissions_optimized (G := nat) 3 10 (1 # 2) 4 (1 # 100) (1 # 2) (1 # 2) (1 # 2)
      [10; 20] [100; 200] 7%nat
    = (inr out, generator_at 3 (generator_after_initialise 3 [10; 20] [100; 200] 7%nat) 4).
Proof.
  apply (generator_consumption (G := nat) 3 10 (1 # 2) 4 (1 # 100) (1 # 2) (1 # 2) (1 # 2)
           [10; 20] [100; 200] 7%nat demo_valid_input).
Defined.

Lemma average_within_pool_bounds_witness :
  exists out g',
    simulate_emissions_optimized (G := nat) 3 10 (1 # 2) 4 (1 # 100) (1 # 2) (1 # 2) (1 # 2)
      [10; 20] [100; 200] 7%nat = (inr out, g')
    /\ 10 <= res_all_avg_emission_rate out /\ res_all_avg_emission_rate out <= 200.
Proof.
  destruct (average_within_pool_bounds (G := nat) 3 10 (1 # 2) 4 (1 # 100) (1 # 2) (1 # 2)
              (1 # 2) [10; 20] [100; 200] 10 200 7%nat demo_valid_input)
    as (out & g' & Hrun & _ & Hlo & Hhi).
  - repeat constructor; lra.
  - repeat constructor; lra.
  - exists out, g'. auto.
Defined.

Lemma final_cumulative_from_average_witness :
  exists out g',
    simulate_emissions_optimized (G := nat) 3 10 (1 # 2) 4 (1 # 100) (1 # 2) (1 # 2) (1 # 2)
      [10; 20] [100; 200] 7%nat = (inr out, g')
    /\ res_final_cumulative_emission out
       == 24 * (1 # 100) * inject_Z 3 * inject_Z 4 * res_all_avg_emission_rate out.
Proof.
  apply (final_cumulative_from_average (G := nat) 3 10 (1 # 2) 4 (1 # 100) (1 # 2) (1 # 2)
           (1 # 2) [10; 20] [100; 200] 7%nat demo_valid_input).
Defined.

Lemma S0_range_within_unit_witness :
  0 <= (S0_range (82 # 100) (30 # 100)).1 /\ (S0_range (82 # 100) (30 # 100)).2 <= 1.
Proof.
  destruct (S0_range_within_unit (82 # 100) (30 # 100) ltac:(lra) ltac:(lra) ltac:(lra))
    as (Hlo & _ & _ & Hhi & _).
  split; assumption.
Defined.

Lemma trial_never_invalid_witness :
  exists err g',
    trial (G := nat) 3 7 180 (S0_range (82 # 100) (10 # 100)).1
      (S0_range (82 # 100) (10 # 100)).2 4 (1 # 100) [] [100; 200] 0
      {| DTF_list := []; S0_list := []; MC_all_avg_emission_rate := [];
         MC_final_cumulative_emission := [] |} 5%nat = (inl err, g')
    /\ ~ InvalidParameter err.
Proof.
  destruct (trial (G := nat) 3 7 180 (S0_range (82 # 100) (10 # 100)).1
              (S0_range (82 # 100) (10 # 100)).2 4 (1 # 100) [] [100; 200] 0
              {| DTF_list := []; S0_list := []; MC_all_avg_emission_rate := [];
                 MC_final_cumulative_emission := [] |} 5%nat) as [[err|e'] g'] eqn:E.
  - exists err, g'. split; [reflexivity|].
    refine (trial_never_invalid (G := nat) 3 7 180 (82 # 100) (10 # 100) 4 (1 # 100) []
              [100; 200] 0 _ 5%nat g' err _ _ _ _ E); [lia|lra|lra|lra].
  - vm_compute in E. discriminate E.
Defined.

Lemma run_simulation_lengths_witness :
  exists ens g',
    run_simulation (G := nat) 2 3 7 180 (72 # 100) (92 # 100) 4 (1 # 100)
      [10; 20] [100; 200] 5%nat = (inr ens, g')
    /\ length (DTF_list ens) = 2%nat.
Proof.
  destruct (run_simulation (G := nat) 2 3 7 180 (72 # 100) (92 # 100) 4 (1 # 100)
              [10; 20] [100; 200] 5%nat) as [[err|ens] g'] eqn:E.
  - vm_compute in E. discriminate E.
  - exists ens, g'. split; [reflexivity|].
    apply (run_simulation_lengths _ _ _ _ _ _ _ _ _ _ _ _ _ E).
Defined.

Lemma run_simulation_returns_witness :
  exists ens g',
    run_simulation (G := nat) 100 3 7 180 (72 # 100) (92 # 100) 365 (1 # 100)
      [10; 20] [100; 200] 5%nat = (inr ens, g')
    /\ length (DTF_list ens) = 100%nat.
Proof.
  destruct (run_simulation_returns (G := nat) 100 3 7 180 (72 # 100) (92 # 100) 365 (1 # 100)
              [10; 20] [100; 200] 5%nat ltac:(lia) ltac:(lia) ltac:(discriminate)
              ltac:(discriminate) ltac:(lia) ltac:(lra) ltac:(lra) ltac:(lra))
    as (ens & g' & Hrun & Hlen & _).
  exists ens, g'. split; [exact Hrun|exact Hlen].
Defined.

Lemma run_simulation_divides_by_zero_witness :
  run_simulation (G := nat) 100 3 7 180 1 1 365 (1 # 100) [10; 20] [100; 200] 5%nat
  = (inl (ZeroDivisionError float_division_by_zero), generator_after_parameters 7 180 5%nat).
Proof.
  apply (run_simulation_divides_by_zero (G := nat)); try lia; reflexivity.
Defined.

Lemma derived_probabilities_clamping_witness :
  np_clip ((9 # 10) / inject_Z 1) 0 1 == (9 # 10) / inject_Z 1
  /\ ~ np_clip ((9 # 10) / inject_Z 1 / (1 - (9 # 10)) - (9 # 10) / inject_Z 1) 0 1
       == (9 # 10) / inject_Z 1 / (1 - (9 # 10)) - (9 # 10) / inject_Z 1.
Proof.
  destruct (derived_probabilities_clamping (9 # 10) 1 ltac:(lra) ltac:(lra) ltac:(lia))
    as (Hp & _ & _ & Hr).
  split; [exact Hp|]. intros E. apply Hr in E. revert E. apply Qlt_not_le. reflexivity.
Defined.

Lemma steady_state_lines_are_shares_witness :
  exists proper malfunctioning,
    steady_state_lines ((8 # 10) / inject_Z 30)
      ((8 # 10) / inject_Z 30 / (1 - (8 # 10)) - (8 # 10) / inject_Z 30)
    = inr (proper, malfunctioning)
    /\ proper == 8 # 10 /\ malfunctioning == 1 - (8 # 10).
Proof.
  apply (proj1 (steady_state_lines_are_shares (8 # 10) 30 ltac:(lra) ltac:(lra) ltac:(lia))).
  lra.
Defined.

Lemma list_page_heights_witness :
  exists (pages : list (page nat)) pg texts y line,
    generate_pdf_report (fun _ => "0.0000") (fun text => [text]) [1%nat; 2%nat; 3%nat]
      "Simulation Summary" (replicate 371 10) [100; 200] = inr pages
    /\ pages !! 4%nat = Some pg /\ body pg = text_page texts
    /\ texts !! 38%nat = Some (y, line) /\ (y <? 0)%float = true.
Proof.
  destruct (generate_pdf_report (Figure := nat) (fun _ => "0.0000") (fun text => [text])
              [1%nat; 2%nat; 3%nat] "Simulation Summary" (replicate 371 10) [100; 200])
    as [e|pages] eqn:E.
  - vm_compute in E. discriminate E.
  - destruct (proj2 (list_page_heights _ _ _ _ _ _ _ E)) as (pg & texts & y & line & Hpg);
      [rewrite length_replicate; lia|].
    exists pages, pg, texts, y, line. split; [reflexivity|exact Hpg].
Defined.
